(** * Caching core of the cssinjs runtime: Cache Entity, useClientCache, ThemeCache

    A shallow embedding of
      - [components/_util/cssinjs/Cache.ts]        (class [Entity]),
      - [components/_util/cssinjs/hooks/useClientCache] (the reference-counting hook),
      - [components/_util/cssinjs/theme/ThemeCache]     (the hierarchical LRU cache),
      - [components/_util/cssinjs/theme/createTheme.ts] (themes by derivative sequence),
      - [components/_util/cssinjs/StyleContext.tsx]     (the entity of a style context),
    followed by the properties established about them. *)

From Stdlib Require Import ZArith String List Bool Lia Sorted.
From stdpp Require Import base option list gmap strings.

Local Open Scope Z_scope.
Set Warnings "-register-all".

(** ** JavaScript values stored as cache payloads

    [CacheType] is a type parameter of the hook and the entity stores [any];
    the hook tests payloads for truthiness ([cache && HMRUpdate],
    [tmpCache || genCache()]) and hands them out by identity.  Objects carry
    the reference they were allocated at; [===] on this fragment is Leibniz
    equality. *)
Module Js.

Inductive jsval : Type :=
| JUndefined
| JNull
| JBool (b : bool)
| JNum (n : Z)
| JStr (s : string)
| JObj (ref : nat).

Definition truthy (v : jsval) : bool :=
  match v with
  | JUndefined | JNull => false
  | JBool b => b
  | JNum n => negb (n =? 0)
  | JStr s => negb (String.eqb s "")
  | JObj _ => true
  end.

#[global] Instance jsval_eq_dec : EqDecision jsval.
Proof. solve_decision. Defined.

End Js.
Import Js.

(** ** Cache.ts: the entity and the world its callbacks run in *)
Module Entity.

(** [type ValueType = [number, any]] -- [times, realValue]. *)
Abbreviation ValueType := (Z * jsval)%type.

Definition SPLIT : string := "%".

(** [keys: CacheKeyType[] | string]. *)
Inductive KeysArg : Type :=
| KeyArr (keys : list string)
| KeyStr (key : string).

(** [Array.isArray(keys) ? keys.join(SPLIT) : keys]; [join] of the empty
    array is the empty string and puts no separator after the last segment. *)
Definition pathOf (keys : KeysArg) : string :=
  match keys with
  | KeyArr ks => String.concat SPLIT ks
  | KeyStr s => s
  end.

Record Entity : Type := mkEntity {
  instanceId : string;
  cache : gmap string ValueType
}.

Definition with_cache (e : Entity) (m : gmap string ValueType) : Entity :=
  {| instanceId := instanceId e; cache := m |}.

(** What the callbacks of the hook can be seen to do. [seen] is what
    [Entity.get] on the observed key answers while the callback runs. *)
Inductive event : Type :=
| EvGen (payload : jsval)
| EvRemove (payload : jsval) (fromHMR : bool) (seen : option ValueType).

(** The world of one style context: its entity, the allocator of the host
    and the observations made so far. *)
Record world : Type := mkWorld {
  styleCache : Entity;
  heapNext : nat;
  log : list event
}.

Definition set_cache (w : world) (m : gmap string ValueType) : world :=
  {| styleCache := with_cache (styleCache w) m; heapNext := heapNext w; log := log w |}.

Definition emit (e : event) (w : world) : world :=
  {| styleCache := styleCache w; heapNext := heapNext w; log := log w ++ [e] |}.

Definition alloc (w : world) : world :=
  {| styleCache := styleCache w; heapNext := S (heapNext w); log := log w |}.

(** Code that reads and writes the world: [valueFn], [genCache],
    [onCacheRemove] are closures of this kind. *)
Definition M (A : Type) : Type := world -> A * world.

Definition ret {A} (a : A) : M A := fun w => (a, w).
Definition bind {A B} (m : M A) (k : A -> M B) : M B :=
  fun w => let '(a, w') := m w in k a w'.
Definition exec {A} (m : M A) (w : world) : world := snd (m w).
Definition eval {A} (m : M A) (w : world) : A := fst (m w).

Declare Scope m_scope.
Delimit Scope m_scope with M.
Notation "'let*' x ':=' m 'in' k" := (bind m (fun x => k))
  (at level 10, x name, m at level 100, k at level 200) : m_scope.
Notation "m ';;' k" := (bind m (fun _ => k))
  (at level 100, k at level 200, right associativity) : m_scope.

(** [get(keys)]: [this.cache.get(path) || null]; a stored entry is an array,
    hence truthy, so [None] is exactly the absent key. *)
Definition get (keys : KeysArg) (e : Entity) : option ValueType :=
  cache e !! pathOf keys.

Definition getM (keys : KeysArg) : M (option ValueType) :=
  fun w => (get keys (styleCache w), w).

(** [update(keys, valueFn)]: the previous value is read, [valueFn] runs on
    it, and only then is the slot deleted ([null]) or overwritten. For a
    path without an entry [valueFn] is handed the [undefined] of [Map.get],
    where [get] answers [null]; either is [None], each in its own place, and
    the [valueFn]s of the hook take them alike ([prevCache || []]). *)
Definition update (keys : KeysArg)
    (valueFn : option ValueType -> M (option ValueType)) : M unit :=
  fun w =>
    let path := pathOf keys in
    let prevValue := cache (styleCache w) !! path in
    let '(nextValue, w') := valueFn prevValue w in
    match nextValue with
    | None => (tt, set_cache w' (delete path (cache (styleCache w'))))
    | Some v => (tt, set_cache w' (<[path := v]> (cache (styleCache w'))))
    end.

End Entity.
Import Entity.

(** ** hooks/useClientCache *)
Module ClientCache.

Local Open Scope m_scope.

Section Hook.

(** [process.env.NODE_ENV !== 'production'] and the value of [useHMR()]. *)
Variable development : bool.
Variable HMRUpdate : bool.
(** [genCache] and the optional [onCacheRemove]. *)
Variable genCache : M jsval.
Variable onCacheRemove : option (jsval -> bool -> M unit).

(** [const [times = 0, cache] = prevCache || []]. *)
Definition destructure (prevCache : option ValueType) : Z * jsval :=
  match prevCache with
  | Some (times, cache) => (times, cache)
  | None => (0, JUndefined)
  end.

(** [onCacheRemove?.(cache, fromHMR)]. *)
Definition callRemove (cache : jsval) (fromHMR : bool) : M unit :=
  match onCacheRemove with
  | Some f => f cache fromHMR
  | None => ret tt
  end.

Definition clearCache (cacheKeyCompleteness : string) : M unit :=
  update (KeyStr cacheKeyCompleteness) (fun prevCache =>
    let '(times, cache) := destructure prevCache in
    let nextCount := times - 1 in
    if nextCount =? 0 then
      callRemove cache false ;; ret None
    else ret (Some (times - 1, cache))).

(** The [update] of the watcher on the new key. *)
Definition acquireEntry (newStr : string) : M unit :=
  update (KeyStr newStr) (fun prevCache =>
    let '(times, cache) := destructure prevCache in
    let* tmpCache :=
      (if development && truthy cache && HMRUpdate then
         callRemove cache HMRUpdate ;; ret JNull
       else ret cache) in
    let* mergedCache := (if truthy tmpCache then ret tmpCache else genCache) in
    ret (Some (times + 1, mergedCache))).

(** [cacheKey.value = cache.get(key)![1]]; [None] stands for the [TypeError]
    of indexing [null], which [acquire_exposes] shows cannot happen here. *)
Definition acquire (newStr : string) : M (option jsval) :=
  acquireEntry newStr ;;
  let* entry := getM (KeyStr newStr) in
  ret (snd <$> entry).

(** The watcher: [(newStr, oldStr) => { if (oldStr) clearCache(oldStr); ... }];
    [oldStr] is [undefined] on the immediate first run. *)
Definition watcher (newStr : string) (oldStr : option string) : M (option jsval) :=
  (match oldStr with
   | Some old => if negb (String.eqb old "") then clearCache old else ret tt
   | None => ret tt
   end) ;;
  acquire newStr.

(** [cacheKeyCompleteness.value = [prefix, ...cacheKeyArr.value].join('%')]. *)
Definition completeKey (prefix : string) (cacheKeyArr : list string) : string :=
  String.concat "%" (prefix :: cacheKeyArr).

(** [onBeforeUnmount(() => clearCache(cacheKeyCompleteness.value))]. *)
Definition unmount (current : string) : M unit := clearCache current.

End Hook.

(** [n] runs of the same action, one after the other. *)
Fixpoint nTimes {A} (n : nat) (m : M A) : M unit :=
  match n with
  | O => ret tt
  | S n' => m ;; nTimes n' m
  end.

(** *** Callbacks used to observe the hook *)

(** A factory whose result may depend on everything it can see; its call is
    recorded and counted by the allocator. *)
Definition factoryOf (g : world -> jsval) : M jsval :=
  fun w => (g w, emit (EvGen (g w)) (alloc w)).

(** [() => ({ ... })]: a new object on every call. *)
Definition freshFactory : M jsval := factoryOf (fun w => JObj (heapNext w)).

(** [() => v]: the same value on every call. *)
Definition constFactory (v : jsval) : M jsval := factoryOf (fun _ => v).

(** A disposal callback that records its arguments and what
    [cache.get(key)] answers at the moment it runs. *)
Definition probe (key : string) : jsval -> bool -> M unit :=
  fun payload fromHMR w =>
    (tt, emit (EvRemove payload fromHMR (get (KeyStr key) (styleCache w))) w).

(** A style context whose entity holds nothing yet. *)
Definition emptyWorld : world :=
  {| styleCache := {| instanceId := "css"; cache := ∅ |}; heapNext := 0; log := [] |}.

(** The world in which the entity holds exactly [key := entry]. *)
Definition worldWith (key : string) (entry : ValueType) : world :=
  set_cache emptyWorld {[ key := entry ]}.

Definition isGen (e : event) : bool :=
  match e with EvGen _ => true | EvRemove _ _ _ => false end.

Definition isRemove (fromHMR : bool) (e : event) : bool :=
  match e with EvGen _ => false | EvRemove _ b _ => Bool.eqb b fromHMR end.

(** What an acquisition may be seen to do: call the factory, or, when the
    hot-reload override is on, dispose with the flag set. *)
Definition acquireEvent (development HMRUpdate : bool) (e : event) : bool :=
  match e with
  | EvGen _ => true
  | EvRemove _ fromHMR _ => fromHMR && development && HMRUpdate
  end.

(** Number of factory calls, and of disposal calls with a given flag. *)
Definition genCount (evs : list event) : nat := length (List.filter isGen evs).
Definition removeCount (fromHMR : bool) (evs : list event) : nat :=
  length (List.filter (isRemove fromHMR) evs).

(** "Removal precedes disposal": whenever the release of [key] runs the
    disposal callback, [get] on [key] already answers absent. *)
Definition disposalSeesAbsent (key : string) (w : world) : Prop :=
  forall payload fromHMR seen,
    In (EvRemove payload fromHMR seen)
       (log (exec (clearCache (Some (probe key)) key) w)) ->
    seen = None.

(** Object payloads are known to the allocator and no two keys hold the
    same one. *)
Definition payloadsApart (w : world) : Prop :=
  (forall k n r, cache (styleCache w) !! k = Some (n, JObj r) -> (r < heapNext w)%nat) /\
  (forall k1 k2 n1 n2 r,
     cache (styleCache w) !! k1 = Some (n1, JObj r) ->
     cache (styleCache w) !! k2 = Some (n2, JObj r) -> k1 = k2).

(** What consumers of one style context do to it: acquire or release some
    key, the payloads being allocated by [freshFactory]. *)
Inductive hookStep (development HMRUpdate : bool) : world -> world -> Prop :=
| StepAcquire key rm w :
    hookStep development HMRUpdate w
      (exec (acquire development HMRUpdate freshFactory (probe <$> rm) key) w)
| StepRelease key rm w :
    hookStep development HMRUpdate w (exec (clearCache (probe <$> rm) key) w).

(** The events a run adds to the log. *)
Definition runEvents (m : M unit) (w : world) : list event :=
  drop (length (log w)) (log (exec m w)).

(** [N] acquisitions of [key] followed by [N] releases, the callbacks
    observed. *)
Definition balancedRun (development HMRUpdate : bool) (g : world -> jsval)
    (key : string) (N : nat) : M unit :=
  nTimes N (acquire development HMRUpdate (factoryOf g) (Some (probe key)) key) ;;
  nTimes N (clearCache (Some (probe key)) key).

(** Over that run the disposal callback is called exactly once, and with
    [forcedByHotReload = false]. *)
Definition disposedExactlyOnce (development HMRUpdate : bool) (g : world -> jsval)
    (key : string) (N : nat) (w : world) : Prop :=
  exists payload seen,
    List.filter (fun e => negb (isGen e))
      (runEvents (balancedRun development HMRUpdate g key N) w)
    = [EvRemove payload false seen].

End ClientCache.

(** ** theme/ThemeCache *)
Module ThemeCache.

(** Derivative functions and themes are compared by identity only. *)
Definition DerivativeFunc : Type := nat.
Definition DerivativeOptions : Type := list DerivativeFunc.
Definition Theme : Type := nat.

(** [{ map?: ThemeCacheMap; value?: [Theme, number] }]. *)
Inductive node : Type :=
| Node (map : option (list (DerivativeFunc * node))) (value : option (Theme * Z)).

(** A JavaScript [Map], kept in insertion order, one binding per key
    ([map_set] and [map_delete] keep it so, see [map_set_one_binding]). *)
Definition ThemeCacheMap : Type := list (DerivativeFunc * node).

Fixpoint map_get (m : ThemeCacheMap) (k : DerivativeFunc) : option node :=
  match m with
  | [] => None
  | (k', n) :: rest => if Nat.eqb k' k then Some n else map_get rest k
  end.

Fixpoint map_set (m : ThemeCacheMap) (k : DerivativeFunc) (n : node) : ThemeCacheMap :=
  match m with
  | [] => [(k, n)]
  | (k', n') :: rest =>
      if Nat.eqb k' k then (k, n) :: rest else (k', n') :: map_set rest k n
  end.

Fixpoint map_delete (m : ThemeCacheMap) (k : DerivativeFunc) : ThemeCacheMap :=
  match m with
  | [] => []
  | (k', n') :: rest =>
      if Nat.eqb k' k then map_delete rest k else (k', n') :: map_delete rest k
  end.

Definition map_size (m : ThemeCacheMap) : nat := length m.

Definition sameDerivativeOption (left right : DerivativeOptions) : bool :=
  if negb (Nat.eqb (length left) (length right)) then false
  else forallb (fun '(l, r) => Nat.eqb l r) (combine left right).

Record ThemeCache : Type := mkThemeCache {
  cache : ThemeCacheMap;
  keys : list DerivativeOptions;
  cacheCallTimes : Z
}.

(** [constructor()]. *)
Definition new : ThemeCache :=
  {| cache := []; keys := []; cacheCallTimes := 0 |}.

Definition size (s : ThemeCache) : Z := Z.of_nat (length (keys s)).

(** One round of the [forEach] of [internalGet]:
    [cache = cache?.map?.get(derivative)]. *)
Definition descend (cache : option node) (derivative : DerivativeFunc) : option node :=
  match cache with
  | Some (Node (Some m) _) => map_get m derivative
  | _ => None
  end.

Definition find (root : ThemeCacheMap) (derivativeOption : DerivativeOptions) : option node :=
  fold_left descend derivativeOption (Some (Node (Some root) None)).

(** [cache.value[1] = stamp] on the node at the end of the path, written
    through the maps that hold it. *)
Fixpoint restamp (m : ThemeCacheMap) (path : DerivativeOptions) (stamp : Z) : ThemeCacheMap :=
  match path with
  | [] => m
  | d :: rest =>
      match map_get m d with
      | None => m
      | Some (Node sub v) =>
          match rest with
          | [] =>
              match v with
              | Some (theme, _) => map_set m d (Node sub (Some (theme, stamp)))
              | None => m
              end
          | _ :: _ =>
              match sub with
              | Some m' => map_set m d (Node (Some (restamp m' rest stamp)) v)
              | None => m
              end
          end
      end
  end.

Definition internalGet (s : ThemeCache) (derivativeOption : DerivativeOptions)
    (updateCallTimes : bool) : option (Theme * Z) * ThemeCache :=
  match find (cache s) derivativeOption with
  | Some (Node _ (Some (theme, stamp))) =>
      if updateCallTimes then
        (Some (theme, cacheCallTimes s),
         {| cache := restamp (cache s) derivativeOption (cacheCallTimes s);
            keys := keys s;
            cacheCallTimes := cacheCallTimes s + 1 |})
      else (Some (theme, stamp), s)
  | _ => (None, s)
  end.

(** [get]: [this.internalGet(derivativeOption, true)?.[0]]. *)
Definition get (s : ThemeCache) (derivativeOption : DerivativeOptions)
    : option Theme * ThemeCache :=
  let '(r, s') := internalGet s derivativeOption true in (fst <$> r, s').

(** [has]: [!!this.internalGet(derivativeOption)], with the state it leaves. *)
Definition hasM (s : ThemeCache) (derivativeOption : DerivativeOptions)
    : bool * ThemeCache :=
  let '(r, s') := internalGet s derivativeOption false in (bool_decide (is_Some r), s').

Definition has (s : ThemeCache) (derivativeOption : DerivativeOptions) : bool :=
  fst (hasM s derivativeOption).

(** [deleteByPath]; [None] is the [TypeError] of reading [.map] of
    [undefined]. The map of the node on the path is the one the recursive
    call has changed in place. *)
Fixpoint deleteByPath (currentCache : ThemeCacheMap) (derivatives : DerivativeOptions)
    : option (option Theme * ThemeCacheMap) :=
  match derivatives with
  | [] => None
  | d :: rest =>
      match map_get currentCache d with
      | None => None
      | Some (Node sub v) =>
          match rest with
          | [] =>
              Some (fst <$> v,
                    match sub with
                    | None => map_delete currentCache d
                    | Some m' => map_set currentCache d (Node (Some m') None)
                    end)
          | _ :: _ =>
              match sub with
              | None => None
              | Some m' =>
                  match deleteByPath m' rest with
                  | None => None
                  | Some (result, m'') =>
                      Some (result,
                            if Nat.eqb (map_size m'') 0 && negb (bool_decide (is_Some v))
                            then map_delete currentCache d
                            else map_set currentCache d (Node (Some m'') v))
                  end
              end
          end
      end
  end.

(** [delete]; [None] when [deleteByPath] throws, which it does not on a
    stored sequence ([deleteByPath_total]). *)
Definition delete (s : ThemeCache) (derivativeOption : DerivativeOptions)
    : option (option Theme * ThemeCache) :=
  if has s derivativeOption then
    let keys' :=
      List.filter (fun item => negb (sameDerivativeOption item derivativeOption)) (keys s) in
    match deleteByPath (cache s) derivativeOption with
    | None => None
    | Some (result, c') =>
        Some (result, {| cache := c'; keys := keys'; cacheCallTimes := cacheCallTimes s |})
    end
  else Some (None, s).

(** The [reduce] of [set]: the accumulator starts at
    [[this.keys[0], this.cacheCallTimes]]; [this.internalGet(key)![1]] throws
    when the key has no leaf. *)
Definition reduceStep (s : ThemeCache)
    (result : option (option DerivativeOptions * Z)) (key : DerivativeOptions)
    : option (option DerivativeOptions * Z) :=
  match result with
  | None => None
  | Some (target, callTimes) =>
      match fst (internalGet s key false) with
      | None => None
      | Some (_, stamp) =>
          if stamp <? callTimes then Some (Some key, stamp) else Some (target, callTimes)
      end
  end.

Definition evictionTarget (s : ThemeCache) : option (option DerivativeOptions * Z) :=
  fold_left (reduceStep s) (keys s) (Some (head (keys s), cacheCallTimes s)).

(** The second [forEach] of [set]: the last position overwrites the node
    with [{ value: [value, stamp] }], the others create or complete the
    intermediate node and step into its map. *)
Fixpoint store (m : ThemeCacheMap) (path : DerivativeOptions) (value : Theme) (stamp : Z)
    : ThemeCacheMap :=
  match path with
  | [] => m
  | d :: rest =>
      match rest with
      | [] => map_set m d (Node None (Some (value, stamp)))
      | _ :: _ =>
          match map_get m d with
          | None => map_set m d (Node (Some (store [] rest value stamp)) None)
          | Some (Node None v) => map_set m d (Node (Some (store [] rest value stamp)) v)
          | Some (Node (Some m') v) => map_set m d (Node (Some (store m' rest value stamp)) v)
          end
      end
  end.

Section Limits.

(** The two public static fields. *)
Variable MAX_CACHE_SIZE : Z.
Variable MAX_CACHE_OFFSET : Z.

(** The capacity check of [set] for a sequence that is not stored;
    [this.delete(undefined)] throws. *)
Definition makeRoom (s : ThemeCache) : option ThemeCache :=
  if size s + 1 >? MAX_CACHE_SIZE + MAX_CACHE_OFFSET then
    match evictionTarget s with
    | None => None
    | Some (None, _) => None
    | Some (Some targetKey, _) => snd <$> delete s targetKey
    end
  else Some s.

Definition register (s : ThemeCache) (derivativeOption : DerivativeOptions)
    : option ThemeCache :=
  if has s derivativeOption then Some s
  else
    match makeRoom s with
    | None => None
    | Some s1 =>
        Some {| cache := cache s1;
                keys := keys s1 ++ [derivativeOption];
                cacheCallTimes := cacheCallTimes s1 |}
    end.

(** [set]; [None] when the call throws. [cacheCallTimes++] runs at the last
    position only, so not at all for the empty sequence. *)
Definition set (s : ThemeCache) (derivativeOption : DerivativeOptions) (value : Theme)
    : option ThemeCache :=
  match register s derivativeOption with
  | None => None
  | Some s2 =>
      Some {| cache := store (cache s2) derivativeOption value (cacheCallTimes s2);
              keys := keys s2;
              cacheCallTimes :=
                match derivativeOption with
                | [] => cacheCallTimes s2
                | _ :: _ => cacheCallTimes s2 + 1
                end |}
  end.

(** The public calls of the class. *)
Inductive call : Type :=
| Has (derivativeOption : DerivativeOptions)
| Get (derivativeOption : DerivativeOptions)
| Set_ (derivativeOption : DerivativeOptions) (value : Theme)
| Delete (derivativeOption : DerivativeOptions).

Definition step (s : ThemeCache) (c : call) : option ThemeCache :=
  match c with
  | Has o => Some (snd (hasM s o))
  | Get o => Some (snd (get s o))
  | Set_ o v => set s o v
  | Delete o => snd <$> delete s o
  end.

(** The instance after a series of calls; [None] once a call has thrown. *)
Fixpoint run (s : ThemeCache) (cs : list call) : option ThemeCache :=
  match cs with
  | [] => Some s
  | c :: rest =>
      match step s c with
      | None => None
      | Some s' => run s' rest
      end
  end.

End Limits.

(** *** What is measured on an instance *)

(** Nodes that hold a value, below a node. *)
Fixpoint leaves (n : node) : nat :=
  match n with
  | Node sub v =>
      (match v with Some _ => 1 | None => 0 end) +
      match sub with
      | None => 0
      | Some m =>
          (fix below (m : list (DerivativeFunc * node)) : nat :=
             match m with
             | [] => 0
             | (_, c) :: rest => leaves c + below rest
             end) m
      end
  end%nat.

Definition leavesOf (m : ThemeCacheMap) : nat := leaves (Node (Some m) None).

(** A node holds something: a leaf, or at least one child. *)
Definition holdsSomething (n : node) : bool :=
  match n with
  | Node sub v =>
      bool_decide (is_Some v) ||
      match sub with Some (_ :: _) => true | _ => false end
  end.

(** Every node below (and including) [n] holds something. *)
Fixpoint noEmptyNode (n : node) : bool :=
  holdsSomething n &&
  match n with
  | Node sub _ =>
      match sub with
      | None => true
      | Some m =>
          (fix below (m : list (DerivativeFunc * node)) : bool :=
             match m with
             | [] => true
             | (_, c) :: rest => noEmptyNode c && below rest
             end) m
      end
  end.

(** Every node reachable from the root map holds something. *)
Definition noEmptyNodeIn (m : ThemeCacheMap) : bool :=
  forallb (fun '(_, c) => noEmptyNode c) m.

(** The registry and the trie agree on how many sequences are stored. *)
Definition registryMatchesLeaves (s : ThemeCache) : Prop :=
  length (keys s) = leavesOf (cache s).

(** The leaf at the end of a path, if there is one. *)
Definition leafAt (m : ThemeCacheMap) (path : DerivativeOptions) : option (Theme * Z) :=
  match find m path with
  | Some (Node _ v) => v
  | None => None
  end.

(** Every stamp in the trie was handed out before: it is below the counter. *)
Definition stampsBelow (s : ThemeCache) : Prop :=
  forall o theme t, leafAt (cache s) o = Some (theme, t) -> t < cacheCallTimes s.

(** No two leaves carry the same stamp. *)
Definition stampsApart (s : ThemeCache) : Prop :=
  forall o1 o2 theme1 theme2 t,
    leafAt (cache s) o1 = Some (theme1, t) ->
    leafAt (cache s) o2 = Some (theme2, t) -> o1 = o2.

(** The leaf at a path below a node. *)
Definition leafBelow (n : node) (o : DerivativeOptions) : option (Theme * Z) :=
  match n, o with
  | Node _ v, [] => v
  | Node (Some m) _, _ :: _ => leafAt m o
  | Node None _, _ :: _ => None
  end.

(** The sequences used with one instance: none is empty, none is the
    beginning of another. *)
Definition prefixFree (P : DerivativeOptions -> Prop) : Prop :=
  ~ P [] /\ forall a b, P a -> P b -> a `prefix_of` b -> a = b.

Definition callArg (c : call) : DerivativeOptions :=
  match c with Has o | Get o | Set_ o _ | Delete o => o end.

(** A node is a bare leaf, or an inner node without a value whose map is
    not empty, binds each key once and holds such nodes only. *)
Fixpoint tidy (n : node) : Prop :=
  match n with
  | Node None (Some _) => True
  | Node (Some m) None =>
      m <> [] /\ List.NoDup (List.map fst m) /\
      (fix all (m : list (DerivativeFunc * node)) : Prop :=
         match m with
         | [] => True
         | (_, c) :: rest => tidy c /\ all rest
         end) m
  | _ => False
  end.

Definition tidyMap (m : ThemeCacheMap) : Prop :=
  List.NoDup (List.map fst m) /\ Forall (fun '(_, c) => tidy c) m.

(** The paths of the leaves below a node, in the order of the maps. *)
Fixpoint pathsOf (n : node) : list DerivativeOptions :=
  match n with
  | Node sub v =>
      match v with Some _ => [[]] | None => [] end ++
      match sub with
      | None => []
      | Some m =>
          (fix below (m : list (DerivativeFunc * node)) : list DerivativeOptions :=
             match m with
             | [] => []
             | (d, c) :: rest => List.map (cons d) (pathsOf c) ++ below rest
             end) m
      end
  end.

Definition pathsIn (m : ThemeCacheMap) : list DerivativeOptions :=
  pathsOf (Node (Some m) None).

(** The registry lists, once each, exactly the sequences that have a leaf,
    all of them among the sequences in use, and the trie is tidy. *)
Definition consistent (P : DerivativeOptions -> Prop) (s : ThemeCache) : Prop :=
  tidyMap (cache s) /\
  List.NoDup (keys s) /\
  (forall o, In o (keys s) <-> is_Some (leafAt (cache s) o)) /\
  (forall o, In o (keys s) -> P o).

(** The stamp of the leaf at the end of a path, if there is one. *)
Definition stampAt (s : ThemeCache) (derivativeOption : DerivativeOptions) : option Z :=
  snd <$> fst (internalGet s derivativeOption false).

(** The stamps written by a series of calls, oldest first, each read back
    from the leaf the call has just touched: [get] touches when the
    sequence is stored, [set] whenever it writes a leaf. *)
Fixpoint issued (maxSize maxOffset : Z) (s : ThemeCache) (cs : list call) : list Z :=
  match cs with
  | [] => []
  | c :: rest =>
      match step maxSize maxOffset s c with
      | None => []
      | Some s' =>
          match c with
          | Get o => if has s o then option_list (stampAt s' o) else []
          | Set_ o _ => option_list (stampAt s' o)
          | Has _ | Delete _ => []
          end ++ issued maxSize maxOffset s' rest
      end
  end.

(** [set] of each sequence in turn, the theme of the [i]-th one being [i]. *)
Definition inserts (from : nat) (os : list DerivativeOptions) : list call :=
  imap (fun i o => Set_ o (from + i)%nat) os.

(** Twenty-six distinct sequences: [[0; 1]], [[0]], [[2]], ..., [[25]]. *)
Definition twentySix : list DerivativeOptions :=
  [0; 1]%nat :: [0]%nat :: List.map (fun i => [i]) (seq 2 24).

End ThemeCache.

(** ** Uses of useClientCache by the consumers of one style context *)
Module ClientCacheUse.
Import Strings.Ascii ClientCache.

(** A callback that leaves the entity of the style context alone. *)
Definition quiet {A} (m : M A) : Prop :=
  forall w, styleCache (exec m w) = styleCache w.

Definition quietRemove (onCacheRemove : option (jsval -> bool -> M unit)) : Prop :=
  forall f payload fromHMR, onCacheRemove = Some f -> quiet (f payload fromHMR).

(** Every count in the map is at least 1. *)
Definition countsPositive (w : world) : Prop :=
  forall key n p, cache (styleCache w) !! key = Some (n, p) -> 1 <= n.

(** Consumers that keep to the protocol: any key may be acquired, a key is
    released only while it has an entry. *)
Inductive usage (development HMRUpdate : bool) (genCache : M jsval)
    (onCacheRemove : option (jsval -> bool -> M unit)) : world -> world -> Prop :=
| UseAcquire key w :
    usage development HMRUpdate genCache onCacheRemove w
      (exec (acquire development HMRUpdate genCache onCacheRemove key) w)
| UseRelease key entry w :
    cache (styleCache w) !! key = Some entry ->
    usage development HMRUpdate genCache onCacheRemove w
      (exec (clearCache onCacheRemove key) w).

(** No ['%'] in a segment. *)
Fixpoint noSplit (s : string) : bool :=
  match s with
  | EmptyString => true
  | String c rest => negb (Strings.Ascii.eqb c "%"%char) && noSplit rest
  end.

End ClientCacheUse.

(** ** theme/createTheme *)
Module CreateTheme.
Import ThemeCache.

(** [derivatives: DerivativeFunc[] | DerivativeFunc]. *)
Inductive Derivatives : Type :=
| Single (derivative : DerivativeFunc)
| Several (derivatives : DerivativeOptions).

(** [Array.isArray(derivatives) ? derivatives : [derivatives]]. *)
Definition derivativeArr (derivatives : Derivatives) : DerivativeOptions :=
  match derivatives with
  | Single f => [f]
  | Several fs => fs
  end.

(** The module: [cacheThemes] and the [Theme] objects made so far. The
    class [Theme] is not among the sources; [new Theme(derivativeArr)] is
    taken to return a new object that keeps the array it was given, so the
    [n]-th object made is known by [n] and by that array. *)
Record themes : Type := mkThemes {
  cacheThemes : ThemeCache;
  made : list DerivativeOptions
}.

(** [const cacheThemes = new ThemeCache()]. *)
Definition initial : themes := {| cacheThemes := new; made := [] |}.

Section Limits.
Variables MAX_CACHE_SIZE MAX_CACHE_OFFSET : Z.

(** [createTheme]; [None] when [set] throws. The result is what
    [cacheThemes.get(derivativeArr)!] evaluates to, [undefined] included. *)
Definition createTheme (derivatives : Derivatives) (w : themes)
    : option (option Theme * themes) :=
  let derivativeArr := derivativeArr derivatives in
  let '(stored, c0) := hasM (cacheThemes w) derivativeArr in
  match
    (if stored then Some (c0, made w)
     else
       let theme := length (made w) in
       match set MAX_CACHE_SIZE MAX_CACHE_OFFSET c0 derivativeArr theme with
       | None => None
       | Some c1 => Some (c1, made w ++ [derivativeArr])
       end)
  with
  | None => None
  | Some (c1, made1) =>
      let '(result, c2) := get c1 derivativeArr in
      Some (result, {| cacheThemes := c2; made := made1 |})
  end.

(** Calls one after the other, with what each returned; [None] once one
    has thrown. *)
Fixpoint createThemes (ds : list Derivatives) (w : themes)
    : option (list (option Theme) * themes) :=
  match ds with
  | [] => Some ([], w)
  | d :: rest =>
      match createTheme d w with
      | None => None
      | Some (r, w1) =>
          match createThemes rest w1 with
          | None => None
          | Some (rs, w2) => Some (r :: rs, w2)
          end
      end
  end.

End Limits.

(** Every theme in the trie was made for the sequence it is stored at. *)
Definition themesTraced (w : themes) : Prop :=
  forall o theme stamp,
    leafAt (cache (cacheThemes w)) o = Some (theme, stamp) -> made w !! theme = Some o.

End CreateTheme.

(** ** StyleContext: where the entity of a style context comes from *)
Module StyleContext.

(** Entities, containers, transformers and linters are objects, known by
    identity. *)
Definition CacheEntity : Type := nat.

Inductive HashPriority : Type := Low | High.
Inductive Mock : Type := Server | Client.

(** [Partial<StyleContextProps>]: every field may be [undefined]. *)
Record StyleContextProps : Type := mkStyleContextProps {
  autoClear : option bool;
  mock : option Mock;
  cache : option CacheEntity;
  defaultCache : option bool;
  hashPriority : option HashPriority;
  container : option nat;
  ssrInline : option bool;
  transformers : option (list nat);
  linters : option (list nat)
}.

(** What [getCurrentInstance()] answers: [null], an instance without
    [appContext], or an instance of the application at hand. *)
Inductive instance : Type := NoInstance | NoAppContext | InApp.

(** [appContext.config] of that application: missing, without
    [globalProperties], or with them and their [__ANTDV_CSSINJS_CACHE__]. *)
Inductive globals : Type :=
| NoConfig
| NoGlobalProperties
| Globals (ANTDV_CSSINJS_CACHE : option CacheEntity).

Section Host.

(** [createCache] reads and writes the document and [Math.random], here
    [Host], and returns a new entity; nothing more is assumed of it. *)
Variable Host : Type.
Variable createCache : Host -> CacheEntity * Host.

(** [defaultStyleContext.cache], created when the module is loaded. *)
Variable defaultEntity : CacheEntity.

Record env : Type := mkEnv {
  host : Host;
  app : globals
}.

(** [getAppContextStyleCache]; [None] is the [TypeError] of reading
    [globalProperties] of a missing [config]. *)
Definition getAppContextStyleCache (i : instance) (e : env) : option (CacheEntity * env) :=
  match i with
  | InApp =>
      match app e with
      | Globals (Some globalCache) => Some (globalCache, e)
      | Globals None =>
          let '(cache, h) := createCache (host e) in
          Some (cache, {| host := h; app := Globals (Some cache) |})
      | NoGlobalProperties =>
          let '(cache, h) := createCache (host e) in
          Some (cache, {| host := h; app := NoGlobalProperties |})
      | NoConfig => None
      end
  | NoInstance | NoAppContext =>
      let '(cache, h) := createCache (host e) in
      Some (cache, {| host := h; app := app e |})
  end.

Definition defaultStyleContext : StyleContextProps :=
  {| autoClear := None; mock := None; cache := Some defaultEntity;
     defaultCache := Some true; hashPriority := Some Low; container := None;
     ssrInline := None; transformers := None; linters := None |}.

(** [useStyleInject], called in the [setup] of a component of the
    application ([InApp]): Vue's [inject] answers there what a provider
    further up has given under [StyleContextKey] -- [provided] --, or else
    its default; the value of the returned reference. Elsewhere [inject]
    answers no context: [None], as for the [TypeError]. *)
Definition useStyleInject (provided : option StyleContextProps) (i : instance) (e : env)
    : option (StyleContextProps * env) :=
  match i with
  | InApp =>
      match getAppContextStyleCache InApp e with
      | None => None
      | Some (appContextStyleCache, e') =>
          Some (match provided with
                | Some context => context
                | None =>
                    {| autoClear := autoClear defaultStyleContext;
                       mock := mock defaultStyleContext;
                       cache := Some appContextStyleCache;
                       defaultCache := defaultCache defaultStyleContext;
                       hashPriority := hashPriority defaultStyleContext;
                       container := container defaultStyleContext;
                       ssrInline := ssrInline defaultStyleContext;
                       transformers := transformers defaultStyleContext;
                       linters := linters defaultStyleContext |}
                end, e')
      end
  | NoInstance | NoAppContext => None
  end.

(** [if (value !== undefined) mergedContext[key] = value], on a copy of
    the parent's context. *)
Definition override {A} (own inherited : option A) : option A :=
  match own with
  | Some value => Some value
  | None => inherited
  end.

(** The callback of the watcher of [useStyleProvider]: the context made of
    the props and the parent's context. *)
Definition mergeContext (propsValue parent : StyleContextProps) (h : Host)
    : StyleContextProps * Host :=
  let mergedCache := override (cache propsValue) (cache parent) in
  let '(cache', h') :=
    match mergedCache with
    | Some c => (c, h)
    | None => createCache h
    end in
  ({| autoClear := override (autoClear propsValue) (autoClear parent);
      mock := override (mock propsValue) (mock parent);
      cache := Some cache';
      defaultCache :=
        match cache propsValue with
        | Some _ => Some false
        | None => defaultCache parent
        end;
      hashPriority := override (hashPriority propsValue) (hashPriority parent);
      container := override (container propsValue) (container parent);
      ssrInline := override (ssrInline propsValue) (ssrInline parent);
      transformers := override (transformers propsValue) (transformers parent);
      linters := override (linters propsValue) (linters parent) |}, h').

(** [useStyleProvider], up to the end of its [setup]: the parent's context
    is injected, an entity is made for the first value of the reference, and
    the watcher, run at once ([immediate: true]), puts the merged context in
    its place. The value of the reference provided and returned. *)
Definition useStyleProvider (propsValue : StyleContextProps)
    (provided : option StyleContextProps) (i : instance) (e : env)
    : option (StyleContextProps * env) :=
  match useStyleInject provided i e with
  | None => None
  | Some (parentContext, e1) =>
      let '(_, h) := createCache (host e1) in
      let '(mergedContext, h') := mergeContext propsValue parentContext h in
      Some (mergedContext, {| host := h'; app := app e1 |})
  end.

End Host.

Arguments mkEnv {Host} _ _.
Arguments host {Host} _.
Arguments app {Host} _.

(** A host that counts the entities made, for examples. *)
Definition countingCreateCache (h : nat) : CacheEntity * nat := (h, S h).

End StyleContext.

(** * Properties *)

(** ** Cache Entity *)
Module EntityFacts.

(** [update] with a function that only computes: the slot of the path is
    the one written. *)
Lemma update_pure keys v w :
  get keys (styleCache (exec (update keys (fun _ => ret (Some v))) w)) = Some v.
Proof. unfold exec, update, ret. simpl. unfold get. simpl. apply lookup_insert_eq. Qed.

(** C9: a list of segments and the string obtained by joining them with
    ['%'] address the same slot: [get] answers the same, [update] is the
    same change of the world, and what [update] writes under the list is read
    back under the joined string. So two lists with the same join share one
    entry, as do the different lists [["a%b"]] and [["a"; "b"]]. *)
Theorem joined_key_same_slot :
  (forall ks e, get (KeyArr ks) e = get (KeyStr (String.concat "%" ks)) e) /\
  (forall ks valueFn w,
     update (KeyArr ks) valueFn w = update (KeyStr (String.concat "%" ks)) valueFn w) /\
  (forall ks v w,
     get (KeyStr (String.concat "%" ks))
       (styleCache (exec (update (KeyArr ks) (fun _ => ret (Some v))) w)) = Some v) /\
  (forall ks1 ks2,
     String.concat "%" ks1 = String.concat "%" ks2 ->
     (forall e, get (KeyArr ks1) e = get (KeyArr ks2) e) /\
     (forall valueFn w, update (KeyArr ks1) valueFn w = update (KeyArr ks2) valueFn w) /\
     (forall v w,
        get (KeyArr ks2)
          (styleCache (exec (update (KeyArr ks1) (fun _ => ret (Some v))) w)) = Some v)) /\
  (["a%b"] <> ["a"; "b"] /\ String.concat "%" ["a%b"] = String.concat "%" ["a"; "b"]).
Proof.
  split; [done|]. split; [done|].
  split; [intros ks v w; apply (update_pure (KeyArr ks))|].
  split; [|done].
  intros ks1 ks2 Hjoin. split; [|split].
  - intros e. unfold get. simpl. unfold SPLIT. by rewrite Hjoin.
  - intros valueFn w. unfold update. simpl. unfold SPLIT. by rewrite Hjoin.
  - intros v w. unfold get at 1. cbn [pathOf]. unfold SPLIT. rewrite <- Hjoin.
    exact (update_pure (KeyArr ks1) v w).
Qed.

End EntityFacts.

(** ** useClientCache *)
Module ClientCacheFacts.
Import ClientCache.

Local Open Scope m_scope.

Lemma exec_bind {A B} (m : M A) (k : A -> M B) w :
  exec (bind m k) w = exec (k (eval m w)) (exec m w).
Proof. unfold exec, eval, bind. by destruct (m w). Qed.

Lemma exec_times_S {A} n (m : M A) w :
  exec (nTimes (S n) m) w = exec (nTimes n m) (exec m w).
Proof. simpl. by rewrite exec_bind. Qed.

Lemma exec_times_snoc {A} n (m : M A) : forall w,
  exec (nTimes (S n) m) w = exec m (exec (nTimes n m) w).
Proof.
  induction n as [|n IH]; intros w.
  - by rewrite exec_times_S.
  - rewrite exec_times_S, IH. by rewrite <- exec_times_S.
Qed.

(** The immediate first run of the watcher is an acquisition; a later run
    releases the previous key completely, disposal included, before it
    acquires the new one. *)
Lemma watcher_immediate development HMRUpdate genCache onCacheRemove newStr w :
  watcher development HMRUpdate genCache onCacheRemove newStr None w
    = acquire development HMRUpdate genCache onCacheRemove newStr w.
Proof. reflexivity. Qed.

Lemma watcher_change development HMRUpdate genCache onCacheRemove newStr oldStr w :
  oldStr <> "" ->
  watcher development HMRUpdate genCache onCacheRemove newStr (Some oldStr) w
    = acquire development HMRUpdate genCache onCacheRemove newStr
        (exec (clearCache onCacheRemove oldStr) w).
Proof.
  intros Hne. unfold watcher, bind, exec.
  destruct (String.eqb_spec oldStr ""); [done|]. simpl.
  by destruct (clearCache onCacheRemove oldStr w).
Qed.

(** *** Release *)

Section Release.
Variable onCacheRemove : option (jsval -> bool -> M unit).

(** The release that finds the count at 1: the callback runs on the world
    as it is, the entry still stored, and the slot is deleted afterwards. *)
Lemma clearCache_last key w p :
  cache (styleCache w) !! key = Some (1, p) ->
  clearCache onCacheRemove key w =
    let w' := exec (callRemove onCacheRemove p false) w in
    (tt, set_cache w' (delete key (cache (styleCache w')))).
Proof.
  intros H. unfold clearCache, update, exec. simpl. rewrite H. simpl.
  unfold bind. by destruct (callRemove onCacheRemove p false w).
Qed.

Lemma clearCache_decrement key w n p :
  cache (styleCache w) !! key = Some (n, p) -> n <> 1 ->
  clearCache onCacheRemove key w =
    (tt, set_cache w (<[key := (n - 1, p)]> (cache (styleCache w)))).
Proof.
  intros H Hn. unfold clearCache, update. simpl. rewrite H. simpl.
  destruct (n - 1 =? 0) eqn:E; [lia | done].
Qed.

Lemma clearCache_absent key w :
  cache (styleCache w) !! key = None ->
  clearCache onCacheRemove key w =
    (tt, set_cache w (<[key := (-1, JUndefined)]> (cache (styleCache w)))).
Proof. intros H. unfold clearCache, update. simpl. by rewrite H. Qed.

End Release.

(** C10: releasing a key that has no entry neither leaves the map as it was
    nor calls the disposal callback, whatever that callback is: the world
    changes in one place only, the entry [[-1, undefined]] now stored under
    the key. *)
Theorem release_of_absent_key onCacheRemove key w :
  cache (styleCache w) !! key = None ->
  clearCache onCacheRemove key w =
    (tt, set_cache w (<[key := (-1, JUndefined)]> (cache (styleCache w)))) /\
  get (KeyStr key) (styleCache (exec (clearCache onCacheRemove key) w))
    = Some (-1, JUndefined) /\
  log (exec (clearCache onCacheRemove key) w) = log w /\
  cache (styleCache (exec (clearCache onCacheRemove key) w)) <> cache (styleCache w).
Proof.
  intros H. pose proof (clearCache_absent onCacheRemove key w H) as E.
  unfold exec. rewrite E. simpl. repeat split.
  - unfold get. simpl. apply lookup_insert_eq.
  - intros Heq. apply (f_equal (fun m => m !! key)) in Heq.
    rewrite lookup_insert_eq, H in Heq. done.
Qed.

Lemma release_of_absent_key_witness :
  cache (styleCache emptyWorld) !! "k" = None /\
  get (KeyStr "k") (styleCache (exec (clearCache (Some (probe "k")) "k") emptyWorld))
    = Some (-1, JUndefined).
Proof.
  split; [reflexivity|].
  apply (release_of_absent_key (Some (probe "k")) "k" emptyWorld). reflexivity.
Defined.

(** *** Acquisition *)

Section Acquire.
Variables development HMRUpdate : bool.
Variable genCache : M jsval.
Variable onCacheRemove : option (jsval -> bool -> M unit).

Let acquireEntry := acquireEntry development HMRUpdate genCache onCacheRemove.
Let acquire := acquire development HMRUpdate genCache onCacheRemove.

(** No entry: the factory runs, once, and its result is stored with count 1. *)
Lemma acquireEntry_create key w :
  cache (styleCache w) !! key = None ->
  acquireEntry key w =
    let '(p, w') := genCache w in
    (tt, set_cache w' (<[key := (1, p)]> (cache (styleCache w')))).
Proof.
  intros H. unfold acquireEntry, ClientCache.acquireEntry, update. simpl. rewrite H. simpl.
  rewrite andb_false_r. simpl. unfold bind, ret. simpl. by destruct (genCache w).
Qed.

(** A truthy payload and no override: only the count moves. *)
Lemma acquireEntry_reuse key w n p :
  development && HMRUpdate = false ->
  cache (styleCache w) !! key = Some (n, p) ->
  truthy p = true ->
  acquireEntry key w = (tt, set_cache w (<[key := (n + 1, p)]> (cache (styleCache w)))).
Proof.
  intros Hoff H Hp. unfold acquireEntry, ClientCache.acquireEntry, update.
  simpl. rewrite H. simpl. rewrite Hp.
  replace (development && true && HMRUpdate) with false
    by (destruct development, HMRUpdate; done).
  unfold bind, ret. simpl. by rewrite Hp.
Qed.

(** A truthy payload under the override: disposal with the flag, then the
    factory. *)
Lemma acquireEntry_reload key w n p :
  development = true -> HMRUpdate = true ->
  cache (styleCache w) !! key = Some (n, p) ->
  truthy p = true ->
  acquireEntry key w =
    let w1 := exec (callRemove onCacheRemove p true) w in
    let '(p', w2) := genCache w1 in
    (tt, set_cache w2 (<[key := (n + 1, p')]> (cache (styleCache w2)))).
Proof.
  intros Hdev Hhmr H Hp. unfold acquireEntry, ClientCache.acquireEntry, update, exec.
  simpl. rewrite H. simpl. rewrite Hp, Hdev, Hhmr. simpl.
  unfold bind, ret. simpl. destruct (callRemove onCacheRemove p true w) as [[] w1]. simpl.
  by destruct (genCache w1).
Qed.

(** A falsy payload counts as none: no disposal, the factory runs. *)
Lemma acquireEntry_falsy key w n p :
  cache (styleCache w) !! key = Some (n, p) ->
  truthy p = false ->
  acquireEntry key w =
    let '(p', w') := genCache w in
    (tt, set_cache w' (<[key := (n + 1, p')]> (cache (styleCache w')))).
Proof.
  intros H Hp. unfold acquireEntry, ClientCache.acquireEntry, update.
  simpl. rewrite H. simpl. rewrite Hp. rewrite andb_false_r. simpl.
  unfold bind, ret. simpl. rewrite Hp. by destruct (genCache w).
Qed.

(** What is exposed is the payload just stored. *)
Lemma acquire_exposes key w :
  acquire key w =
    let w' := exec (acquireEntry key) w in
    (snd <$> cache (styleCache w') !! key, w').
Proof.
  unfold acquire, ClientCache.acquire, exec, bind, getM, ret. fold acquireEntry.
  by destruct (acquireEntry key w).
Qed.

End Acquire.

(** *** Order of disposal and removal *)

(** C2, as the code has it: in the release that finds the count at 1 the
    disposal callback runs first, on a world in which the entry is still
    stored with count 1, and the entry is removed from the map only after
    the callback has returned. For the observing callback: it sees
    [[1, payload]] under the key, and the key is absent afterwards. *)
Theorem disposal_precedes_removal key w p :
  cache (styleCache w) !! key = Some (1, p) ->
  (forall f,
     exec (clearCache (Some f) key) w =
       let w' := exec (f p false) w in
       set_cache w' (delete key (cache (styleCache w')))) /\
  log (exec (clearCache (Some (probe key)) key) w)
    = log w ++ [EvRemove p false (Some (1, p))] /\
  get (KeyStr key) (styleCache (exec (clearCache (Some (probe key)) key) w)) = None.
Proof.
  intros H. split; [|split].
  - intros f. unfold exec at 1. by rewrite (clearCache_last (Some f) key w p H).
  - unfold exec at 1. rewrite (clearCache_last _ key w p H). simpl.
    unfold get. simpl. by rewrite H.
  - unfold exec at 1. rewrite (clearCache_last _ key w p H). simpl.
    unfold get. simpl. apply lookup_delete_eq.
Qed.

Lemma disposal_precedes_removal_witness :
  cache (styleCache (worldWith "k" (1, JObj 0))) !! "k" = Some (1, JObj 0) /\
  log (exec (clearCache (Some (probe "k")) "k") (worldWith "k" (1, JObj 0)))
    = [EvRemove (JObj 0) false (Some (1, JObj 0))].
Proof.
  split; [reflexivity|].
  apply (disposal_precedes_removal "k" (worldWith "k" (1, JObj 0)) (JObj 0)).
  reflexivity.
Defined.

(** C2, as it is worded, fails: with [[1, payload]] stored under ["k"], the
    disposal callback run by the release does not see ["k"] absent. *)
Lemma removal_does_not_precede_disposal :
  ~ disposalSeesAbsent "k" (worldWith "k" (1, JObj 0)).
Proof.
  intros Hclaim.
  specialize (Hclaim (JObj 0) false (Some (1, JObj 0))).
  assert (Hin : In (EvRemove (JObj 0) false (Some (1, JObj 0)))
                  (log (exec (clearCache (Some (probe "k")) "k")
                          (worldWith "k" (1, JObj 0))))).
  { vm_compute. by left. }
  by specialize (Hclaim Hin).
Qed.

(** *** Counting references *)

Section Counting.
Variables development HMRUpdate : bool.
Variable g : world -> jsval.
Variable key : string.

Let acq := acquire development HMRUpdate (factoryOf g) (Some (probe key)) key.
Let rel := clearCache (Some (probe key)) key.

(** One acquisition adds one to the count found (0 when there is no
    entry) and is seen to do nothing but what acquisitions do. *)
Lemma acquire_counts w :
  exists p evs,
    cache (styleCache (exec acq w)) !! key
      = Some (fst (destructure (cache (styleCache w) !! key)) + 1, p) /\
    log (exec acq w) = log w ++ evs /\
    Forall (fun e => acquireEvent development HMRUpdate e = true) evs.
Proof.
  unfold acq. unfold exec at 1 2. rewrite acquire_exposes. cbv zeta. simpl snd.
  destruct (cache (styleCache w) !! key) as [[n p]|] eqn:H.
  - destruct (truthy p) eqn:Hp.
    + destruct (development && HMRUpdate) eqn:Hon.
      * apply andb_prop in Hon as [-> ->].
        unfold exec. rewrite (acquireEntry_reload _ _ _ _ key w n p); try done.
        simpl. eexists _, [_; _]. split; [apply lookup_insert_eq|].
        split; [by rewrite <- app_assoc | by repeat constructor].
      * unfold exec. rewrite (acquireEntry_reuse _ _ _ _ key w n p); try done.
        simpl. eexists _, []. split; [apply lookup_insert_eq|].
        split; [by rewrite app_nil_r | constructor].
    + unfold exec. rewrite (acquireEntry_falsy _ _ _ _ key w n p); try done.
      simpl. eexists _, [_]. split; [apply lookup_insert_eq|].
      split; [done | by repeat constructor].
  - unfold exec. rewrite (acquireEntry_create _ _ _ _ key w); try done.
    simpl. eexists _, [_]. split; [apply lookup_insert_eq|].
    split; [done | by repeat constructor].
Qed.

Lemma acquire_many n : forall w,
  exists p evs,
    cache (styleCache (exec (nTimes (S n) acq) w)) !! key
      = Some (fst (destructure (cache (styleCache w) !! key)) + Z.of_nat (S n), p) /\
    log (exec (nTimes (S n) acq) w) = log w ++ evs /\
    Forall (fun e => acquireEvent development HMRUpdate e = true) evs.
Proof.
  induction n as [|n IH]; intros w; rewrite exec_times_S.
  - simpl nTimes. unfold exec at 1 3, ret. simpl snd. apply acquire_counts.
  - destruct (acquire_counts w) as (p1 & evs1 & H1 & L1 & F1).
    destruct (IH (exec acq w)) as (p & evs & H & L & F).
    exists p, (evs1 ++ evs). rewrite H, L, H1, L1. simpl fst.
    split; [f_equal; f_equal; lia|].
    split; [by rewrite app_assoc | by apply Forall_app].
Qed.

(** Releases above 1 only count down, unseen. *)
Lemma release_many k : forall w p,
  cache (styleCache w) !! key = Some (Z.of_nat k + 1, p) ->
  cache (styleCache (exec (nTimes k rel) w)) !! key = Some (1, p) /\
  log (exec (nTimes k rel) w) = log w.
Proof.
  induction k as [|k IH]; intros w p H.
  - by simpl.
  - rewrite exec_times_S.
    assert (E : exec rel w =
                set_cache w (<[key := (Z.of_nat k + 1, p)]> (cache (styleCache w)))).
    { unfold exec, rel. rewrite (clearCache_decrement _ key w _ p H) by lia.
      simpl. do 3 f_equal. lia. }
    rewrite E. destruct (IH (set_cache w (<[key := (Z.of_nat k + 1, p)]> (cache (styleCache w)))) p)
      as [H' L']; [apply lookup_insert_eq|]. by rewrite H', L'.
Qed.

End Counting.

(** *** The balance of acquisitions and releases *)

Section Balance.
Variables development HMRUpdate : bool.
Variable g : world -> jsval.
Variable key : string.
Hypothesis Hoff : development && HMRUpdate = false.

Let acq := acquire development HMRUpdate (factoryOf g) (Some (probe key)) key.
Let rel := clearCache (Some (probe key)) key.

(** Without the override an acquisition is seen to do nothing when it
    finds a truthy payload, and to call the factory, once, when it finds a
    falsy one or none. *)
Lemma acquire_off_absent w :
  cache (styleCache w) !! key = None ->
  acq w = (Some (g w),
           set_cache (emit (EvGen (g w)) (alloc w)) (<[key := (1, g w)]> (cache (styleCache w)))).
Proof.
  intros H. unfold acq. rewrite acquire_exposes. unfold exec.
  rewrite (acquireEntry_create _ _ _ _ key w H). unfold factoryOf. simpl.
  by rewrite lookup_insert_eq.
Qed.

Lemma acquire_off_truthy w n p :
  cache (styleCache w) !! key = Some (n, p) -> truthy p = true ->
  acq w = (Some p, set_cache w (<[key := (n + 1, p)]> (cache (styleCache w)))).
Proof.
  intros H Hp. unfold acq. rewrite acquire_exposes. unfold exec.
  rewrite (acquireEntry_reuse _ _ _ _ key w n p Hoff H Hp). simpl.
  by rewrite lookup_insert_eq.
Qed.

Lemma acquire_off_falsy w n p :
  cache (styleCache w) !! key = Some (n, p) -> truthy p = false ->
  acq w = (Some (g w),
           set_cache (emit (EvGen (g w)) (alloc w))
             (<[key := (n + 1, g w)]> (cache (styleCache w)))).
Proof.
  intros H Hp. unfold acq. rewrite acquire_exposes. unfold exec.
  rewrite (acquireEntry_falsy _ _ _ _ key w n p H Hp). unfold factoryOf. simpl.
  by rewrite lookup_insert_eq.
Qed.

(** After [j + 1] acquisitions of a key that had no entry: the count is
    [j + 1], the first thing seen is the call of the factory on the world
    the run started in, nothing but calls of the factory is seen, and the
    payload stored is the result of the last of them. *)
Lemma acquire_off_many w j :
  cache (styleCache w) !! key = None ->
  exists p evs,
    cache (styleCache (exec (nTimes (S j) acq) w)) !! key = Some (Z.of_nat (S j), p) /\
    log (exec (nTimes (S j) acq) w) = log w ++ EvGen (g w) :: evs /\
    Forall (fun e => isGen e = true) evs /\
    last (EvGen (g w) :: evs) = Some (EvGen p) /\
    (truthy (g w) = true -> p = g w /\ evs = []).
Proof.
  intros Habsent. induction j as [|j IH].
  - rewrite exec_times_S. simpl nTimes. unfold exec at 1 3, ret. simpl snd.
    unfold exec. rewrite (acquire_off_absent w Habsent). simpl.
    exists (g w), []. rewrite lookup_insert_eq. split; [done|]. split; [done|].
    split; [constructor|]. split; [done|]. by intros _.
  - destruct IH as (p & evs & Hc & Hl & Hall & Hlast & Htruthy).
    rewrite exec_times_snoc. set (w' := exec (nTimes (S j) acq) w) in *.
    destruct (truthy p) eqn:Hp.
    + unfold exec at 1 2. rewrite (acquire_off_truthy w' _ p Hc Hp). simpl.
      exists p, evs. rewrite lookup_insert_eq. split; [do 2 f_equal; lia|].
      split; [done|]. split; [done|]. split; [done|]. exact Htruthy.
    + unfold exec at 1 2. rewrite (acquire_off_falsy w' _ p Hc Hp). simpl.
      exists (g w'), (evs ++ [EvGen (g w')]). rewrite lookup_insert_eq.
      split; [do 2 f_equal; lia|]. split; [by rewrite Hl, <- app_assoc|].
      split; [apply Forall_app; split; [done | by repeat constructor]|].
      split; [by rewrite app_comm_cons, last_snoc|].
      intros Hg. destruct (Htruthy Hg) as [-> _]. congruence.
Qed.

(** Releases above 1 only count down, unseen. *)
Lemma release_off_many k : forall w n p,
  cache (styleCache w) !! key = Some (Z.of_nat k + n, p) -> 1 <= n ->
  cache (styleCache (exec (nTimes k rel) w)) !! key = Some (n, p) /\
  log (exec (nTimes k rel) w) = log w.
Proof.
  induction k as [|k IH]; intros w n p H Hn.
  - simpl in H. split; [exact H | done].
  - rewrite exec_times_S.
    assert (E : exec rel w =
                set_cache w (<[key := (Z.of_nat k + n, p)]> (cache (styleCache w)))).
    { unfold exec, rel. rewrite (clearCache_decrement _ key w _ p H) by lia.
      simpl. do 3 f_equal. lia. }
    rewrite E. destruct (IH (set_cache w (<[key := (Z.of_nat k + n, p)]> (cache (styleCache w)))) n p)
      as [H' L']; [apply lookup_insert_eq | done |]. by rewrite H', L'.
Qed.

End Balance.

(** C4, as the code has it. While the hot-reload override is off
    (production build, or no reload signalled), for any key without an entry,
    any [N >= 1] and any factory: the [j]-th acquisition leaves the count at
    [j]; the first thing the run is seen to do is to call the factory, the
    acquisitions are seen to do nothing but call the factory, and the payload
    stored after them is the result of the last call -- of the only call, by
    the first acquisition, when that result is truthy; the first [N - 1]
    releases count down to 1, unseen; the [N]-th release calls the disposal
    callback with the stored payload and [forcedByHotReload = false] while
    [[1, payload]] is still stored, and leaves the key absent. So over the
    whole run the disposal callback is called exactly once. *)
Theorem acquire_release_balance (development HMRUpdate : bool) (g : world -> jsval)
    (key : string) (N : nat) (w : world) :
  (1 <= N)%nat ->
  cache (styleCache w) !! key = None ->
  development && HMRUpdate = false ->
  let acq := acquire development HMRUpdate (factoryOf g) (Some (probe key)) key in
  let rel := clearCache (Some (probe key)) key in
  let w1 := exec (nTimes N acq) w in
  let w2 := exec (nTimes (N - 1) rel) w1 in
  let w3 := exec (nTimes N rel) w1 in
  exists p evs,
    acq w = (Some (g w),
             set_cache (emit (EvGen (g w)) (alloc w))
               (<[key := (1, g w)]> (cache (styleCache w)))) /\
    (forall j, (1 <= j <= N)%nat ->
       exists q, get (KeyStr key) (styleCache (exec (nTimes j acq) w)) = Some (Z.of_nat j, q)) /\
    get (KeyStr key) (styleCache w1) = Some (Z.of_nat N, p) /\
    log w1 = log w ++ EvGen (g w) :: evs /\
    Forall (fun e => isGen e = true) evs /\
    last (EvGen (g w) :: evs) = Some (EvGen p) /\
    (truthy (g w) = true -> p = g w /\ evs = []) /\
    (forall k, (k < N)%nat ->
       get (KeyStr key) (styleCache (exec (nTimes k rel) w1)) = Some (Z.of_nat (N - k), p) /\
       log (exec (nTimes k rel) w1) = log w1) /\
    w3 = exec rel w2 /\
    get (KeyStr key) (styleCache w3) = None /\
    log w3 = log w1 ++ [EvRemove p false (Some (1, p))] /\
    exec (balancedRun development HMRUpdate g key N) w = w3 /\
    runEvents (balancedRun development HMRUpdate g key N) w
      = EvGen (g w) :: evs ++ [EvRemove p false (Some (1, p))] /\
    disposedExactlyOnce development HMRUpdate g key N w.
Proof.
  intros HN Habsent Hoff. cbv zeta.
  destruct N as [|n]; [lia|].
  replace (S n - 1)%nat with n by lia.
  set (acq := acquire development HMRUpdate (factoryOf g) (Some (probe key)) key).
  set (rel := clearCache (Some (probe key)) key).
  destruct (acquire_off_many development HMRUpdate g key Hoff w n Habsent)
    as (p & evs & H1 & L1 & F1 & Hlast & Htruthy).
  fold acq in H1, L1. set (w1 := exec (nTimes (S n) acq) w) in *.
  assert (Hrel : forall k, (k < S n)%nat ->
            cache (styleCache (exec (nTimes k rel) w1)) !! key = Some (Z.of_nat (S n - k), p) /\
            log (exec (nTimes k rel) w1) = log w1).
  { intros k Hk. apply (release_off_many key k w1 (Z.of_nat (S n - k)) p); [|lia].
    rewrite H1. do 2 f_equal. lia. }
  destruct (Hrel n) as [H2 L2]; [lia|].
  replace (Z.of_nat (S n - n)) with 1 in H2 by lia.
  set (w2 := exec (nTimes n rel) w1) in *.
  assert (E3 : exec (nTimes (S n) rel) w1 = exec rel w2).
  { unfold w2. by rewrite exec_times_snoc. }
  assert (E4 : exec rel w2 = set_cache (emit (EvRemove p false (Some (1, p))) w2)
                               (delete key (cache (styleCache w2)))).
  { unfold exec, rel. rewrite (clearCache_last _ key w2 p H2). cbv zeta.
    unfold callRemove, probe, exec, get. cbn [fst snd pathOf]. by rewrite H2. }
  assert (L3 : log (exec (nTimes (S n) rel) w1) = log w1 ++ [EvRemove p false (Some (1, p))]).
  { rewrite E3, E4. simpl. by rewrite L2. }
  assert (Erun : exec (balancedRun development HMRUpdate g key (S n)) w
                 = exec (nTimes (S n) rel) w1).
  { unfold balancedRun. by rewrite exec_bind. }
  assert (Eev : runEvents (balancedRun development HMRUpdate g key (S n)) w
                = EvGen (g w) :: evs ++ [EvRemove p false (Some (1, p))]).
  { unfold runEvents. rewrite Erun, L3, L1, <- app_assoc. by rewrite drop_app_length. }
  exists p, evs.
  split; [exact (acquire_off_absent development HMRUpdate g key w Habsent)|].
  split.
  { intros [|j] Hj; [lia|].
    destruct (acquire_off_many development HMRUpdate g key Hoff w j Habsent)
      as (q & _ & Hq & _). exists q. exact Hq. }
  split; [exact H1|]. split; [exact L1|]. split; [exact F1|]. split; [exact Hlast|].
  split; [exact Htruthy|]. split; [exact Hrel|]. split; [exact E3|].
  split; [rewrite E3, E4; unfold get; simpl; apply lookup_delete_eq|].
  split; [exact L3|]. split; [exact Erun|]. split; [exact Eev|].
  exists p, (Some (1, p)). rewrite Eev. cbn [List.filter isGen negb].
  rewrite List.filter_app. cbn [List.filter isGen negb].
  replace (List.filter (fun e => negb (isGen e)) evs) with (@nil event); [done|].
  clear -F1. induction F1 as [|e evs He _ IH]; [done|]. simpl. by rewrite He.
Qed.

Lemma acquire_release_balance_witness :
  (1 <= 3)%nat /\
  cache (styleCache emptyWorld) !! "k" = None /\
  true && false = false /\
  disposedExactlyOnce true false (fun w => JObj (heapNext w)) "k" 3 emptyWorld.
Proof.
  split; [lia|]. split; [reflexivity|]. split; [reflexivity|].
  destruct (acquire_release_balance true false (fun w => JObj (heapNext w)) "k" 3 emptyWorld)
    as (p & evs & H); [lia | reflexivity | reflexivity |].
  apply H.
Defined.

(** C4, as it is worded, fails under the hot-reload override: two
    acquisitions followed by two releases call the disposal callback twice,
    first with [forcedByHotReload = true] in the second acquisition. *)
Lemma disposed_more_than_once_under_reload :
  ~ disposedExactlyOnce true true (fun w => JObj (heapNext w)) "k" 2 emptyWorld /\
  List.filter (fun e => negb (isGen e))
    (runEvents (balancedRun true true (fun w => JObj (heapNext w)) "k" 2) emptyWorld)
  = [EvRemove (JObj 0) true (Some (1, JObj 0)); EvRemove (JObj 1) false (Some (1, JObj 1))].
Proof.
  assert (E : List.filter (fun e => negb (isGen e))
                (runEvents (balancedRun true true (fun w => JObj (heapNext w)) "k" 2) emptyWorld)
              = [EvRemove (JObj 0) true (Some (1, JObj 0));
                 EvRemove (JObj 1) false (Some (1, JObj 1))]) by (vm_compute; reflexivity).
  split; [|exact E]. intros (payload & seen & H). rewrite E in H. discriminate H.
Qed.

(** *** Payloads of different keys *)

Lemma apart_insert_same w w' key n n' p :
  payloadsApart w ->
  cache (styleCache w) !! key = Some (n, p) ->
  cache (styleCache w') = <[key := (n', p)]> (cache (styleCache w)) ->
  (heapNext w <= heapNext w')%nat ->
  payloadsApart w'.
Proof.
  intros [Hbound Hapart] H Hc Hh. split.
  - intros k m r. rewrite Hc, lookup_insert. case_decide as Hk.
    + intros [= _ ->]. specialize (Hbound _ _ _ H). lia.
    + intros Hl. specialize (Hbound _ _ _ Hl). lia.
  - intros k1 k2 n1 n2 r. rewrite Hc, !lookup_insert.
    repeat case_decide; subst; try done.
    + intros [= _ ->] H2. by apply (Hapart _ _ _ _ _ H H2).
    + intros H1 [= _ ->]. by apply (Hapart _ _ _ _ _ H1 H).
    + apply Hapart.
Qed.

Lemma apart_insert_fresh w w' key n' :
  payloadsApart w ->
  cache (styleCache w') = <[key := (n', JObj (heapNext w))]> (cache (styleCache w)) ->
  heapNext w' = S (heapNext w) ->
  payloadsApart w'.
Proof.
  intros [Hbound Hapart] Hc Hh. split.
  - intros k m r. rewrite Hc, lookup_insert, Hh. case_decide as Hk.
    + intros [= _ <-]. lia.
    + intros Hl. specialize (Hbound _ _ _ Hl). lia.
  - intros k1 k2 n1 n2 r. rewrite Hc, !lookup_insert.
    repeat case_decide; subst; try done.
    + intros [= _ <-] H2. specialize (Hbound _ _ _ H2). lia.
    + intros H1 [= _ <-]. specialize (Hbound _ _ _ H1). lia.
    + apply Hapart.
Qed.

Lemma apart_insert_undefined w w' key n' :
  payloadsApart w ->
  cache (styleCache w') = <[key := (n', JUndefined)]> (cache (styleCache w)) ->
  heapNext w' = heapNext w ->
  payloadsApart w'.
Proof.
  intros [Hbound Hapart] Hc Hh. split.
  - intros k m r. rewrite Hc, lookup_insert, Hh. case_decide; [done | apply Hbound].
  - intros k1 k2 n1 n2 r. rewrite Hc, !lookup_insert.
    repeat case_decide; subst; try done. apply Hapart.
Qed.

Lemma apart_delete w w' key :
  payloadsApart w ->
  cache (styleCache w') = delete key (cache (styleCache w)) ->
  heapNext w' = heapNext w ->
  payloadsApart w'.
Proof.
  intros [Hbound Hapart] Hc Hh. split.
  - intros k m r. rewrite Hc, lookup_delete, Hh. case_decide; [done | apply Hbound].
  - intros k1 k2 n1 n2 r. rewrite Hc, !lookup_delete.
    repeat case_decide; subst; try done. apply Hapart.
Qed.

Lemma callRemove_probe rm p b w :
  cache (styleCache (exec (callRemove (probe <$> rm) p b) w)) = cache (styleCache w) /\
  heapNext (exec (callRemove (probe <$> rm) p b) w) = heapNext w.
Proof. by destruct rm. Qed.

Lemma hookStep_apart development HMRUpdate w w' :
  hookStep development HMRUpdate w w' -> payloadsApart w -> payloadsApart w'.
Proof.
  intros Hstep Hinv. destruct Hstep as [key rm w|key rm w].
  - unfold exec. rewrite acquire_exposes. cbv zeta. simpl snd.
    destruct (cache (styleCache w) !! key) as [[n p]|] eqn:H.
    + destruct (truthy p) eqn:Hp.
      * destruct (development && HMRUpdate) eqn:Hon.
        -- apply andb_prop in Hon as [-> ->].
           unfold exec. rewrite (acquireEntry_reload _ _ _ _ key w n p); try done.
           cbv zeta. destruct (callRemove_probe rm p true w) as [Ec Eh].
           unfold freshFactory, factoryOf. simpl.
           eapply (apart_insert_fresh w _ key (n + 1)); [done | | ]; simpl.
           ++ by rewrite Eh, Ec.
           ++ by rewrite Eh.
        -- unfold exec. rewrite (acquireEntry_reuse _ _ _ _ key w n p); try done.
           by eapply (apart_insert_same w _ key n (n + 1) p).
      * unfold exec. rewrite (acquireEntry_falsy _ _ _ _ key w n p); try done.
        by eapply (apart_insert_fresh w _ key (n + 1)).
    + unfold exec. rewrite (acquireEntry_create _ _ _ _ key w); try done.
      by eapply (apart_insert_fresh w _ key 1).
  - destruct (cache (styleCache w) !! key) as [[n p]|] eqn:H.
    + destruct (decide (n = 1)) as [->|Hn].
      * unfold exec. rewrite (clearCache_last _ key w p H). cbv zeta. simpl snd.
        destruct (callRemove_probe rm p false w) as [Ec Eh].
        assert (Hmid : payloadsApart (exec (callRemove (probe <$> rm) p false) w)).
        { destruct Hinv as [Hb Ha]. split.
          - intros k m r. rewrite Ec, Eh. apply Hb.
          - intros k1 k2 n1 n2 r. rewrite Ec. apply Ha. }
        by eapply (apart_delete _ _ key Hmid).
      * unfold exec. rewrite (clearCache_decrement _ key w n p H Hn).
        by eapply (apart_insert_same w _ key n (n - 1) p).
    + unfold exec. rewrite (clearCache_absent _ key w H).
      by eapply (apart_insert_undefined w _ key (-1)).
Qed.

Lemma reachable_apart development HMRUpdate w w' :
  rtc (hookStep development HMRUpdate) w w' -> payloadsApart w -> payloadsApart w'.
Proof. induction 1; eauto using hookStep_apart. Qed.

Lemma emptyWorld_apart : payloadsApart emptyWorld.
Proof. split; intros *; simpl; by rewrite lookup_empty. Qed.

(** *** Sharing *)

(** C7, as the code has it. While the entry of a key is held with a truthy
    payload and the hot-reload override is off (production build, or no
    reload signalled), a further acquisition of that key calls neither the
    factory nor the disposal callback, whatever they are: it exposes the
    stored payload itself and only adds one to the count. An acquisition
    that finds no entry calls the factory once and stores its result with
    count 1. And when payloads come from a factory that allocates a new
    object at each call, whatever consumers acquire and release in either
    mode, no two keys ever hold the same object. *)
Theorem payload_shared_while_held development HMRUpdate genCache onCacheRemove key w n p :
  development && HMRUpdate = false ->
  cache (styleCache w) !! key = Some (n, p) ->
  truthy p = true ->
  acquire development HMRUpdate genCache onCacheRemove key w
    = (Some p, set_cache w (<[key := (n + 1, p)]> (cache (styleCache w)))) /\
  (forall w0, cache (styleCache w0) !! key = None ->
     acquire development HMRUpdate genCache onCacheRemove key w0
       = let '(p0, w') := genCache w0 in
         (Some p0, set_cache w' (<[key := (1, p0)]> (cache (styleCache w'))))) /\
  (forall dev hmr w', rtc (hookStep dev hmr) emptyWorld w' -> payloadsApart w').
Proof.
  intros Hoff H Hp. split; [|split].
  - rewrite acquire_exposes. unfold exec.
    rewrite (acquireEntry_reuse _ _ _ _ key w n p Hoff H Hp). simpl.
    by rewrite lookup_insert_eq.
  - intros w0 H0. rewrite acquire_exposes. unfold exec.
    rewrite (acquireEntry_create _ _ _ _ key w0 H0).
    destruct (genCache w0) as [p0 w']. simpl. by rewrite lookup_insert_eq.
  - intros dev hmr w' Hreach. eapply reachable_apart; [exact Hreach|].
    apply emptyWorld_apart.
Qed.

Lemma payload_shared_while_held_witness :
  true && false = false /\
  cache (styleCache (worldWith "k" (1, JObj 0))) !! "k" = Some (1, JObj 0) /\
  truthy (JObj 0) = true /\
  acquire true false freshFactory (Some (probe "k")) "k" (worldWith "k" (1, JObj 0))
    = (Some (JObj 0),
       set_cache (worldWith "k" (1, JObj 0))
         (<["k" := (1 + 1, JObj 0)]> (cache (styleCache (worldWith "k" (1, JObj 0)))))).
Proof.
  split; [reflexivity|]. split; [reflexivity|]. split; [reflexivity|].
  apply (payload_shared_while_held true false freshFactory (Some (probe "k")) "k"
           (worldWith "k" (1, JObj 0)) 1 (JObj 0)); reflexivity.
Defined.

(** C7, as it is worded, fails in three ways. Under the hot-reload override
    a second acquisition of ["k"], the first reference still held, calls the
    factory again and exposes another object. A factory that returns a falsy
    payload is called again by the second acquisition, override or not. And
    a factory that returns the same object at each call gives the keys ["a"]
    and ["b"] one shared payload. *)
Lemma factory_called_again_or_payload_shared :
  (let acq := acquire true true freshFactory (Some (probe "k")) "k" in
   let w1 := exec acq emptyWorld in
   get (KeyStr "k") (styleCache w1) = Some (1, JObj 0) /\
   eval acq emptyWorld = Some (JObj 0) /\
   eval acq w1 = Some (JObj 1) /\
   genCount (log (exec acq w1)) = 2%nat) /\
  (let acq := acquire false false (constFactory (JNum 0)) (Some (probe "k")) "k" in
   let w1 := exec acq emptyWorld in
   get (KeyStr "k") (styleCache w1) = Some (1, JNum 0) /\
   genCount (log (exec acq w1)) = 2%nat) /\
  (let acq := acquire false false (constFactory (JObj 7)) None in
   eval (acq "a") emptyWorld = Some (JObj 7) /\
   eval (acq "b") (exec (acq "a") emptyWorld) = Some (JObj 7) /\
   "a" <> "b").
Proof. repeat split; by vm_compute. Qed.

(** *** Hot reload *)

(** C8, as the code has it. Under the hot-reload override, re-acquiring a
    key whose entry holds a truthy payload calls the disposal callback on
    that payload with [forcedByHotReload = true] (the old entry still
    stored), then calls the factory, stores its result with the count plus
    one and exposes it. With a factory that allocates a new object at each
    call, the exposed payload is not the previous one. *)
Theorem reload_recreates_payload (g : world -> jsval) key w n p :
  cache (styleCache w) !! key = Some (n, p) ->
  truthy p = true ->
  (let w1 := emit (EvRemove p true (Some (n, p))) w in
   acquire true true (factoryOf g) (Some (probe key)) key w
     = (Some (g w1),
        set_cache (emit (EvGen (g w1)) (alloc w1))
          (<[key := (n + 1, g w1)]> (cache (styleCache w))))) /\
  log (exec (acquire true true (factoryOf g) (Some (probe key)) key) w)
    = log w ++ [EvRemove p true (Some (n, p));
                EvGen (g (emit (EvRemove p true (Some (n, p))) w))] /\
  (forall r, p = JObj r -> (r < heapNext w)%nat ->
     eval (acquire true true freshFactory (Some (probe key)) key) w
       = Some (JObj (heapNext w)) /\
     JObj (heapNext w) <> p).
Proof.
  intros H Hp.
  assert (E : forall g',
    acquire true true (factoryOf g') (Some (probe key)) key w
    = (Some (g' (emit (EvRemove p true (Some (n, p))) w)),
       set_cache (emit (EvGen (g' (emit (EvRemove p true (Some (n, p))) w)))
                    (alloc (emit (EvRemove p true (Some (n, p))) w)))
         (<[key := (n + 1, g' (emit (EvRemove p true (Some (n, p))) w))]>
            (cache (styleCache w))))).
  { intros g'. rewrite acquire_exposes. unfold exec.
    rewrite (acquireEntry_reload _ _ _ _ key w n p eq_refl eq_refl H Hp).
    simpl.
    assert (Eprobe : exec (probe key p true) w = emit (EvRemove p true (Some (n, p))) w).
    { unfold exec, probe, get. simpl. by rewrite H. }
    by rewrite Eprobe, lookup_insert_eq. }
  split; [apply E | split].
  - unfold exec. rewrite E. simpl. by rewrite <- app_assoc.
  - intros r -> Hr. unfold eval, freshFactory. rewrite E. simpl.
    split; [done|]. intros [= Heq]. lia.
Qed.

Lemma reload_recreates_payload_witness :
  cache (styleCache (exec (acquire true true freshFactory (Some (probe "k")) "k") emptyWorld))
    !! "k" = Some (1, JObj 0) /\
  truthy (JObj 0) = true /\
  log (exec (acquire true true freshFactory (Some (probe "k")) "k")
         (exec (acquire true true freshFactory (Some (probe "k")) "k") emptyWorld))
    = [EvGen (JObj 0); EvRemove (JObj 0) true (Some (1, JObj 0)); EvGen (JObj 1)].
Proof.
  split; [reflexivity|]. split; [reflexivity|].
  apply (reload_recreates_payload (fun w => JObj (heapNext w)) "k"
           (exec (acquire true true freshFactory (Some (probe "k")) "k") emptyWorld)
           1 (JObj 0)); reflexivity.
Defined.

(** C8, as it is worded, fails when the entry that exists holds a falsy
    payload: the disposal callback is not called. So it is for the entry
    [[1, 0]] stored by an acquisition whose factory returns [0], and for the
    entry [[-1, undefined]] left by the release of a key never acquired;
    in the first case the payload exposed is again [0]. *)
Lemma reload_skips_falsy_payload :
  (let acq := acquire true true (constFactory (JNum 0)) (Some (probe "k")) "k" in
   let w1 := exec acq emptyWorld in
   get (KeyStr "k") (styleCache w1) = Some (1, JNum 0) /\
   log (exec acq w1) = log w1 ++ [EvGen (JNum 0)] /\
   removeCount true (log (exec acq w1)) = 0%nat /\
   eval acq w1 = Some (JNum 0)) /\
  (let acq := acquire true true freshFactory (Some (probe "k")) "k" in
   let w1 := exec (clearCache (Some (probe "k")) "k") emptyWorld in
   get (KeyStr "k") (styleCache w1) = Some (-1, JUndefined) /\
   log (exec acq w1) = log w1 ++ [EvGen (JObj 0)] /\
   removeCount true (log (exec acq w1)) = 0%nat).
Proof. repeat split; by vm_compute. Qed.

End ClientCacheFacts.

(** ** ThemeCache *)
Module ThemeCacheFacts.
Import ThemeCache.

(** *** The map primitives *)

Lemma map_get_set_eq m k n : map_get (map_set m k n) k = Some n.
Proof.
  induction m as [|[k' n'] m IH]; simpl.
  - by rewrite Nat.eqb_refl.
  - destruct (Nat.eqb k' k) eqn:E; simpl.
    + by rewrite Nat.eqb_refl.
    + by rewrite E.
Qed.

Lemma map_get_set_ne m k k' n : k <> k' -> map_get (map_set m k n) k' = map_get m k'.
Proof.
  intros Hne. induction m as [|[k0 n0] m IH]; simpl.
  - destruct (Nat.eqb k k') eqn:E; [apply Nat.eqb_eq in E; contradiction | done].
  - destruct (Nat.eqb k0 k) eqn:E; simpl.
    + apply Nat.eqb_eq in E; subst k0.
      destruct (Nat.eqb k k') eqn:E'; [apply Nat.eqb_eq in E'; contradiction | done].
    + destruct (Nat.eqb k0 k'); [done | apply IH].
Qed.

(** The primitives keep one binding per key. *)
Lemma map_set_keys m k n :
  forall k', In k' (List.map fst (map_set m k n)) <-> k' = k \/ In k' (List.map fst m).
Proof.
  induction m as [|[k0 n0] m IH]; intros k'; simpl.
  - intuition congruence.
  - destruct (Nat.eqb k0 k) eqn:E; simpl.
    + apply Nat.eqb_eq in E; subst. intuition congruence.
    + rewrite IH. intuition congruence.
Qed.

Lemma map_set_one_binding m k n :
  List.NoDup (List.map fst m) -> List.NoDup (List.map fst (map_set m k n)).
Proof.
  induction m as [|[k0 n0] m IH]; simpl; intros Hnd.
  - constructor; [by intros [] | constructor].
  - apply List.NoDup_cons_iff in Hnd as [Hnotin Hnd].
    destruct (Nat.eqb k0 k) eqn:E; simpl.
    + apply Nat.eqb_eq in E; subst. by constructor.
    + constructor; [|by apply IH].
      rewrite map_set_keys. intros [->|Hin]; [|done].
      by rewrite Nat.eqb_refl in E.
Qed.

Lemma map_delete_keys m k :
  forall k', In k' (List.map fst (map_delete m k)) -> In k' (List.map fst m).
Proof.
  induction m as [|[k0 n0] m IH]; intros k'; simpl; [done|].
  destruct (Nat.eqb k0 k); simpl; intuition auto.
Qed.

Lemma map_delete_one_binding m k :
  List.NoDup (List.map fst m) -> List.NoDup (List.map fst (map_delete m k)).
Proof.
  induction m as [|[k0 n0] m IH]; simpl; intros Hnd; [constructor|].
  apply List.NoDup_cons_iff in Hnd as [Hnotin Hnd].
  destruct (Nat.eqb k0 k); simpl; [by apply IH|].
  constructor; [|by apply IH]. intros Hin. by apply map_delete_keys in Hin.
Qed.

(** *** Walking the trie *)

Lemma descend_none l : fold_left descend l None = None.
Proof. induction l; simpl; auto. Qed.

Lemma find_nil m : find m [] = Some (Node (Some m) None).
Proof. reflexivity. Qed.

Lemma find_cons m d rest : find m (d :: rest) = fold_left descend rest (map_get m d).
Proof. reflexivity. Qed.

Lemma find_step m d d' rest :
  find m (d :: d' :: rest) =
  match map_get m d with
  | Some (Node (Some m') _) => find m' (d' :: rest)
  | _ => None
  end.
Proof.
  rewrite find_cons. destruct (map_get m d) as [[[m'|] v]|]; simpl;
    auto using descend_none.
Qed.

(** The recursive functions, one step down a path of two or more. *)
Lemma store_cons m d d' rest value stamp :
  store m (d :: d' :: rest) value stamp =
  match map_get m d with
  | None => map_set m d (Node (Some (store [] (d' :: rest) value stamp)) None)
  | Some (Node None v) => map_set m d (Node (Some (store [] (d' :: rest) value stamp)) v)
  | Some (Node (Some m') v) => map_set m d (Node (Some (store m' (d' :: rest) value stamp)) v)
  end.
Proof. reflexivity. Qed.

Lemma restamp_cons m d d' rest stamp :
  restamp m (d :: d' :: rest) stamp =
  match map_get m d with
  | Some (Node (Some m') v) => map_set m d (Node (Some (restamp m' (d' :: rest) stamp)) v)
  | _ => m
  end.
Proof. simpl. by destruct (map_get m d) as [[[m'|] v]|]. Qed.

Lemma deleteByPath_cons m d d' rest :
  deleteByPath m (d :: d' :: rest) =
  match map_get m d with
  | Some (Node (Some m') v) =>
      match deleteByPath m' (d' :: rest) with
      | None => None
      | Some (result, m'') =>
          Some (result,
                if Nat.eqb (map_size m'') 0 && negb (bool_decide (is_Some v))
                then map_delete m d
                else map_set m d (Node (Some m'') v))
      end
  | _ => None
  end.
Proof. simpl. by destruct (map_get m d) as [[[m'|] v]|]. Qed.

(** The leaf written by [store] is found at the end of its path. *)
Lemma find_store path : forall m value stamp,
  path <> [] ->
  find (store m path value stamp) path = Some (Node None (Some (value, stamp))).
Proof.
  induction path as [|d rest IH]; intros m value stamp Hne; [done|].
  destruct rest as [|d' rest].
  - simpl. rewrite find_cons. simpl. apply map_get_set_eq.
  - rewrite find_step, store_cons.
    destruct (map_get m d) as [[[m'|] v]|]; rewrite map_get_set_eq; by apply IH.
Qed.

(** [restamp] changes the stamp of the leaf at the end of the path and
    nothing else of that node. *)
Lemma find_restamp path : forall m sub theme old stamp,
  find m path = Some (Node sub (Some (theme, old))) ->
  find (restamp m path stamp) path = Some (Node sub (Some (theme, stamp))).
Proof.
  induction path as [|d rest IH]; intros m sub theme old stamp Hfind; [done|].
  destruct rest as [|d' rest].
  - rewrite find_cons in Hfind. simpl in Hfind. simpl. rewrite Hfind.
    rewrite find_cons. simpl. apply map_get_set_eq.
  - rewrite find_step in Hfind. rewrite find_step, restamp_cons.
    destruct (map_get m d) as [[[m'|] v]|] eqn:E; try done.
    rewrite map_get_set_eq. by eapply IH.
Qed.

(** *** Leaves *)

Lemma leafAt_nil m : leafAt m [] = None.
Proof. reflexivity. Qed.

Lemma leafAt_cons m d rest :
  leafAt m (d :: rest) =
  match map_get m d with
  | None => None
  | Some (Node sub v) =>
      match rest with
      | [] => v
      | _ :: _ => match sub with Some m' => leafAt m' rest | None => None end
      end
  end.
Proof.
  unfold leafAt. destruct rest as [|d' rest].
  - rewrite find_cons. simpl. by destruct (map_get m d) as [[sub v]|].
  - rewrite find_step. by destruct (map_get m d) as [[[m'|] v]|].
Qed.

Lemma leafAt_empty o : leafAt [] o = None.
Proof. destruct o; [done|]. by rewrite leafAt_cons. Qed.

Lemma leafAt_set_ne m d n d0 rest :
  d <> d0 -> leafAt (map_set m d n) (d0 :: rest) = leafAt m (d0 :: rest).
Proof. intros Hne. by rewrite !leafAt_cons, map_get_set_ne. Qed.

Lemma map_get_delete_ne m k k' : k <> k' -> map_get (map_delete m k) k' = map_get m k'.
Proof.
  intros Hne. induction m as [|[k0 n0] m IH]; simpl; [done|].
  destruct (Nat.eqb k0 k) eqn:E; simpl.
  - apply Nat.eqb_eq in E; subst k0.
    destruct (Nat.eqb k k') eqn:E'; [apply Nat.eqb_eq in E'; contradiction | done].
  - destruct (Nat.eqb k0 k'); [done | apply IH].
Qed.

Lemma map_get_delete_eq m k : map_get (map_delete m k) k = None.
Proof.
  induction m as [|[k0 n0] m IH]; simpl; [done|].
  destruct (Nat.eqb k0 k) eqn:E; simpl; [done | by rewrite E].
Qed.

Lemma leafAt_delete_ne m d d0 rest :
  d <> d0 -> leafAt (map_delete m d) (d0 :: rest) = leafAt m (d0 :: rest).
Proof. intros Hne. by rewrite !leafAt_cons, map_get_delete_ne. Qed.

Lemma leafAt_store_same m path value stamp :
  path <> [] -> leafAt (store m path value stamp) path = Some (value, stamp).
Proof. intros Hne. unfold leafAt. by rewrite find_store. Qed.

(** A leaf found elsewhere after [store] was there before. *)
Lemma leafAt_store_other path : forall m o value stamp x,
  o <> path ->
  leafAt (store m path value stamp) o = Some x ->
  leafAt m o = Some x.
Proof.
  induction path as [|d rest IH]; intros m o value stamp x Hne; [done|].
  destruct o as [|d0 o']; [done|].
  destruct (decide (d = d0)) as [<-|Hd].
  - destruct rest as [|d' rest].
    + simpl store. rewrite leafAt_cons, map_get_set_eq.
      destruct o'; [done | done].
    + rewrite store_cons. rewrite (leafAt_cons m).
      destruct (map_get m d) as [[[m'|] v]|]; rewrite leafAt_cons, map_get_set_eq;
        destruct o' as [|d1 o']; try done.
      * apply IH. congruence.
      * intros H. apply IH in H; [|congruence]. by rewrite leafAt_empty in H.
      * intros H. apply IH in H; [|congruence]. by rewrite leafAt_empty in H.
  - destruct rest as [|d' rest].
    + simpl store. by rewrite leafAt_set_ne.
    + rewrite store_cons.
      destruct (map_get m d) as [[[m'|] v]|]; by rewrite leafAt_set_ne.
Qed.

Lemma leafAt_restamp_same path m theme old stamp :
  leafAt m path = Some (theme, old) ->
  leafAt (restamp m path stamp) path = Some (theme, stamp).
Proof.
  unfold leafAt. destruct (find m path) as [[sub v]|] eqn:Hfind; [|done].
  intros ->. by rewrite (find_restamp _ _ _ _ _ stamp Hfind).
Qed.

(** [restamp] leaves every other leaf as it is. *)
Lemma leafAt_restamp_other path : forall m o stamp,
  o <> path -> leafAt (restamp m path stamp) o = leafAt m o.
Proof.
  induction path as [|d rest IH]; intros m o stamp Hne; [done|].
  destruct o as [|d0 o']; [done|].
  destruct (decide (d = d0)) as [<-|Hd].
  - destruct rest as [|d' rest].
    + simpl restamp. destruct (map_get m d) as [[sub [[theme old]|]]|] eqn:E; try done.
      rewrite !leafAt_cons, map_get_set_eq, E. destruct o'; done.
    + rewrite restamp_cons.
      destruct (map_get m d) as [[[m'|] v]|] eqn:E; try done.
      rewrite !leafAt_cons, map_get_set_eq, E. destruct o' as [|d1 o']; [done|].
      apply IH. congruence.
  - destruct rest as [|d' rest].
    + simpl restamp. destruct (map_get m d) as [[sub [[theme old]|]]|]; try done.
      by rewrite leafAt_set_ne.
    + rewrite restamp_cons.
      destruct (map_get m d) as [[[m'|] v]|]; try done. by rewrite leafAt_set_ne.
Qed.

(** *** Touching a leaf *)

Lemma has_find s o :
  has s o = true <->
  exists sub theme stamp, find (cache s) o = Some (Node sub (Some (theme, stamp))).
Proof.
  unfold has, hasM, internalGet.
  destruct (find (cache s) o) as [[sub [[theme stamp]|]]|]; simpl; split.
  - eauto.
  - done.
  - done.
  - intros (?&?&?&[=]).
  - done.
  - intros (?&?&?&[=]).
Qed.

Lemma hasM_state s o : snd (hasM s o) = s.
Proof.
  unfold hasM, internalGet.
  by destruct (find (cache s) o) as [[sub [[theme stamp]|]]|].
Qed.

Lemma stampAt_find s o sub theme stamp :
  find (cache s) o = Some (Node sub (Some (theme, stamp))) -> stampAt s o = Some stamp.
Proof. intros H. unfold stampAt, internalGet. by rewrite H. Qed.

Lemma get_touch s o :
  has s o = true ->
  stampAt (snd (get s o)) o = Some (cacheCallTimes s) /\
  cacheCallTimes (snd (get s o)) = cacheCallTimes s + 1.
Proof.
  intros (sub & theme & stamp & Hfind)%has_find.
  unfold get, internalGet. rewrite Hfind. simpl. split; [|done].
  eapply stampAt_find. simpl. by eapply find_restamp.
Qed.

Lemma get_miss s o : has s o = false -> snd (get s o) = s.
Proof.
  unfold has, hasM, get, internalGet.
  by destruct (find (cache s) o) as [[sub [[theme stamp]|]]|].
Qed.

Lemma delete_counter s o r s' :
  delete s o = Some (r, s') -> cacheCallTimes s' = cacheCallTimes s.
Proof.
  unfold delete. destruct (has s o).
  - destruct (deleteByPath (cache s) o) as [[res c']|]; [|done].
    by intros [= _ <-].
  - by intros [= _ <-].
Qed.

Section Limits.
Variables maxSize maxOffset : Z.

Lemma makeRoom_counter s s1 :
  makeRoom maxSize maxOffset s = Some s1 -> cacheCallTimes s1 = cacheCallTimes s.
Proof.
  unfold makeRoom. destruct (_ >? _); [|by intros [= <-]].
  destruct (evictionTarget s) as [[[target|] t]|]; try done.
  destruct (delete s target) as [[r s']|] eqn:E; [|done].
  simpl. intros [= <-]. by eapply delete_counter.
Qed.

Lemma register_counter s o s2 :
  register maxSize maxOffset s o = Some s2 -> cacheCallTimes s2 = cacheCallTimes s.
Proof.
  unfold register. destruct (has s o); [by intros [= <-]|].
  destruct (makeRoom maxSize maxOffset s) as [s1|] eqn:E; [|done].
  intros [= <-]. simpl. by eapply makeRoom_counter.
Qed.

Lemma set_touch s o v s' :
  o <> [] ->
  set maxSize maxOffset s o v = Some s' ->
  stampAt s' o = Some (cacheCallTimes s) /\
  cacheCallTimes s' = cacheCallTimes s + 1.
Proof.
  intros Hne. unfold set.
  destruct (register maxSize maxOffset s o) as [s2|] eqn:E; [|done].
  apply register_counter in E. intros [= <-]. split.
  - eapply stampAt_find. simpl. rewrite <- E. by apply find_store.
  - simpl. destruct o; [done | by rewrite E].
Qed.

Lemma set_nil_counter s v s' :
  set maxSize maxOffset s [] v = Some s' ->
  stampAt s' [] = None /\ cacheCallTimes s' = cacheCallTimes s.
Proof.
  unfold set.
  destruct (register maxSize maxOffset s []) as [s2|] eqn:E; [|done].
  apply register_counter in E. by intros [= <-].
Qed.

Lemma step_counter s c s' :
  step maxSize maxOffset s c = Some s' -> cacheCallTimes s <= cacheCallTimes s'.
Proof.
  destruct c as [o|o|o v|o]; simpl.
  - rewrite hasM_state. intros [= <-]. lia.
  - intros [= <-]. destruct (has s o) eqn:E.
    + apply get_touch in E as [_ ->]. lia.
    + rewrite get_miss by done. lia.
  - destruct o as [|d o].
    + intros [_ ->]%set_nil_counter. lia.
    + intros [_ ->]%set_touch; [lia | done].
  - destruct (delete s o) as [[r s1]|] eqn:E; [|done].
    simpl. intros [= <-]. apply delete_counter in E. lia.
Qed.

(** Every stamp written from [s] on is at least the counter of [s], and
    each is below the next one. *)
Lemma issued_sorted cs : forall s,
  Forall (fun t => cacheCallTimes s <= t) (issued maxSize maxOffset s cs) /\
  StronglySorted Z.lt (issued maxSize maxOffset s cs).
Proof.
  induction cs as [|c cs IH]; intros s; simpl.
  - split; constructor.
  - destruct (step maxSize maxOffset s c) as [s'|] eqn:Hstep; [|split; constructor].
    destruct (IH s') as [Hge Hsorted].
    assert (Hmono := step_counter _ _ _ Hstep).
    assert (Hrest : Forall (fun t => cacheCallTimes s <= t) (issued maxSize maxOffset s' cs)).
    { eapply Forall_impl; [exact Hge|]. simpl. intros; lia. }
    assert (Htouch : forall o,
      stampAt s' o = Some (cacheCallTimes s) ->
      cacheCallTimes s' = cacheCallTimes s + 1 ->
      Forall (fun t => cacheCallTimes s <= t)
        (option_list (stampAt s' o) ++ issued maxSize maxOffset s' cs) /\
      StronglySorted Z.lt (option_list (stampAt s' o) ++ issued maxSize maxOffset s' cs)).
    { intros o -> Hnext. simpl. split.
      - constructor; [lia | done].
      - constructor; [done|].
        eapply Forall_impl; [exact Hge|]. simpl. intros; lia. }
    destruct c as [o|o|o v|o]; simpl in *; try done.
    + destruct (has s o) eqn:E; [|done].
      injection Hstep as <-. apply get_touch in E as [E1 E2]. by apply Htouch.
    + destruct o as [|d o].
      * apply set_nil_counter in Hstep as [-> _]. done.
      * apply set_touch in Hstep as [E1 E2]; [by apply Htouch | done].
Qed.

End Limits.

(** *** Deleting *)

Lemma sameDerivativeOption_eq left right :
  sameDerivativeOption left right = true <-> left = right.
Proof.
  unfold sameDerivativeOption.
  destruct (Nat.eqb (length left) (length right)) eqn:Hlen; simpl.
  - apply Nat.eqb_eq in Hlen. revert right Hlen.
    induction left as [|a left IH]; intros [|b right] Hlen; simpl in *; try done.
    rewrite andb_true_iff, Nat.eqb_eq, IH by lia. split.
    + by intros [-> ->].
    + by intros [= -> ->].
  - split; [done|]. intros ->. apply Nat.eqb_neq in Hlen. done.
Qed.

(** On a path whose leaf is there, [deleteByPath] does not throw. *)
Lemma deleteByPath_total path : forall m sub theme stamp,
  find m path = Some (Node sub (Some (theme, stamp))) ->
  exists m', deleteByPath m path = Some (Some theme, m').
Proof.
  induction path as [|d rest IH]; intros m sub theme stamp Hfind; [done|].
  destruct rest as [|d' rest].
  - rewrite find_cons in Hfind. simpl in Hfind. simpl. rewrite Hfind. simpl. eauto.
  - rewrite find_step in Hfind. rewrite deleteByPath_cons.
    destruct (map_get m d) as [[[m'|] v]|]; try done.
    destruct (IH m' sub theme stamp Hfind) as [m'' ->]. eauto.
Qed.

(** [delete] never throws; on a stored sequence it takes every equal key
    out of the registry. *)
Lemma delete_total s o : exists r s', delete s o = Some (r, s').
Proof.
  unfold delete. destruct (has s o) eqn:Hhas; [|eauto].
  apply has_find in Hhas as (sub & theme & stamp & Hfind).
  destruct (deleteByPath_total _ _ _ _ _ Hfind) as [m' ->]. eauto.
Qed.

Lemma delete_stored s o r s' :
  has s o = true ->
  delete s o = Some (r, s') ->
  keys s' = List.filter (fun item => negb (sameDerivativeOption item o)) (keys s).
Proof.
  unfold delete. intros ->.
  destruct (deleteByPath (cache s) o) as [[res c']|]; [|done]. by intros [= _ <-].
Qed.

Lemma filter_drops (o : DerivativeOptions) (ks : list DerivativeOptions) :
  In o ks ->
  (length (List.filter (fun item => negb (sameDerivativeOption item o)) ks) < length ks)%nat.
Proof.
  induction ks as [|k ks IH]; [done|]. intros [->|Hin]; simpl.
  - assert (E : sameDerivativeOption o o = true) by by apply sameDerivativeOption_eq.
    rewrite E. simpl.
    pose proof (List.filter_length_le (fun item => negb (sameDerivativeOption item o)) ks).
    lia.
  - specialize (IH Hin). destruct (negb (sameDerivativeOption k o)); simpl; lia.
Qed.

(** A leaf stored alone under a path of any depth: deleting it prunes the
    whole path. *)
Lemma deleteByPath_store_alone path : forall value stamp,
  path <> [] ->
  deleteByPath (store [] path value stamp) path = Some (Some value, []).
Proof.
  induction path as [|d rest IH]; intros value stamp Hne; [done|].
  destruct rest as [|d' rest].
  - simpl. by rewrite Nat.eqb_refl.
  - assert (Hrest : d' :: rest <> []) by done.
    rewrite store_cons, deleteByPath_cons. cbn [map_get map_set].
    rewrite Nat.eqb_refl, (IH value stamp Hrest). simpl. by rewrite Nat.eqb_refl.
Qed.

Lemma find_empty path : path <> [] -> find [] path = None.
Proof. destruct path; [done|]. intros _. rewrite find_cons. apply descend_none. Qed.

(** Storing one sequence in a new instance and deleting it again leaves
    neither a node nor a key, however long the sequence. *)
Lemma delete_sole_leaf maxSize maxOffset path value :
  path <> [] ->
  1 <= maxSize + maxOffset ->
  run maxSize maxOffset new [Set_ path value; Delete path]
    = Some {| cache := []; keys := []; cacheCallTimes := 1 |}.
Proof.
  intros Hne Hlim.
  assert (Hnew : has new path = false).
  { destruct (has new path) eqn:E; [|done].
    apply has_find in E as (?&?&?&E). simpl in E. by rewrite find_empty in E. }
  assert (Hset : set maxSize maxOffset new path value
                 = Some {| cache := store [] path value 0; keys := [path]; cacheCallTimes := 1 |}).
  { unfold set, register, makeRoom. rewrite Hnew. simpl.
    replace (size new + 1 >? maxSize + maxOffset) with false
      by (symmetry; rewrite Z.gtb_ltb; apply Z.ltb_ge; change (size new) with 0; lia).
    simpl. by destruct path. }
  simpl. rewrite Hset. unfold delete.
  assert (Hhas : has {| cache := store [] path value 0; keys := [path]; cacheCallTimes := 1 |}
                   path = true).
  { apply has_find. simpl. rewrite find_store by done. eauto. }
  rewrite Hhas. simpl. rewrite deleteByPath_store_alone by done. simpl.
  assert (E : sameDerivativeOption path path = true) by by apply sameDerivativeOption_eq.
  by rewrite E.
Qed.


(** A leaf found after [deleteByPath] was there before. *)
Lemma leafAt_deleteByPath path : forall m r m' o x,
  deleteByPath m path = Some (r, m') ->
  leafAt m' o = Some x ->
  leafAt m o = Some x.
Proof.
  induction path as [|d rest IH]; intros m r m' o x; [done|].
  destruct o as [|d0 o']; [done|].
  destruct rest as [|d' rest].
  - simpl. destruct (map_get m d) as [[sub v]|] eqn:E; [|done]. intros [= _ <-].
    destruct (decide (d = d0)) as [<-|Hd].
    + destruct sub as [m0|].
      * rewrite !leafAt_cons, map_get_set_eq, E. by destruct o'.
      * by rewrite leafAt_cons, map_get_delete_eq.
    + destruct sub as [m0|]; [by rewrite leafAt_set_ne | by rewrite leafAt_delete_ne].
  - rewrite deleteByPath_cons.
    destruct (map_get m d) as [[[m0|] v]|] eqn:E; try done.
    destruct (deleteByPath m0 (d' :: rest)) as [[res m0']|] eqn:Hrec; [|done].
    intros [= _ <-].
    destruct (decide (d = d0)) as [<-|Hd].
    + destruct (Nat.eqb (map_size m0') 0 && negb (bool_decide (is_Some v))).
      * by rewrite leafAt_cons, map_get_delete_eq.
      * rewrite !leafAt_cons, map_get_set_eq, E. destruct o'; [done|].
        by apply (IH m0 res m0').
    + destruct (Nat.eqb (map_size m0') 0 && negb (bool_decide (is_Some v)));
        [by rewrite leafAt_delete_ne | by rewrite leafAt_set_ne].
Qed.

(** *** Stamps in the trie *)

Lemma stampAt_leafAt s o : stampAt s o = snd <$> leafAt (cache s) o.
Proof.
  unfold stampAt, leafAt, internalGet.
  by destruct (find (cache s) o) as [[sub [[theme stamp]|]]|].
Qed.

Lemma has_leafAt s o : has s o = true <-> is_Some (leafAt (cache s) o).
Proof.
  rewrite has_find. unfold leafAt.
  destruct (find (cache s) o) as [[sub [[theme stamp]|]]|]; simpl; split;
    try (intros (?&?&?&[=])); try (intros [? [=]]); eauto.
Qed.

Lemma new_stamps : stampsBelow new /\ stampsApart new.
Proof.
  split; intros o; intros *; simpl; by rewrite leafAt_empty.
Qed.

Lemma get_stamps s o :
  stampsBelow s /\ stampsApart s ->
  stampsBelow (snd (get s o)) /\ stampsApart (snd (get s o)).
Proof.
  intros [Hbelow Hapart].
  destruct (has s o) eqn:Hhas; [|by rewrite get_miss].
  assert (Hhit := Hhas). apply has_leafAt in Hhit as [[theme old] Hleaf].
  apply has_find in Hhas as (sub & theme' & stamp & Hfind).
  unfold get, internalGet. rewrite Hfind. simpl.
  assert (Hnew : forall o' x,
    leafAt (restamp (cache s) o (cacheCallTimes s)) o' = Some x ->
    (o' = o /\ x = (theme, cacheCallTimes s)) \/ (o' <> o /\ leafAt (cache s) o' = Some x)).
  { intros o' x. destruct (decide (o' = o)) as [->|Hne].
    - rewrite (leafAt_restamp_same _ _ _ _ _ Hleaf). intros [= <-]. by left.
    - rewrite leafAt_restamp_other by done. by right. }
  split.
  - intros o' th t Hl. simpl in *. apply Hnew in Hl as [[_ [= _ ->]]|[_ Hl]]; [lia|].
    specialize (Hbelow _ _ _ Hl). lia.
  - intros o1 o2 th1 th2 t H1 H2. simpl in *.
    apply Hnew in H1 as [[-> [= _ ->]]|[Hne1 H1]];
      apply Hnew in H2 as [[-> E2]|[Hne2 H2]]; try done.
    + specialize (Hbelow _ _ _ H2). lia.
    + injection E2 as _ ->. specialize (Hbelow _ _ _ H1). lia.
    + by eapply Hapart.
Qed.

Lemma delete_stamps s o r s' :
  delete s o = Some (r, s') ->
  stampsBelow s /\ stampsApart s -> stampsBelow s' /\ stampsApart s'.
Proof.
  unfold delete. destruct (has s o); [|by intros [= _ <-]].
  destruct (deleteByPath (cache s) o) as [[res c']|] eqn:Hdel; [|done].
  intros [= _ <-] [Hbelow Hapart]. split.
  - intros o' th t Hl. simpl in *. eapply Hbelow. by eapply leafAt_deleteByPath.
  - intros o1 o2 th1 th2 t H1 H2. simpl in *.
    eapply Hapart; by eapply leafAt_deleteByPath.
Qed.

Lemma set_stamps maxSize maxOffset s o v s' :
  set maxSize maxOffset s o v = Some s' ->
  stampsBelow s /\ stampsApart s -> stampsBelow s' /\ stampsApart s'.
Proof.
  unfold set. destruct (register maxSize maxOffset s o) as [s2|] eqn:Hreg; [|done].
  intros [= <-] Hs.
  assert (H2 : stampsBelow s2 /\ stampsApart s2).
  { revert Hreg. unfold register. destruct (has s o); [by intros [= <-]|].
    destruct (makeRoom maxSize maxOffset s) as [s1|] eqn:Hroom; [|done].
    intros [= <-].
    assert (H1 : stampsBelow s1 /\ stampsApart s1).
    { revert Hroom. unfold makeRoom. destruct (_ >? _); [|by intros [= <-]].
      destruct (evictionTarget s) as [[[target|] c]|]; try done.
      destruct (delete s target) as [[r s1']|] eqn:Hdel; [|done]. simpl.
      intros [= <-]. by eapply delete_stamps. }
    exact H1. }
  destruct H2 as [Hbelow Hapart].
  destruct o as [|d o]; [done|].
  assert (Hne : d :: o <> []) by done.
  assert (Hnew : forall o' x,
    leafAt (store (cache s2) (d :: o) v (cacheCallTimes s2)) o' = Some x ->
    (o' = d :: o /\ x = (v, cacheCallTimes s2)) \/ (o' <> d :: o /\ leafAt (cache s2) o' = Some x)).
  { intros o' x. destruct (decide (o' = d :: o)) as [->|Hne'].
    - rewrite leafAt_store_same by done. intros [= <-]. by left.
    - intros Hl. right. split; [done|]. by eapply leafAt_store_other. }
  split.
  - intros o' th t Hl. simpl in *. apply Hnew in Hl as [[_ [= _ ->]]|[_ Hl]]; [lia|].
    specialize (Hbelow _ _ _ Hl). lia.
  - intros o1 o2 th1 th2 t H1 H2. simpl in *.
    apply Hnew in H1 as [[-> [= _ ->]]|[Hne1 H1]];
      apply Hnew in H2 as [[-> E2]|[Hne2 H2]]; try done.
    + specialize (Hbelow _ _ _ H2). lia.
    + injection E2 as _ ->. specialize (Hbelow _ _ _ H1). lia.
    + by eapply Hapart.
Qed.

Lemma step_stamps maxSize maxOffset s c s' :
  step maxSize maxOffset s c = Some s' ->
  stampsBelow s /\ stampsApart s -> stampsBelow s' /\ stampsApart s'.
Proof.
  destruct c as [o|o|o v|o]; simpl.
  - rewrite hasM_state. by intros [= <-].
  - intros [= <-]. apply get_stamps.
  - apply set_stamps.
  - destruct (delete s o) as [[r s1]|] eqn:Hdel; [|done]. simpl. intros [= <-].
    by eapply delete_stamps.
Qed.

(** In every instance reached from a new one, the stamps in the trie are
    below the counter and differ from leaf to leaf. *)
Lemma run_stamps maxSize maxOffset cs : forall s s',
  run maxSize maxOffset s cs = Some s' ->
  stampsBelow s /\ stampsApart s -> stampsBelow s' /\ stampsApart s'.
Proof.
  induction cs as [|c cs IH]; intros s s'; simpl.
  - by intros [= <-].
  - destruct (step maxSize maxOffset s c) as [s1|] eqn:Hstep; [|done].
    intros Hrun Hs. eapply IH; [exact Hrun|]. by eapply step_stamps.
Qed.

(** *** Choosing what to evict *)

Lemma has_stampAt s o : has s o = true <-> is_Some (stampAt s o).
Proof.
  rewrite has_find. unfold stampAt, internalGet.
  destruct (find (cache s) o) as [[sub [[theme stamp]|]]|]; simpl; split;
    try (intros (?&?&?&[=])); try (intros [? [=]]); eauto.
Qed.

Lemma reduceStep_stamp s target callTimes key :
  reduceStep s (Some (target, callTimes)) key =
  match stampAt s key with
  | None => None
  | Some stamp =>
      if stamp <? callTimes then Some (Some key, stamp) else Some (target, callTimes)
  end.
Proof.
  unfold reduceStep, stampAt.
  by destruct (fst (internalGet s key false)) as [[theme stamp]|].
Qed.

Lemma reduce_none s ks : fold_left (reduceStep s) ks None = None.
Proof. induction ks; simpl; auto. Qed.

(** A scan that does not throw has found a leaf for every key, and its
    target is the initial one or one of the keys. *)
Lemma scan_some s ks : forall target c target' c',
  fold_left (reduceStep s) ks (Some (target, c)) = Some (target', c') ->
  Forall (fun k => has s k = true) ks /\
  (target' = target \/ exists k, target' = Some k /\ In k ks).
Proof.
  induction ks as [|k ks IH]; intros target c target' c'; cbn [fold_left].
  - intros [= -> ->]. split; [constructor | by left].
  - rewrite reduceStep_stamp. destruct (stampAt s k) as [t|] eqn:Hk.
    + assert (Hhas : has s k = true) by (apply has_stampAt; rewrite Hk; eauto).
      destruct (t <? c); intros [HF Ht]%IH; (split; [by constructor|]).
      * destruct Ht as [->|(k' & -> & Hin)]; right.
        -- exists k. split; [done | by left].
        -- exists k'. split; [done | by right].
      * destruct Ht as [->|(k' & -> & Hin)]; [by left | right].
        exists k'. split; [done | by right].
    + by rewrite reduce_none.
Qed.

(** When every key has a leaf, the scan ends on the first key whose stamp
    is the least among those below the initial bound, if there is one. *)
Lemma scan_oldest s ks target c :
  Forall (fun k => is_Some (stampAt s k)) ks ->
  exists target' c',
    fold_left (reduceStep s) ks (Some (target, c)) = Some (target', c') /\
    ((target' = target /\ c' = c /\
      Forall (fun k => exists t, stampAt s k = Some t /\ c <= t) ks) \/
     (exists pre k post,
        ks = pre ++ k :: post /\ target' = Some k /\
        stampAt s k = Some c' /\ c' < c /\
        Forall (fun k' => exists t, stampAt s k' = Some t /\ c' < t) pre /\
        Forall (fun k' => exists t, stampAt s k' = Some t /\ c' <= t) post)).
Proof.
  induction ks as [|k ks IH] using rev_ind; intros Hall.
  - exists target, c. split; [done|]. left. by repeat split.
  - apply Forall_app in Hall as [Hks Hk]. apply Forall_inv in Hk as [t Hk].
    destruct (IH Hks) as (target1 & c1 & Hfold & Hcase).
    rewrite fold_left_app, Hfold. cbn [fold_left]. rewrite reduceStep_stamp, Hk.
    destruct (Z.ltb_spec t c1) as [Hlt|Hge].
    + exists (Some k), t. split; [done|]. right.
      exists ks, k, []. split; [done|]. split; [done|]. split; [done|].
      destruct Hcase as [(-> & -> & Hge)|(pre & k0 & post & -> & -> & Hk0 & Hlt0 & Hpre & Hpost)].
      * split; [done|]. split; [|constructor].
        eapply Forall_impl; [exact Hge|]. simpl. intros k' (t' & ? & ?). exists t'. split; [done|lia].
      * split; [lia|]. split; [|constructor].
        apply Forall_app. split; [|constructor].
        -- eapply Forall_impl; [exact Hpre|]. simpl. intros k' (t' & ? & ?). exists t'. split; [done|lia].
        -- exists c1. split; [done|lia].
        -- eapply Forall_impl; [exact Hpost|]. simpl. intros k' (t' & ? & ?). exists t'. split; [done|lia].
    + exists target1, c1. split; [done|].
      destruct Hcase as [(-> & -> & Hge')|(pre & k0 & post & -> & -> & Hk0 & Hlt0 & Hpre & Hpost)].
      * left. repeat split; try done. apply Forall_app. split; [done|].
        constructor; [|constructor]. eauto.
      * right. exists pre, k0, (post ++ [k]). rewrite <- app_assoc. simpl.
        repeat split; try done. apply Forall_app. split; [done|].
        constructor; [|constructor]. eauto.
Qed.

(** In an instance whose registered keys all have a leaf stamped below
    the counter, the target of the eviction is the first registered key with
    the least stamp: every key before it is stamped strictly later, every key
    after it not earlier. *)
Lemma evictionTarget_oldest s :
  keys s <> [] ->
  Forall (fun k => exists t, stampAt s k = Some t /\ t < cacheCallTimes s) (keys s) ->
  exists pre k post t,
    keys s = pre ++ k :: post /\
    evictionTarget s = Some (Some k, t) /\
    stampAt s k = Some t /\
    Forall (fun k' => exists t', stampAt s k' = Some t' /\ t < t') pre /\
    Forall (fun k' => exists t', stampAt s k' = Some t' /\ t <= t') post.
Proof.
  intros Hne Hall. unfold evictionTarget.
  destruct (scan_oldest s (keys s) (head (keys s)) (cacheCallTimes s))
    as (target' & c' & Hfold & Hcase).
  { eapply Forall_impl; [exact Hall|]. simpl. intros k (t & -> & _). eauto. }
  rewrite Hfold.
  destruct Hcase as [(_ & _ & Hge)|(pre & k & post & Hks & -> & Hk & _ & Hpre & Hpost)].
  - exfalso. destruct (keys s) as [|k ks]; [done|].
    apply Forall_inv in Hall as (t & Ht & Hlt). apply Forall_inv in Hge as (t' & Ht' & Hge).
    rewrite Ht in Ht'. injection Ht' as <-. lia.
  - exists pre, k, post, c'. by repeat split.
Qed.

(** *** Capacity *)

Section Capacity.
Variables maxSize maxOffset : Z.

(** Below the ceiling a new sequence is registered and stored, nothing is
    evicted. *)
Lemma set_below_ceiling s o v :
  has s o = false ->
  size s + 1 <= maxSize + maxOffset ->
  set maxSize maxOffset s o v =
    Some {| cache := store (cache s) o v (cacheCallTimes s);
            keys := keys s ++ [o];
            cacheCallTimes := match o with [] => cacheCallTimes s | _ :: _ => cacheCallTimes s + 1 end |}.
Proof.
  intros Hhas Hroom. unfold set, register, makeRoom. rewrite Hhas.
  replace (size s + 1 >? maxSize + maxOffset) with false
    by (symmetry; rewrite Z.gtb_ltb; apply Z.ltb_ge; lia).
  done.
Qed.

(** A stored sequence is overwritten in place: registry and size stay. *)
Lemma set_stored s o v :
  has s o = true ->
  set maxSize maxOffset s o v =
    Some {| cache := store (cache s) o v (cacheCallTimes s);
            keys := keys s;
            cacheCallTimes := match o with [] => cacheCallTimes s | _ :: _ => cacheCallTimes s + 1 end |}.
Proof. intros Hhas. unfold set, register. by rewrite Hhas. Qed.

(** At the ceiling, in an instance whose registered keys all have a leaf
    stamped below the counter, [set] of a new sequence first deletes the
    first registered key with the least stamp, then registers and stores the
    new sequence. *)
Lemma set_evicts_oldest s o v :
  has s o = false ->
  size s + 1 > maxSize + maxOffset ->
  keys s <> [] ->
  Forall (fun k => exists t, stampAt s k = Some t /\ t < cacheCallTimes s) (keys s) ->
  exists pre k post t r s1,
    keys s = pre ++ k :: post /\
    stampAt s k = Some t /\
    Forall (fun k' => exists t', stampAt s k' = Some t' /\ t < t') pre /\
    Forall (fun k' => exists t', stampAt s k' = Some t' /\ t <= t') post /\
    delete s k = Some (r, s1) /\
    keys s1 = List.filter (fun item => negb (sameDerivativeOption item k)) (keys s) /\
    set maxSize maxOffset s o v =
      Some {| cache := store (cache s1) o v (cacheCallTimes s);
              keys := keys s1 ++ [o];
              cacheCallTimes := match o with [] => cacheCallTimes s | _ :: _ => cacheCallTimes s + 1 end |}.
Proof.
  intros Hhas Hfull Hne Hall.
  destruct (evictionTarget_oldest s Hne Hall) as (pre & k & post & t & Hks & Htarget & Hk & Hpre & Hpost).
  destruct (delete_total s k) as (r & s1 & Hdel).
  assert (Hhask : has s k = true) by (apply has_stampAt; rewrite Hk; eauto).
  exists pre, k, post, t, r, s1. repeat split; try done.
  - by eapply delete_stored.
  - unfold set, register, makeRoom. rewrite Hhas.
    replace (size s + 1 >? maxSize + maxOffset) with true
      by (symmetry; rewrite Z.gtb_ltb; apply Z.ltb_lt; lia).
    rewrite Htarget, Hdel. simpl. by rewrite (delete_counter _ _ _ _ Hdel).
Qed.

(** Whatever the instance, a [set] that returns leaves the size at most
    where it was or at the ceiling. *)
Lemma set_size_bound s o v s' :
  set maxSize maxOffset s o v = Some s' ->
  size s' <= Z.max (size s) (maxSize + maxOffset).
Proof.
  unfold set. destruct (register maxSize maxOffset s o) as [s2|] eqn:Hreg; [|done].
  intros [= <-]. unfold size at 1. simpl. fold (size s2).
  revert Hreg. unfold register. destruct (has s o); [intros [= <-]; lia|].
  destruct (makeRoom maxSize maxOffset s) as [s1|] eqn:Hroom; [|done].
  intros [= <-]. unfold size at 1. simpl. rewrite length_app. simpl.
  revert Hroom. unfold makeRoom.
  destruct (Z.gtb_spec (size s + 1) (maxSize + maxOffset)) as [Hfull|Hfree].
  - destruct (evictionTarget s) as [[[target|] c]|] eqn:Htarget; try done.
    destruct (delete s target) as [[r s1']|] eqn:Hdel; [|done]. simpl. intros [= ->].
    apply scan_some in Htarget as [Hall Hin].
    assert (Hk : In target (keys s)).
    { destruct Hin as [Hhead|(k & [= ->] & Hin)]; [|done].
      destruct (keys s); [done|]. injection Hhead as ->. by left. }
    assert (Hhas : has s target = true) by by eapply (proj1 (List.Forall_forall _ _) Hall).
    rewrite (delete_stored _ _ _ _ Hhas Hdel).
    pose proof (filter_drops target (keys s) Hk). unfold size. lia.
  - intros [= ->]. unfold size in *. lia.
Qed.

Lemma step_size_bound s c s' :
  step maxSize maxOffset s c = Some s' ->
  size s' <= Z.max (size s) (maxSize + maxOffset).
Proof.
  destruct c as [o|o|o v|o]; simpl.
  - rewrite hasM_state. intros [= <-]. lia.
  - intros [= <-]. unfold get, internalGet.
    destruct (find (cache s) o) as [[sub [[theme stamp]|]]|]; unfold size; simpl; lia.
  - apply set_size_bound.
  - destruct (delete s o) as [[r s1]|] eqn:Hdel; [|done]. simpl. intros [= <-].
    destruct (has s o) eqn:Hhas.
    + unfold size. rewrite (delete_stored _ _ _ _ Hhas Hdel).
      pose proof (List.filter_length_le (fun item => negb (sameDerivativeOption item o)) (keys s)).
      lia.
    + unfold delete in Hdel. rewrite Hhas in Hdel. injection Hdel as _ <-. lia.
Qed.

(** From an instance within the ceiling, any series of calls that returns
    ends within the ceiling; so does each of its prefixes. *)
Lemma run_size_bound cs : forall s s',
  size s <= maxSize + maxOffset ->
  run maxSize maxOffset s cs = Some s' ->
  size s' <= maxSize + maxOffset.
Proof.
  induction cs as [|c cs IH]; intros s s' Hs; simpl.
  - by intros [= <-].
  - destruct (step maxSize maxOffset s c) as [s1|] eqn:Hstep; [|done].
    apply IH. apply step_size_bound in Hstep. lia.
Qed.

End Capacity.

(** The scenario with limits 2 and 1: [[0]], [[1]], [[2]] fill the cache to
    size 3; storing [[3]] evicts [[0]], the least recently touched, and leaves
    [[1]], [[2]], [[3]], size 3. *)
Lemma scenario_ceiling_three :
  exists s3 s4,
    run 2 1 new (inserts 100 [[0]; [1]; [2]]%nat) = Some s3 /\
    size s3 = 3 /\
    set 2 1 s3 [3]%nat 103%nat = Some s4 /\
    keys s4 = [[1]; [2]; [3]]%nat /\
    size s4 = 3 /\
    has s4 [0]%nat = false /\
    has s4 [1]%nat = true /\ has s4 [2]%nat = true /\ has s4 [3]%nat = true.
Proof.
  eexists _, _. split; [vm_compute; reflexivity|]. split; [done|].
  split; [vm_compute; reflexivity|]. by repeat split.
Qed.

(** *** Overwriting the node at the end of a path *)

(** Whatever was stored below the end of the path is out of reach once
    [store] has written the leaf: the node it writes has no map. *)
Lemma store_drops_below m path below value stamp :
  path <> [] -> below <> [] ->
  find (store m path value stamp) (path ++ below) = None.
Proof.
  intros Hpath Hbelow. unfold find. rewrite fold_left_app.
  change (fold_left descend path (Some (Node (Some (store m path value stamp)) None)))
    with (find (store m path value stamp) path).
  rewrite find_store by done.
  destruct below as [|d below]; [done|]. simpl. apply descend_none.
Qed.

(** Hence after [set] no extension of the sequence has a leaf, registered
    or not. *)
Lemma set_drops_extensions maxSize maxOffset s o below v s' :
  o <> [] -> below <> [] ->
  set maxSize maxOffset s o v = Some s' ->
  has s' (o ++ below) = false.
Proof.
  intros Ho Hbelow. unfold set.
  destruct (register maxSize maxOffset s o) as [s2|]; [|done]. intros [= <-].
  destruct (has _ (o ++ below)) eqn:E; [|done].
  apply has_find in E as (sub & theme & stamp & E). simpl in E.
  by rewrite store_drops_below in E.
Qed.

(** In particular [set] on a stored sequence leaves every registered
    extension of it registered and without a leaf. *)
Lemma set_forgets_extensions maxSize maxOffset s o below v :
  o <> [] -> below <> [] ->
  has s o = true ->
  In (o ++ below) (keys s) ->
  exists s',
    set maxSize maxOffset s o v = Some s' /\
    In (o ++ below) (keys s') /\
    has s' (o ++ below) = false.
Proof.
  intros Ho Hbelow Hhas Hin. eexists. split; [by apply set_stored|].
  split; [done|].
  apply (set_drops_extensions maxSize maxOffset s o below v); [done | done |].
  by apply set_stored.
Qed.

(** *** Sequences none of which begins another *)

Lemma node_nested_ind (Q : node -> Prop) :
  (forall v, Q (Node None v)) ->
  (forall m v, Forall (fun '(_, c) => Q c) m -> Q (Node (Some m) v)) ->
  forall n, Q n.
Proof.
  intros Hleaf Hinner. fix IH 1. intros [[m|] v]; [|apply Hleaf].
  apply Hinner. induction m as [|[d c] m IHm]; constructor; [apply IH | apply IHm].
Qed.

Lemma tidy_inner m :
  tidy (Node (Some m) None) <-> m <> [] /\ tidyMap m.
Proof.
  unfold tidyMap. simpl.
  assert (E : forall l : list (DerivativeFunc * node),
    (fix all (m : list (DerivativeFunc * node)) : Prop :=
       match m with [] => True | (_, c) :: rest => tidy c /\ all rest end) l
    <-> Forall (fun '(_, c) => tidy c) l).
  { induction l as [|[d c] l IHl]; [split; by constructor|].
    rewrite Forall_cons, <- IHl. done. }
  rewrite E. tauto.
Qed.

Lemma tidy_cases n :
  tidy n ->
  (exists leaf, n = Node None (Some leaf)) \/
  (exists m, n = Node (Some m) None /\ m <> [] /\ tidyMap m).
Proof.
  destruct n as [[m|] [leaf|]]; try done.
  - intros H. right. exists m. split; [done|]. by apply tidy_inner.
  - intros _. left. eauto.
Qed.

Lemma Forall_map_set (Q : DerivativeFunc * node -> Prop) m d n :
  (forall k k', Q (k, n) -> Q (k', n)) ->
  Forall Q m -> Q (d, n) -> Forall Q (map_set m d n).
Proof.
  intros Hk Hm Hn. induction Hm as [|[k0 n0] m H0 Hm IH]; simpl.
  - by constructor.
  - destruct (Nat.eqb k0 d); by constructor.
Qed.

Lemma Forall_map_delete (Q : DerivativeFunc * node -> Prop) m d :
  Forall Q m -> Forall Q (map_delete m d).
Proof.
  intros Hm. induction Hm as [|[k0 n0] m H0 Hm IH]; simpl; [constructor|].
  destruct (Nat.eqb k0 d); [done | by constructor].
Qed.

Lemma tidyMap_nil : tidyMap [].
Proof. split; constructor. Qed.

Lemma tidyMap_set m d n : tidyMap m -> tidy n -> tidyMap (map_set m d n).
Proof.
  intros [Hnd Hall] Hn. split; [by apply map_set_one_binding|].
  by apply Forall_map_set.
Qed.

Lemma tidyMap_delete m d : tidyMap m -> tidyMap (map_delete m d).
Proof.
  intros [Hnd Hall]. split; [by apply map_delete_one_binding | by apply Forall_map_delete].
Qed.

Lemma tidyMap_get m d n : tidyMap m -> map_get m d = Some n -> tidy n.
Proof.
  intros [_ Hall]. induction Hall as [|[k0 n0] m H0 Hm IH]; simpl; [done|].
  destruct (Nat.eqb k0 d); [by intros [= <-] | done].
Qed.

Lemma map_set_nonempty m d n : map_set m d n <> [].
Proof. destruct m as [|[k0 n0] m]; simpl; [done|]. by destruct (Nat.eqb k0 d). Qed.

Lemma store_nonempty m path value stamp : path <> [] -> store m path value stamp <> [].
Proof.
  destruct path as [|d [|d' rest]]; [done| |]; intros _.
  - apply map_set_nonempty.
  - rewrite store_cons. destruct (map_get m d) as [[[m'|] v]|]; apply map_set_nonempty.
Qed.

Lemma restamp_nonempty path m stamp : m <> [] -> restamp m path stamp <> [].
Proof.
  intros Hm. destruct path as [|d [|d' rest]]; [done| |].
  - simpl. destruct (map_get m d) as [[sub [[theme old]|]]|]; try done.
    apply map_set_nonempty.
  - rewrite restamp_cons. destruct (map_get m d) as [[[m'|] v]|]; try done.
    apply map_set_nonempty.
Qed.

(** [store] keeps the trie tidy when no sequence with a leaf is a proper
    beginning of the path. *)
Lemma tidy_store path : forall m value stamp,
  path <> [] ->
  tidyMap m ->
  (forall q q', path = q ++ q' -> q' <> [] -> leafAt m q = None) ->
  tidyMap (store m path value stamp).
Proof.
  induction path as [|d rest IH]; intros m value stamp Hne Hm Hfree; [done|].
  destruct rest as [|d' rest].
  - simpl. by apply tidyMap_set.
  - assert (Hrest : d' :: rest <> []) by done.
    rewrite store_cons. destruct (map_get m d) as [n|] eqn:E.
    + pose proof (tidyMap_get _ _ _ Hm E) as Hn.
      apply tidy_cases in Hn as [[leaf ->]|(m' & -> & Hm'ne & Hm')].
      * exfalso. specialize (Hfree [d] (d' :: rest) eq_refl Hrest).
        rewrite leafAt_cons, E in Hfree. done.
      * apply tidyMap_set; [done|]. apply tidy_inner. split; [by apply store_nonempty|].
        apply IH; [done | done |].
        intros q q' Hq Hq'. destruct q as [|dq q]; [apply leafAt_nil|].
        specialize (Hfree (d :: dq :: q) q'). rewrite leafAt_cons, E in Hfree.
        apply Hfree; [|done]. simpl. by rewrite Hq.
    + apply tidyMap_set; [done|]. apply tidy_inner. split; [by apply store_nonempty|].
      apply IH; [done | apply tidyMap_nil |]. intros. apply leafAt_empty.
Qed.

Lemma tidy_restamp path : forall m stamp, tidyMap m -> tidyMap (restamp m path stamp).
Proof.
  induction path as [|d rest IH]; intros m stamp Hm; [done|].
  destruct rest as [|d' rest].
  - simpl. destruct (map_get m d) as [[sub [[theme old]|]]|] eqn:E; try done.
    apply tidyMap_set; [done|]. pose proof (tidyMap_get _ _ _ Hm E) as Hn.
    by destruct sub.
  - rewrite restamp_cons. destruct (map_get m d) as [[[m'|] v]|] eqn:E; try done.
    pose proof (tidyMap_get _ _ _ Hm E) as Hn.
    destruct v; [done|]. apply tidy_inner in Hn as [Hne Hm'].
    apply tidyMap_set; [done|]. apply tidy_inner.
    split; [by apply restamp_nonempty | by apply IH].
Qed.

Lemma tidy_deleteByPath path : forall m r m',
  tidyMap m -> deleteByPath m path = Some (r, m') -> tidyMap m'.
Proof.
  induction path as [|d rest IH]; intros m r m' Hm; [done|].
  destruct rest as [|d' rest].
  - simpl. destruct (map_get m d) as [[sub v]|] eqn:E; [|done]. intros [= _ <-].
    pose proof (tidyMap_get _ _ _ Hm E) as Hn.
    destruct sub as [m0|]; [|by apply tidyMap_delete].
    destruct v; [done|]. by apply tidyMap_set.
  - rewrite deleteByPath_cons. destruct (map_get m d) as [[[m0|] v]|] eqn:E; try done.
    destruct (deleteByPath m0 (d' :: rest)) as [[res m0']|] eqn:Hrec; [|done].
    intros [= _ <-]. pose proof (tidyMap_get _ _ _ Hm E) as Hn.
    destruct v; [done|]. apply tidy_inner in Hn as [Hne Hm0].
    pose proof (IH _ _ _ Hm0 Hrec) as Hm0'.
    destruct m0' as [|b m0']; simpl; [by apply tidyMap_delete|].
    apply tidyMap_set; [done|]. by apply tidy_inner.
Qed.

(** [store] changes no leaf but its own and those below it. *)
Lemma leafAt_store_apart path : forall m o value stamp,
  o <> path -> ~ path `prefix_of` o ->
  leafAt (store m path value stamp) o = leafAt m o.
Proof.
  induction path as [|d rest IH]; intros m o value stamp Hne Hpre.
  { exfalso. apply Hpre. by exists o. }
  destruct o as [|d0 o']; [done|].
  destruct (decide (d = d0)) as [<-|Hd].
  - destruct rest as [|d' rest].
    + exfalso. apply Hpre. by exists o'.
    + assert (Hne' : o' <> d' :: rest) by congruence.
      assert (Hpre' : ~ (d' :: rest) `prefix_of` o').
      { intros [k ->]. apply Hpre. by exists k. }
      rewrite store_cons. rewrite (leafAt_cons m).
      destruct (map_get m d) as [[[m'|] v]|]; rewrite leafAt_cons, map_get_set_eq;
        destruct o' as [|d1 o']; try done.
      * by apply IH.
      * rewrite IH by done. apply leafAt_empty.
      * rewrite IH by done. apply leafAt_empty.
  - destruct rest as [|d' rest].
    + simpl store. by rewrite leafAt_set_ne.
    + rewrite store_cons.
      destruct (map_get m d) as [[[m'|] v]|]; by rewrite leafAt_set_ne.
Qed.

Lemma leafAt_store_below m path below value stamp :
  path <> [] -> below <> [] ->
  leafAt (store m path value stamp) (path ++ below) = None.
Proof. intros. unfold leafAt. by rewrite store_drops_below. Qed.

(** [deleteByPath] takes the leaf of its path away and changes no other. *)
Lemma leafAt_deleteByPath_eq path : forall m r m',
  deleteByPath m path = Some (r, m') ->
  leafAt m' path = None /\ forall o, o <> path -> leafAt m' o = leafAt m o.
Proof.
  induction path as [|d rest IH]; intros m r m'; [done|].
  destruct rest as [|d' rest].
  - simpl. destruct (map_get m d) as [[sub v]|] eqn:E; [|done]. intros [= _ <-].
    split.
    + destruct sub as [m0|]; rewrite leafAt_cons.
      * by rewrite map_get_set_eq.
      * by rewrite map_get_delete_eq.
    + intros [|d0 o'] Hne; [done|].
      destruct (decide (d = d0)) as [<-|Hd].
      * destruct o' as [|d1 o']; [done|].
        destruct sub as [m0|]; rewrite !leafAt_cons, E.
        -- by rewrite map_get_set_eq.
        -- by rewrite map_get_delete_eq.
      * destruct sub as [m0|]; [by rewrite leafAt_set_ne | by rewrite leafAt_delete_ne].
  - rewrite deleteByPath_cons.
    destruct (map_get m d) as [[[m0|] v]|] eqn:E; try done.
    destruct (deleteByPath m0 (d' :: rest)) as [[res m0']|] eqn:Hrec; [|done].
    intros [= _ <-]. destruct (IH _ _ _ Hrec) as [Hgone Hsame].
    destruct (Nat.eqb (map_size m0') 0 && negb (bool_decide (is_Some v))) eqn:Hprune.
    + apply andb_prop in Hprune as [Hsize Hv].
      assert (m0' = []) as -> by (destruct m0'; [done | by apply Nat.eqb_eq in Hsize]).
      assert (v = None) as ->.
      { destruct v; [|done]. simpl in Hv. done. }
      split; [by rewrite leafAt_cons, map_get_delete_eq|].
      intros [|d0 o'] Hne; [done|].
      destruct (decide (d = d0)) as [<-|Hd]; [|by rewrite leafAt_delete_ne].
      rewrite !leafAt_cons, map_get_delete_eq, E.
      destruct o' as [|d1 o']; [done|].
      rewrite <- Hsame by congruence. symmetry. apply leafAt_empty.
    + split.
      * rewrite leafAt_cons, map_get_set_eq. exact Hgone.
      * intros [|d0 o'] Hne; [done|].
        destruct (decide (d = d0)) as [<-|Hd]; [|by rewrite leafAt_set_ne].
        rewrite !leafAt_cons, map_get_set_eq, E.
        destruct o' as [|d1 o']; [done|]. apply Hsame. congruence.
Qed.

(** *** Counting leaves by their paths *)

Lemma pathsIn_cons d c m :
  pathsIn ((d, c) :: m) = List.map (cons d) (pathsOf c) ++ pathsIn m.
Proof. reflexivity. Qed.

Lemma pathsOf_inner m v :
  pathsOf (Node (Some m) v) = match v with Some _ => [[]] | None => [] end ++ pathsIn m.
Proof. reflexivity. Qed.

Lemma leavesOf_cons d c m : leavesOf ((d, c) :: m) = (leaves c + leavesOf m)%nat.
Proof. reflexivity. Qed.

Lemma leaves_inner m v :
  leaves (Node (Some m) v) = (match v with Some _ => 1 | None => 0 end + leavesOf m)%nat.
Proof. reflexivity. Qed.

Lemma leaves_pathsOf n : leaves n = length (pathsOf n).
Proof.
  induction n as [v|m v IH] using node_nested_ind.
  - by destruct v.
  - rewrite leaves_inner, pathsOf_inner, length_app. f_equal; [by destruct v|].
    induction IH as [|[d c] m Hc Hm IHm]; [done|].
    rewrite leavesOf_cons, pathsIn_cons, length_app, length_map. by rewrite Hc, IHm.
Qed.

Lemma leavesOf_pathsIn m : leavesOf m = length (pathsIn m).
Proof. apply leaves_pathsOf. Qed.

Lemma pathsIn_head m o :
  In o (pathsIn m) -> exists d o', o = d :: o' /\ In d (List.map fst m).
Proof.
  induction m as [|[d c] m IH]; [done|].
  rewrite pathsIn_cons, in_app_iff, in_map_iff. intros [(o' & <- & _)|Hin].
  - exists d, o'. split; [done | by left].
  - destruct (IH Hin) as (d0 & o' & -> & Hd0). exists d0, o'. split; [done | by right].
Qed.

Lemma NoDup_map_cons (d : DerivativeFunc) (l : list DerivativeOptions) :
  List.NoDup l -> List.NoDup (List.map (cons d) l).
Proof.
  induction 1 as [|o l Hnotin Hnd IH]; simpl; constructor; [|done].
  intros [o' [[= ->] Hin]]%in_map_iff. done.
Qed.

Lemma leafAt_head d c m d0 o' :
  leafAt ((d, c) :: m) (d0 :: o') =
  if Nat.eqb d d0 then leafBelow c o' else leafAt m (d0 :: o').
Proof.
  rewrite !leafAt_cons. simpl. destruct (Nat.eqb d d0); [|done].
  destruct c as [[m'|] v]; by destruct o'.
Qed.

(** In a tidy trie the paths listed are, once each, those that lead to a
    leaf. *)
Lemma pathsOf_tidy n :
  tidy n ->
  List.NoDup (pathsOf n) /\ forall o, In o (pathsOf n) <-> is_Some (leafBelow n o).
Proof.
  induction n as [v|m v IH] using node_nested_ind.
  - destruct v as [leaf|]; [|done]. intros _. split.
    + constructor; [by intros [] | constructor].
    + intros [|d o]; simpl; split.
      * eauto.
      * intros _. by left.
      * by intros [|[]].
      * by intros [? [=]].
  - destruct v; [done|]. intros [Hne [Hnd Hall]]%tidy_inner.
    rewrite pathsOf_inner. simpl app.
    assert (Hmap : List.NoDup (pathsIn m) /\
                   forall o, In o (pathsIn m) <-> is_Some (leafAt m o)).
    { clear Hne. induction IH as [|[d c] m Hc Hm IHm].
      - split; [constructor|]. intros o. rewrite leafAt_empty. split; [done | by intros [? [=]]].
      - simpl in Hnd. apply List.NoDup_cons_iff in Hnd as [Hd Hnd].
        apply Forall_cons in Hall as [Htc Hall].
        destruct (Hc Htc) as [Hcn Hcm]. destruct (IHm Hnd Hall) as [Hmn Hmm].
        rewrite pathsIn_cons. split.
        + apply List.NoDup_app; [by apply NoDup_map_cons | done |].
          intros o [o' [<- _]]%in_map_iff Hin.
          apply pathsIn_head in Hin as (d0 & o'' & [= <- _] & Hd0). done.
        + intros [|d0 o'].
          * rewrite leafAt_nil, in_app_iff, in_map_iff. split.
            -- intros [(? & [=] & _)|Hin]. by apply pathsIn_head in Hin as (? & ? & [=] & _).
            -- by intros [? [=]].
          * rewrite leafAt_head, in_app_iff, in_map_iff.
            destruct (Nat.eqb_spec d d0) as [<-|Hdd].
            -- rewrite <- Hcm. split.
               ++ intros [(o'' & [= <-] & Hin)|Hin]; [done|].
                  apply pathsIn_head in Hin as (d1 & o'' & [= <- _] & Hd1). done.
               ++ intros Hin. left. eauto.
            -- rewrite <- Hmm. split; [|by right].
               intros [(o'' & [= ? _] & _)|Hin]; [done | done]. }
    destruct Hmap as [Hn Hm]. split; [done|].
    intros [|d o]; [|apply Hm].
    simpl. split; [|by intros [? [=]]].
    intros Hin. by apply pathsIn_head in Hin as (? & ? & [=] & _).
Qed.

Lemma pathsIn_tidy m :
  tidyMap m ->
  List.NoDup (pathsIn m) /\ forall o, In o (pathsIn m) <-> is_Some (leafAt m o).
Proof.
  intros Hm. destruct m as [|b m].
  - split; [constructor|]. intros o. rewrite leafAt_empty. split; [done | by intros [? [=]]].
  - assert (Ht : tidy (Node (Some (b :: m)) None)) by (by apply tidy_inner).
    destruct (pathsOf_tidy _ Ht) as [Hnd Hin]. split; [done|].
    intros o. rewrite (Hin o). destruct o; [|done]. simpl. by rewrite leafAt_nil.
Qed.

Lemma noEmptyNode_inner m v :
  noEmptyNode (Node (Some m) v) =
  holdsSomething (Node (Some m) v) && noEmptyNodeIn m.
Proof.
  simpl. f_equal. unfold noEmptyNodeIn.
  induction m as [|[d c] m IH]; [done|]. simpl. by rewrite IH.
Qed.

(** A tidy trie has no empty node. *)
Lemma tidy_noEmptyNode n : tidy n -> noEmptyNode n = true.
Proof.
  induction n as [v|m v IH] using node_nested_ind.
  - by destruct v.
  - destruct v; [done|]. intros [Hne [_ Hall]]%tidy_inner.
    rewrite noEmptyNode_inner. apply andb_true_intro. split.
    + by destruct m.
    + unfold noEmptyNodeIn. apply forallb_forall. intros [d c] Hin.
      rewrite List.Forall_forall in IH, Hall. by apply (IH (d, c) Hin), (Hall (d, c) Hin).
Qed.

Lemma tidyMap_noEmptyNode m : tidyMap m -> noEmptyNodeIn m = true.
Proof.
  intros [_ Hall]. unfold noEmptyNodeIn. apply forallb_forall. intros [d c] Hin.
  rewrite List.Forall_forall in Hall. by apply tidy_noEmptyNode, (Hall (d, c) Hin).
Qed.

(** In a consistent instance the registry is as long as the trie has
    leaves, and no node is empty. *)
Lemma consistent_counts P s :
  consistent P s -> registryMatchesLeaves s /\ noEmptyNodeIn (cache s) = true.
Proof.
  intros (Htidy & Hnd & Hkeys & _). split; [|by apply tidyMap_noEmptyNode].
  unfold registryMatchesLeaves. rewrite leavesOf_pathsIn.
  destruct (pathsIn_tidy _ Htidy) as [Hpnd Hpin].
  apply Permutation_length, NoDup_Permutation; [by apply NoDup_ListNoDup.. |].
  intros o. rewrite !list_elem_of_In, Hkeys, Hpin. done.
Qed.

(** *** Consistency is kept by every call on sequences in use *)

Lemma new_consistent P : consistent P new.
Proof.
  split; [apply tidyMap_nil|]. split; [constructor|]. split; [|done].
  intros o. simpl. rewrite leafAt_empty. split; [done | by intros [? [=]]].
Qed.

Lemma get_consistent P s o : consistent P s -> consistent P (snd (get s o)).
Proof.
  intros (Htidy & Hnd & Hkeys & HP).
  destruct (has s o) eqn:Hhas; [|by rewrite get_miss].
  assert (Hhit := Hhas). apply has_leafAt in Hhit as [[theme old] Hleaf].
  apply has_find in Hhas as (sub & theme' & stamp & Hfind).
  unfold get, internalGet. rewrite Hfind. simpl.
  split; [by apply tidy_restamp|]. split; [done|]. split; [|done].
  intros o'. simpl. rewrite Hkeys. destruct (decide (o' = o)) as [->|Hne].
  - rewrite (leafAt_restamp_same _ _ _ _ _ Hleaf), Hleaf. split; eauto.
  - by rewrite leafAt_restamp_other.
Qed.

Lemma delete_consistent P s o r s' :
  consistent P s -> delete s o = Some (r, s') -> consistent P s'.
Proof.
  intros (Htidy & Hnd & Hkeys & HP). unfold delete.
  destruct (has s o) eqn:Hhas; [|by intros [= _ <-]].
  destruct (deleteByPath (cache s) o) as [[res c']|] eqn:Hdel; [|done].
  intros [= _ <-]. cbn [cache keys].
  destruct (leafAt_deleteByPath_eq _ _ _ _ Hdel) as [Hgone Hsame].
  split; [by eapply tidy_deleteByPath|].
  split; [by apply List.NoDup_filter|].
  split.
  - intros o'. cbn [keys cache]. rewrite filter_In, negb_true_iff, Hkeys.
    destruct (decide (o' = o)) as [->|Hne].
    + rewrite Hgone. split; [|by intros [? [=]]].
      intros [_ E]. assert (sameDerivativeOption o o = true) by by apply sameDerivativeOption_eq.
      congruence.
    + rewrite Hsame by done. split; [by intros [? _]|]. intros H. split; [done|].
      destruct (sameDerivativeOption o' o) eqn:E; [|done].
      by apply sameDerivativeOption_eq in E.
  - intros o'. cbn [keys]. intros [Hin _]%filter_In. by apply HP.
Qed.

(** Storing a sequence in use: the registry gains it if it was not there. *)
Lemma store_consistent P m ks o v t (stored : bool) :
  prefixFree P -> P o ->
  tidyMap m -> List.NoDup ks ->
  (forall o', In o' ks <-> is_Some (leafAt m o')) ->
  (forall o', In o' ks -> P o') ->
  (stored = true <-> In o ks) ->
  tidyMap (store m o v t) /\ List.NoDup (if stored then ks else ks ++ [o]) /\
  (forall o', In o' (if stored then ks else ks ++ [o])
              <-> is_Some (leafAt (store m o v t) o')) /\
  (forall o', In o' (if stored then ks else ks ++ [o]) -> P o').
Proof.
  intros [Hnil Hfree] HPo Htidy Hnd Hkeys HP Hstored.
  assert (Ho : o <> []) by (intros ->; done).
  assert (Hmem : forall o', In o' (if stored then ks else ks ++ [o]) <-> o' = o \/ In o' ks).
  { intros o'. destruct stored.
    - split; [by right|]. intros [->|]; [by apply Hstored | done].
    - rewrite in_app_iff. simpl. split; [intros [|[<-|[]]]; auto | intros [->|]; auto]. }
  split; [|split; [|split]].
  - apply tidy_store; [done | done |].
    intros q q' -> Hq'. destruct (leafAt m q) eqn:E; [|done]. exfalso.
    assert (Hq : In q ks) by (apply Hkeys; rewrite E; eauto).
    apply Hq'. apply HP in Hq. specialize (Hfree q (q ++ q') Hq HPo).
    assert (q = q ++ q') as Heq by (apply Hfree; by exists q').
    rewrite <- (app_nil_r q) in Heq at 1. by apply app_inv_head in Heq.
  - destruct stored; [done|].
    apply List.NoDup_app; [done | by constructor; [intros []|constructor] |].
    intros o' Hin [<-|[]]. assert (false = true) by by apply Hstored. done.
  - intros o'. rewrite Hmem. destruct (decide (o' = o)) as [->|Hne].
    + rewrite leafAt_store_same by done. split; eauto.
    + destruct (decide (o `prefix_of` o')) as [[below ->]|Hpre].
      * assert (Hbelow : below <> []) by (intros ->; by rewrite app_nil_r in Hne).
        rewrite leafAt_store_below by done. split; [|by intros [? [=]]].
        intros [|Hin]; [done|]. exfalso. apply Hne. symmetry.
        apply Hfree; [done | by apply HP | by exists below].
      * rewrite leafAt_store_apart by done. rewrite <- Hkeys. split; [by intros [|]|by right].
  - intros o'. rewrite Hmem. intros [->|Hin]; [done | by apply HP].
Qed.

Lemma evictionTarget_consistent P s :
  consistent P s -> keys s <> [] ->
  exists k t, evictionTarget s = Some (Some k, t) /\ In k (keys s).
Proof.
  intros (_ & _ & Hkeys & _) Hne. unfold evictionTarget.
  destruct (scan_oldest s (keys s) (head (keys s)) (cacheCallTimes s))
    as (target' & c' & Hfold & Hcase).
  { apply List.Forall_forall. intros k Hk. apply Hkeys in Hk as [leaf Hk].
    rewrite stampAt_leafAt, Hk. eauto. }
  rewrite Hfold.
  destruct Hcase as [(-> & -> & _)|(pre & k & post & Hks & -> & _)].
  - destruct (keys s) as [|k ks]; [done|]. exists k, (cacheCallTimes s).
    split; [done | by left].
  - exists k, c'. split; [done|]. rewrite Hks. apply in_app_iff. right. by left.
Qed.

Section PrefixFree.
Variable P : DerivativeOptions -> Prop.
Variables maxSize maxOffset : Z.
Hypothesis HP : prefixFree P.
Hypothesis Hlimit : 1 <= maxSize + maxOffset.

Lemma makeRoom_consistent s :
  consistent P s ->
  exists s1, makeRoom maxSize maxOffset s = Some s1 /\ consistent P s1 /\
             (forall o, In o (keys s1) -> In o (keys s)).
Proof.
  intros Hs. unfold makeRoom.
  destruct (Z.gtb_spec (size s + 1) (maxSize + maxOffset)) as [Hfull|Hfree]; [|eauto].
  assert (Hne : keys s <> []).
  { unfold size in Hfull. destruct (keys s); [simpl in Hfull; lia | done]. }
  destruct (evictionTarget_consistent P s Hs Hne) as (k & t & -> & Hk).
  destruct (delete_total s k) as (r & s1 & Hdel). rewrite Hdel. simpl.
  exists s1. split; [done|]. split; [by eapply delete_consistent|].
  assert (Hhas : has s k = true).
  { apply has_leafAt. destruct Hs as (_ & _ & Hkeys & _). by apply Hkeys. }
  rewrite (delete_stored _ _ _ _ Hhas Hdel). intros o [Hin _]%filter_In. done.
Qed.

Lemma set_consistent s o v :
  P o -> consistent P s ->
  exists s', set maxSize maxOffset s o v = Some s' /\ consistent P s'.
Proof.
  intros HPo Hs. unfold set, register. destruct (has s o) eqn:Hhas.
  - eexists. split; [done|]. destruct Hs as (Htidy & Hnd & Hkeys & HPk).
    assert (Hstored : true = true <-> In o (keys s)).
    { split; [|done]. intros _. apply Hkeys. by apply has_leafAt. }
    exact (store_consistent P (cache s) (keys s) o v (cacheCallTimes s) true
             HP HPo Htidy Hnd Hkeys HPk Hstored).
  - destruct (makeRoom_consistent s Hs) as (s1 & -> & (Htidy & Hnd & Hkeys & HPk) & Hsub).
    eexists. split; [done|].
    assert (Hstored : false = true <-> In o (keys s1)).
    { split; [done|]. intros Hin%Hsub. destruct Hs as (_ & _ & Hkeys0 & _).
      apply Hkeys0, has_leafAt in Hin. congruence. }
    exact (store_consistent P (cache s1) (keys s1) o v (cacheCallTimes s1) false
             HP HPo Htidy Hnd Hkeys HPk Hstored).
Qed.

Lemma step_consistent s c :
  P (callArg c) -> consistent P s ->
  exists s', step maxSize maxOffset s c = Some s' /\ consistent P s'.
Proof.
  intros HPc Hs. destruct c as [o|o|o v|o]; simpl.
  - rewrite hasM_state. eauto.
  - eexists. split; [done|]. by apply get_consistent.
  - by apply set_consistent.
  - destruct (delete_total s o) as (r & s' & Hdel). rewrite Hdel. simpl.
    eexists. split; [done|]. by eapply delete_consistent.
Qed.

Lemma run_consistent cs : forall s,
  Forall (fun c => P (callArg c)) cs -> consistent P s ->
  exists s', run maxSize maxOffset s cs = Some s' /\ consistent P s'.
Proof.
  induction cs as [|c cs IH]; intros s Hcs Hs; simpl; [eauto|].
  apply Forall_cons in Hcs as [Hc Hcs].
  destruct (step_consistent s c Hc Hs) as (s1 & -> & Hs1). by apply IH.
Qed.

(** On sequences none of which is empty or the beginning of another, and
    with a ceiling of at least 1, no series of calls on a new instance
    throws, and after it the registry is as long as the trie has leaves, no
    node is empty, and the size is within the ceiling. *)
Theorem prefix_free_usage cs :
  Forall (fun c => P (callArg c)) cs ->
  exists s,
    run maxSize maxOffset new cs = Some s /\
    registryMatchesLeaves s /\
    noEmptyNodeIn (cache s) = true /\
    size s <= maxSize + maxOffset.
Proof.
  intros Hcs. destruct (run_consistent cs new Hcs (new_consistent P)) as (s & Hrun & Hs).
  exists s. split; [done|]. destruct (consistent_counts P s Hs) as [H1 H2].
  split; [done|]. split; [done|].
  eapply run_size_bound; [|exact Hrun]. unfold size. simpl. lia.
Qed.

(** And there, at the ceiling, [set] of a sequence that is not stored
    evicts the first registered sequence with the least stamp and registers
    the new one behind the others. *)
Lemma prefix_free_eviction cs s o v :
  Forall (fun c => P (callArg c)) cs ->
  run maxSize maxOffset new cs = Some s ->
  P o -> has s o = false ->
  size s + 1 > maxSize + maxOffset ->
  exists pre k post t s',
    keys s = pre ++ k :: post /\
    stampAt s k = Some t /\
    Forall (fun k' => exists t', stampAt s k' = Some t' /\ t < t') pre /\
    Forall (fun k' => exists t', stampAt s k' = Some t' /\ t <= t') post /\
    set maxSize maxOffset s o v = Some s' /\
    keys s' = List.filter (fun item => negb (sameDerivativeOption item k)) (keys s) ++ [o] /\
    has s' k = false /\ has s' o = true.
Proof.
  intros Hcs Hrun HPo Hhas Hfull.
  destruct (run_consistent cs new Hcs (new_consistent P)) as (s0 & Hrun0 & Hs).
  rewrite Hrun in Hrun0. injection Hrun0 as <-.
  destruct (run_stamps maxSize maxOffset cs new s Hrun new_stamps) as [Hbelow _].
  assert (Hne : keys s <> []).
  { unfold size in Hfull. destruct (keys s); [simpl in Hfull; lia | done]. }
  assert (Hall : Forall (fun k => exists t, stampAt s k = Some t /\ t < cacheCallTimes s)
                   (keys s)).
  { apply List.Forall_forall. intros k Hk. destruct Hs as (_ & _ & Hkeys & _).
    apply Hkeys in Hk as [[theme t] Hk]. exists t. rewrite stampAt_leafAt, Hk.
    split; [done|]. by eapply Hbelow. }
  destruct (set_evicts_oldest maxSize maxOffset s o v Hhas Hfull Hne Hall)
    as (pre & k & post & t & r & s1 & Hks & Hk & Hpre & Hpost & Hdel & Hks1 & Hset).
  eexists pre, k, post, t, _. split; [done|]. split; [done|]. split; [done|].
  split; [done|]. split; [exact Hset|]. simpl. split; [by rewrite Hks1|].
  destruct (set_consistent s o v HPo Hs) as (s' & Hset' & (_ & _ & Hkeys' & _)).
  rewrite Hset in Hset'. injection Hset' as <-. simpl in Hkeys'.
  assert (Hko : k <> o).
  { intros ->. assert (has s o = true) by (apply has_stampAt; rewrite Hk; eauto). congruence. }
  split.
  - destruct (has _ k) eqn:E; [|done]. exfalso.
    apply has_leafAt, Hkeys' in E. simpl in E. rewrite Hks1 in E.
    apply in_app_iff in E as [[_ E]%filter_In|[E|[]]]; [|done].
    assert (sameDerivativeOption k k = true) by by apply sameDerivativeOption_eq.
    rewrite H in E. done.
  - apply has_leafAt, Hkeys'. simpl. apply in_app_iff. right. by left.
Qed.

End PrefixFree.

(** Sequences of one and the same length are such sequences; so are,
    for instance, the one-element sequences of a flat cache. *)
Lemma same_length_prefixFree (n : nat) :
  prefixFree (fun o => length o = S n).
Proof.
  split; [done|]. intros a b Ha Hb [k ->]. rewrite length_app in Hb.
  assert (length k = 0%nat) as ->%length_zero_iff_nil by lia. by rewrite app_nil_r.
Qed.

Lemma flat_usage maxSize maxOffset (cs : list call) :
  1 <= maxSize + maxOffset ->
  Forall (fun c => length (callArg c) = 1%nat) cs ->
  exists s,
    run maxSize maxOffset new cs = Some s /\
    registryMatchesLeaves s /\
    noEmptyNodeIn (cache s) = true /\
    size s <= maxSize + maxOffset.
Proof.
  intros Hlimit Hcs.
  by apply (prefix_free_usage _ maxSize maxOffset (same_length_prefixFree 0) Hlimit).
Qed.

(** *** Stamps, registry and pruning *)

(** C6: every touch -- [get] of a stored sequence, or [set] writing a leaf --
    stamps the leaf with a value strictly greater than every stamp the
    instance has written before: the stamps written by any series of calls
    on a new instance, read back from the touched leaves, are strictly
    increasing. In every instance so reached the stamps in the trie are below
    the counter and differ from leaf to leaf, and a touch writes the counter
    itself and moves it up by one, so the stamps order the leaves by recency.
    And [has] changes neither a stamp nor the counter: it hands the instance
    back as it got it. *)
Theorem stamps_strictly_increase (maxSize maxOffset : Z) (cs : list call) :
  StronglySorted Z.lt (issued maxSize maxOffset new cs) /\
  (forall s, run maxSize maxOffset new cs = Some s ->
     stampsBelow s /\ stampsApart s /\
     (forall o, has s o = true ->
        stampAt (snd (get s o)) o = Some (cacheCallTimes s) /\
        cacheCallTimes (snd (get s o)) = cacheCallTimes s + 1) /\
     (forall o v s', o <> [] -> set maxSize maxOffset s o v = Some s' ->
        stampAt s' o = Some (cacheCallTimes s) /\
        cacheCallTimes s' = cacheCallTimes s + 1)) /\
  (forall s o, hasM s o = (has s o, s)).
Proof.
  destruct (issued_sorted maxSize maxOffset cs new) as [Hge Hsorted].
  split; [done|]. split.
  - intros s Hrun.
    destruct (run_stamps maxSize maxOffset cs new s Hrun new_stamps) as [Hbelow Hapart].
    repeat split; try done.
    + by apply get_touch.
    + by apply get_touch.
    + by eapply set_touch.
    + by eapply set_touch.
  - intros s o. unfold has. rewrite <- (hasM_state s o) at 3. by destruct (hasM s o).
Qed.

(** C1: the registry and the trie do not always agree. Writing [[0]] after
    [[0; 1]] replaces the node of [0] by a bare leaf, so the leaf of
    [[0; 1]] is gone from the trie while [[0; 1]] stays registered: two
    registered sequences, one leaf. *)
Theorem overwrite_drops_registered_leaf :
  exists s,
    run 20 5 new [Set_ [0; 1]%nat 100%nat; Set_ [0]%nat 101%nat] = Some s /\
    keys s = [[0; 1]; [0]]%nat /\
    cache s = [(0%nat, Node None (Some (101%nat, 1)))] /\
    size s = 2 /\
    leavesOf (cache s) = 1%nat /\
    ~ registryMatchesLeaves s.
Proof.
  eexists. split; [vm_compute; reflexivity|]. repeat split. by vm_compute.
Qed.

(** C3: with the default limits, inserting the twenty-six distinct
    sequences [[0; 1]], [[0]], [[2]], ..., [[25]] into a new instance does not
    evict at the twenty-sixth: [[0; 1]] is registered without a leaf, the
    scan for the oldest stamp reads [undefined[1]], and [set] throws,
    leaving the twenty-five registered sequences. The same happens with the
    limits 1 and 1 at the third insertion of [[0; 1]], [[0]], [[2]]. *)
Theorem eviction_scan_throws :
  NoDup twentySix /\ length twentySix = 26%nat /\ Forall (fun o => o <> []) twentySix /\
  (exists s,
     run 20 5 new (inserts 100 (take 25 twentySix)) = Some s /\
     size s = 25 /\
     In [0; 1]%nat (keys s) /\ stampAt s [0; 1]%nat = None /\
     has s [25]%nat = false /\
     set 20 5 s [25]%nat 125%nat = None) /\
  run 20 5 new (inserts 100 twentySix) = None /\
  run 1 1 new (inserts 100 [[0; 1]; [0]; [2]]%nat) = None.
Proof.
  split; [apply (bool_decide_unpack _); by vm_compute|].
  split; [done|].
  split; [apply (bool_decide_unpack _); by vm_compute|].
  split; [|split; by vm_compute].
  eexists. split; [vm_compute; reflexivity|].
  repeat split; try by vm_compute.
  apply (bool_decide_unpack _); by vm_compute.
Qed.

(** C5: an empty node can stay in the trie. After [[0]] and [[0; 1]] are
    stored, deleting [[0; 1]] leaves the node of [0] with its leaf and an
    empty map; deleting [[0]] then keeps [{ map }] because the map is
    there, though it is empty: the node holds neither a child nor a leaf. *)
Theorem delete_keeps_empty_node :
  exists s,
    run 20 5 new
      [Set_ [0]%nat 100%nat; Set_ [0; 1]%nat 101%nat; Delete [0; 1]%nat; Delete [0]%nat]
      = Some s /\
    cache s = [(0%nat, Node (Some []) None)] /\
    keys s = [] /\
    noEmptyNodeIn (cache s) = false.
Proof.
  eexists. split; [vm_compute; reflexivity|]. by repeat split.
Qed.

End ThemeCacheFacts.

(** ** useClientCache: keys, counts and callbacks *)
Module ClientCacheLaws.
Import Strings.Ascii ClientCache ClientCacheFacts ClientCacheUse.
Local Open Scope m_scope.

Lemma quiet_callRemove onCacheRemove payload fromHMR :
  quietRemove onCacheRemove -> quiet (callRemove onCacheRemove payload fromHMR).
Proof.
  intros Hq. destruct onCacheRemove as [f|]; simpl; [by eapply Hq | done].
Qed.

Lemma quiet_factoryOf g : quiet (factoryOf g).
Proof. done. Qed.

Lemma quiet_probe rm : quietRemove (probe <$> rm).
Proof. destruct rm; [|done]. by intros f p b [= <-] w. Qed.

Section Quiet.
Variables development HMRUpdate : bool.
Variable genCache : M jsval.
Variable onCacheRemove : option (jsval -> bool -> M unit).
Hypothesis Hgen : quiet genCache.
Hypothesis Hremove : quietRemove onCacheRemove.

Let acquire := acquire development HMRUpdate genCache onCacheRemove.

(** With such callbacks an acquisition changes the map in one place. *)
Lemma acquire_cache key w :
  exists p,
    eval (acquire key) w = Some p /\
    cache (styleCache (exec (acquire key) w)) =
      <[key := (fst (destructure (cache (styleCache w) !! key)) + 1, p)]>
        (cache (styleCache w)).
Proof.
  unfold acquire, eval, exec. rewrite acquire_exposes. cbv zeta. cbn [fst snd].
  destruct (cache (styleCache w) !! key) as [[n p]|] eqn:H.
  - destruct (truthy p) eqn:Hp.
    + destruct (development && HMRUpdate) eqn:Hon.
      * apply andb_prop in Hon as [-> ->].
        unfold exec. rewrite (acquireEntry_reload _ _ _ _ key w n p); try done.
        cbv zeta.
        pose proof (quiet_callRemove onCacheRemove p true Hremove w) as E1.
        pose proof (Hgen (exec (callRemove onCacheRemove p true) w)) as E2.
        unfold exec in E2 at 1.
        destruct (genCache (exec (callRemove onCacheRemove p true) w)) as [p' w2].
        simpl in *. exists p'. rewrite lookup_insert_eq. split; [done|].
        by rewrite E2, E1.
      * unfold exec. rewrite (acquireEntry_reuse _ _ _ _ key w n p); try done.
        simpl. exists p. by rewrite lookup_insert_eq.
    + unfold exec. rewrite (acquireEntry_falsy _ _ _ _ key w n p); try done.
      pose proof (Hgen w) as E. unfold exec in E.
      destruct (genCache w) as [p' w']. simpl in *. exists p'.
      rewrite lookup_insert_eq. split; [done|]. by rewrite E.
  - unfold exec. rewrite (acquireEntry_create _ _ _ _ key w); try done.
    pose proof (Hgen w) as E. unfold exec in E.
    destruct (genCache w) as [p' w']. simpl in *. exists p'.
    rewrite lookup_insert_eq. split; [done|]. by rewrite E.
Qed.

(** And so does a release. *)
Lemma release_cache key w :
  cache (styleCache (exec (clearCache onCacheRemove key) w)) =
    match cache (styleCache w) !! key with
    | Some (n, p) =>
        if n =? 1 then delete key (cache (styleCache w))
        else <[key := (n - 1, p)]> (cache (styleCache w))
    | None => <[key := (-1, JUndefined)]> (cache (styleCache w))
    end.
Proof.
  destruct (cache (styleCache w) !! key) as [[n p]|] eqn:H.
  - destruct (Z.eqb_spec n 1) as [->|Hn].
    + unfold exec. rewrite (clearCache_last _ key w p H). cbv zeta. simpl.
      by rewrite (quiet_callRemove onCacheRemove p false Hremove w).
    + unfold exec. by rewrite (clearCache_decrement _ key w n p H Hn).
  - unfold exec. by rewrite (clearCache_absent _ key w H).
Qed.

End Quiet.

(** Callbacks that leave the entity alone given, acquiring or releasing
    one key changes the entry of no other key. *)
Theorem other_keys_untouched development HMRUpdate genCache onCacheRemove key other w :
  quiet genCache -> quietRemove onCacheRemove -> other <> key ->
  get (KeyStr other)
      (styleCache (exec (acquire development HMRUpdate genCache onCacheRemove key) w))
    = get (KeyStr other) (styleCache w) /\
  get (KeyStr other) (styleCache (exec (clearCache onCacheRemove key) w))
    = get (KeyStr other) (styleCache w).
Proof.
  intros Hgen Hremove Hne. unfold get. cbn [pathOf]. split.
  - destruct (acquire_cache development HMRUpdate genCache onCacheRemove Hgen Hremove key w)
      as (p & _ & ->). by apply lookup_insert_ne.
  - rewrite (release_cache onCacheRemove Hremove key w).
    destruct (cache (styleCache w) !! key) as [[n p]|].
    + destruct (n =? 1); [by apply lookup_delete_ne | by apply lookup_insert_ne].
    + by apply lookup_insert_ne.
Qed.

Lemma other_keys_untouched_witness :
  get (KeyStr "b")
      (styleCache (exec (acquire true true freshFactory (Some (probe "a")) "a")
                     (worldWith "b" (1, JObj 7))))
    = Some (1, JObj 7).
Proof.
  apply (other_keys_untouched true true freshFactory (Some (probe "a")) "a" "b"
           (worldWith "b" (1, JObj 7))).
  - intros w. reflexivity.
  - intros f p b [= <-] w. reflexivity.
  - discriminate.
Defined.

Lemma usage_positive development HMRUpdate genCache onCacheRemove w w' :
  quiet genCache -> quietRemove onCacheRemove ->
  usage development HMRUpdate genCache onCacheRemove w w' ->
  countsPositive w -> countsPositive w'.
Proof.
  intros Hgen Hremove Hstep Hpos. destruct Hstep as [key w|key [n p] w Hentry].
  - destruct (acquire_cache development HMRUpdate genCache onCacheRemove Hgen Hremove key w)
      as (p & _ & Hc).
    intros k m q. rewrite Hc, lookup_insert. case_decide as Hk; [|apply Hpos].
    intros [= <- _]. destruct (cache (styleCache w) !! key) as [[n0 p0]|] eqn:H0; simpl.
    + specialize (Hpos _ _ _ H0). lia.
    + lia.
  - intros k m q. rewrite (release_cache onCacheRemove Hremove key w), Hentry.
    destruct (Z.eqb_spec n 1) as [->|Hn].
    + rewrite lookup_delete. case_decide; [done | apply Hpos].
    + rewrite lookup_insert. case_decide; [|apply Hpos].
      intros [= <- _]. specialize (Hpos _ _ _ Hentry). lia.
Qed.

(** As long as no key is released without an entry, every entry in the
    map has a count of at least 1, whatever the order of acquisitions and
    releases and whatever the mode: an entry is there exactly while it is
    held. *)
Theorem counts_stay_positive development HMRUpdate genCache onCacheRemove w :
  quiet genCache -> quietRemove onCacheRemove ->
  rtc (usage development HMRUpdate genCache onCacheRemove) emptyWorld w ->
  countsPositive w.
Proof.
  intros Hgen Hremove Hrun.
  assert (Hstart : countsPositive emptyWorld).
  { intros k n p. simpl. by rewrite lookup_empty. }
  revert Hstart. induction Hrun as [|w0 w1 w2 Hstep _ IH]; [done|].
  intros H0. apply IH. by eapply usage_positive.
Qed.

Lemma counts_stay_positive_witness :
  countsPositive (exec (acquire true true freshFactory (Some (probe "a")) "a") emptyWorld).
Proof.
  apply (counts_stay_positive true true freshFactory (Some (probe "a"))).
  - intros w. reflexivity.
  - intros f p b [= <-] w. reflexivity.
  - apply rtc_once. apply UseAcquire.
Defined.

(** Mounting on a key that has no entry and unmounting again leaves
    the map as it was; the factory runs once, and the disposal callback is
    then given the very payload the factory returned, with the flag off,
    while the entry is still stored with count 1. *)
Theorem mount_unmount_round_trip development HMRUpdate g key w :
  cache (styleCache w) !! key = None ->
  let mounted := exec (watcher development HMRUpdate (factoryOf g) (Some (probe key)) key None) w in
  let unmounted := exec (unmount (Some (probe key)) key) mounted in
  eval (watcher development HMRUpdate (factoryOf g) (Some (probe key)) key None) w
    = Some (g w) /\
  get (KeyStr key) (styleCache mounted) = Some (1, g w) /\
  cache (styleCache unmounted) = cache (styleCache w) /\
  log unmounted = log w ++ [EvGen (g w); EvRemove (g w) false (Some (1, g w))].
Proof.
  intros H. cbv zeta.
  set (w1 := set_cache (emit (EvGen (g w)) (alloc w))
               (<[key := (1, g w)]> (cache (styleCache w)))).
  assert (E : watcher development HMRUpdate (factoryOf g) (Some (probe key)) key None w
              = (Some (g w), w1)).
  { rewrite watcher_immediate, acquire_exposes. cbv zeta.
    unfold exec. rewrite (acquireEntry_create _ _ _ _ key w H).
    unfold factoryOf. cbn [fst snd]. fold w1. f_equal.
    unfold w1. simpl. by rewrite lookup_insert_eq. }
  assert (H1 : cache (styleCache w1) !! key = Some (1, g w)).
  { unfold w1. simpl. apply lookup_insert_eq. }
  assert (Ex : exec (watcher development HMRUpdate (factoryOf g) (Some (probe key)) key None) w
               = w1) by (unfold exec; by rewrite E).
  rewrite Ex. unfold eval. rewrite E. cbn [fst].
  split; [done|]. split; [done|].
  unfold unmount, exec. rewrite (clearCache_last _ key w1 (g w) H1). cbv zeta.
  simpl. unfold get. simpl. rewrite lookup_insert_eq. split.
  - rewrite delete_insert_eq. by apply delete_id.
  - by rewrite <- app_assoc.
Qed.

Lemma mount_unmount_round_trip_witness :
  cache (styleCache emptyWorld) !! "k" = None /\
  log (exec (unmount (Some (probe "k")) "k")
         (exec (watcher false false freshFactory (Some (probe "k")) "k" None) emptyWorld))
    = [EvGen (JObj 0); EvRemove (JObj 0) false (Some (1, JObj 0))].
Proof.
  split; [reflexivity|].
  apply (mount_unmount_round_trip false false (fun w => JObj (heapNext w)) "k" emptyWorld).
  reflexivity.
Defined.

(** A change of key while the previous key is held once and the new
    one has no entry: the previous payload is disposed of first, the
    factory runs after that, the previous entry is gone and the new one is
    stored with count 1 and exposed. *)
Theorem key_change_disposes_first development HMRUpdate g oldStr newStr w p :
  oldStr <> "" -> newStr <> oldStr ->
  cache (styleCache w) !! oldStr = Some (1, p) ->
  cache (styleCache w) !! newStr = None ->
  let run := watcher development HMRUpdate (factoryOf g) (Some (probe oldStr)) newStr
               (Some oldStr) in
  exists p',
    eval run w = Some p' /\
    log (exec run w) = log w ++ [EvRemove p false (Some (1, p)); EvGen p'] /\
    cache (styleCache (exec run w)) = <[newStr := (1, p')]> (delete oldStr (cache (styleCache w))).
Proof.
  intros Hold Hne H Hnew. cbv zeta.
  set (w1 := exec (clearCache (Some (probe oldStr)) oldStr) w).
  assert (E1 : w1 = set_cache (emit (EvRemove p false (Some (1, p))) w)
                      (delete oldStr (cache (styleCache w)))).
  { unfold w1, exec. rewrite (clearCache_last _ oldStr w p H). cbv zeta.
    unfold callRemove, probe, exec, get. cbn [fst snd pathOf]. rewrite H. done. }
  assert (H1 : cache (styleCache w1) !! newStr = None).
  { rewrite E1. simpl. by rewrite lookup_delete_ne. }
  exists (g w1). unfold eval, exec.
  rewrite (watcher_change _ _ _ _ newStr oldStr w Hold). fold w1.
  rewrite acquire_exposes. cbv zeta.
  unfold exec. rewrite (acquireEntry_create _ _ _ _ newStr w1 H1).
  unfold factoryOf. cbn [fst snd]. simpl. rewrite lookup_insert_eq.
  split; [done|]. rewrite E1. simpl. by rewrite <- app_assoc.
Qed.

Lemma key_change_disposes_first_witness :
  exists p',
    log (exec (watcher false false freshFactory (Some (probe "a")) "b" (Some "a"))
           (worldWith "a" (1, JObj 7)))
      = [EvRemove (JObj 7) false (Some (1, JObj 7)); EvGen p'].
Proof.
  destruct (key_change_disposes_first false false (fun w => JObj (heapNext w)) "a" "b"
              (worldWith "a" (1, JObj 7)) (JObj 7))
    as (p' & _ & Hlog & _); [discriminate | discriminate | reflexivity | reflexivity |].
  exists p'. exact Hlog.
Defined.

(** A count at or below 0 only goes further down: however often the
    key is released after that, the disposal callback is not called and the
    entry is not removed. *)
Theorem release_below_one_never_disposes onCacheRemove key k : forall w n p,
  cache (styleCache w) !! key = Some (n, p) -> n <= 0 ->
  exec (nTimes k (clearCache onCacheRemove key)) w =
    match k with
    | O => w
    | S _ => set_cache w (<[key := (n - Z.of_nat k, p)]> (cache (styleCache w)))
    end.
Proof.
  induction k as [|k IH]; intros w n p H Hn; [done|].
  rewrite exec_times_S.
  assert (E : exec (clearCache onCacheRemove key) w =
              set_cache w (<[key := (n - 1, p)]> (cache (styleCache w)))).
  { unfold exec. by rewrite (clearCache_decrement _ key w n p H) by lia. }
  rewrite E. rewrite (IH _ (n - 1) p); [|by simpl; rewrite lookup_insert_eq|lia].
  destruct k as [|k]; [done|].
  unfold set_cache, with_cache. simpl. rewrite insert_insert_eq.
  do 4 f_equal. lia.
Qed.

Lemma release_below_one_never_disposes_witness :
  log (exec (nTimes 3 (clearCache (Some (probe "k")) "k")) (worldWith "k" (0, JObj 7))) = [] /\
  get (KeyStr "k")
    (styleCache (exec (nTimes 3 (clearCache (Some (probe "k")) "k")) (worldWith "k" (0, JObj 7))))
    = Some (-3, JObj 7).
Proof.
  rewrite (release_below_one_never_disposes (Some (probe "k")) "k" 3
             (worldWith "k" (0, JObj 7)) 0 (JObj 7)); [|reflexivity|lia].
  split; reflexivity.
Defined.

Lemma append_split a : forall b ra rb,
  noSplit a = true -> noSplit b = true ->
  (a ++ String "%"%char ra = b ++ String "%"%char rb)%string -> a = b /\ ra = rb.
Proof.
  induction a as [|c a IH]; intros [|d b] ra rb Ha Hb; simpl in *.
  - by intros [= ->].
  - intros [= <- _]. by rewrite Strings.Ascii.eqb_refl in Hb.
  - intros [= -> _]. by rewrite Strings.Ascii.eqb_refl in Ha.
  - intros [= -> E]. apply andb_prop in Ha as [_ Ha]. apply andb_prop in Hb as [_ Hb].
    destruct (IH b ra rb Ha Hb E) as [-> ->]. done.
Qed.

Lemma append_no_split a : forall b r,
  noSplit b = true -> (a ++ String "%"%char r)%string <> b.
Proof.
  induction a as [|c a IH]; intros [|d b] r Hb; simpl in *; try done.
  - intros [= <- _]. by rewrite Strings.Ascii.eqb_refl in Hb.
  - intros [= _ E]. apply andb_prop in Hb as [_ Hb]. by apply (IH b r Hb).
Qed.

Lemma concat_cons (x : string) xs :
  String.concat "%" (x :: xs) =
    match xs with
    | [] => x
    | _ :: _ => (x ++ String "%"%char (String.concat "%" xs))%string
    end.
Proof. by destruct xs. Qed.

Lemma join_injective xs : forall x y ys,
  forallb noSplit (x :: xs) = true -> forallb noSplit (y :: ys) = true ->
  String.concat "%" (x :: xs) = String.concat "%" (y :: ys) ->
  x :: xs = y :: ys.
Proof.
  induction xs as [|x' xs IH]; intros x y [|y' ys] Hx Hy; rewrite !concat_cons.
  - by intros ->.
  - intros E. cbn [forallb] in Hx. apply andb_prop in Hx as [Hx _].
    by destruct (append_no_split _ _ _ Hx (eq_sym E)).
  - intros E. cbn [forallb] in Hy. apply andb_prop in Hy as [Hy _].
    by destruct (append_no_split _ _ _ Hy E).
  - intros E. cbn [forallb] in Hx, Hy.
    apply andb_prop in Hx as [Hx Hxs]. apply andb_prop in Hy as [Hy Hys].
    destruct (append_split _ _ _ _ Hx Hy E) as [-> E'].
    f_equal. by apply IH.
Qed.

(** As long as no segment holds a ['%'], different prefixes or key
    arrays give different complete keys, hence different entries. *)
Theorem completeKey_injective prefix1 arr1 prefix2 arr2 :
  forallb noSplit (prefix1 :: arr1) = true ->
  forallb noSplit (prefix2 :: arr2) = true ->
  completeKey prefix1 arr1 = completeKey prefix2 arr2 ->
  prefix1 = prefix2 /\ arr1 = arr2.
Proof.
  intros H1 H2 E. unfold completeKey in E.
  by injection (join_injective _ _ _ _ H1 H2 E) as -> ->.
Qed.

Lemma completeKey_injective_witness :
  completeKey "style" ["a"; "b"] = completeKey "style" ["a"; "b"] /\
  ("style" = "style" /\ ["a"; "b"] = ["a"; "b"]).
Proof.
  split; [reflexivity|].
  apply (completeKey_injective "style" ["a"; "b"] "style" ["a"; "b"]); reflexivity.
Defined.

(** The complete key is the empty string only for an empty prefix with
    no keys, and a previous key that is the empty string is not released at
    a change of key: its entry stays as it is, count included. *)
Theorem empty_key_not_released development HMRUpdate genCache onCacheRemove newStr w :
  quiet genCache -> quietRemove onCacheRemove -> newStr <> "" ->
  (forall prefix arr, completeKey prefix arr = "" <-> prefix = "" /\ arr = []) /\
  get (KeyStr "")
      (styleCache (exec (watcher development HMRUpdate genCache onCacheRemove newStr (Some "")) w))
    = get (KeyStr "") (styleCache w).
Proof.
  intros Hgen Hremove Hne. split.
  - intros prefix arr. unfold completeKey. rewrite concat_cons. split.
    + destruct arr as [|a arr]; [done|]. by destruct prefix.
    + by intros [-> ->].
  - assert (E : watcher development HMRUpdate genCache onCacheRemove newStr (Some "") w
                = acquire development HMRUpdate genCache onCacheRemove newStr w) by done.
    unfold exec. rewrite E. unfold get. cbn [pathOf].
    destruct (acquire_cache development HMRUpdate genCache onCacheRemove Hgen Hremove newStr w)
      as (p & _ & Hc).
    unfold exec in Hc. rewrite Hc. by apply lookup_insert_ne.
Qed.

Lemma empty_key_not_released_witness :
  get (KeyStr "")
      (styleCache (exec (watcher false false freshFactory (Some (probe "")) "b" (Some ""))
                     (worldWith "" (1, JObj 7))))
    = Some (1, JObj 7).
Proof.
  apply (empty_key_not_released false false freshFactory (Some (probe "")) "b"
           (worldWith "" (1, JObj 7))).
  - intros w. reflexivity.
  - intros f p b [= <-] w. reflexivity.
  - discriminate.
Defined.

End ClientCacheLaws.

(** ** ThemeCache: reading, writing and deleting together *)
Module ThemeCacheLaws.
Import ThemeCache ThemeCacheFacts.

(** *** What the single operations do to the leaves *)

Lemma set_find maxSize maxOffset s o v s' :
  o <> [] ->
  set maxSize maxOffset s o v = Some s' ->
  exists stamp, find (cache s') o = Some (Node None (Some (v, stamp))).
Proof.
  intros Ho. unfold set.
  destruct (register maxSize maxOffset s o) as [s2|]; [|done]. intros [= <-].
  exists (cacheCallTimes s2). simpl. by apply find_store.
Qed.

Lemma get_found s o sub theme stamp :
  find (cache s) o = Some (Node sub (Some (theme, stamp))) ->
  fst (get s o) = Some theme.
Proof. intros Hfind. unfold get, internalGet. by rewrite Hfind. Qed.

Lemma get_none s o : has s o = false -> get s o = (None, s).
Proof.
  unfold has, hasM, get, internalGet.
  by destruct (find (cache s) o) as [[sub [[theme stamp]|]]|].
Qed.

Lemma get_keys s o : keys (snd (get s o)) = keys s.
Proof.
  unfold get, internalGet.
  by destruct (find (cache s) o) as [[sub [[theme stamp]|]]|].
Qed.

Lemma get_themes s o o' :
  fst <$> leafAt (cache (snd (get s o))) o' = fst <$> leafAt (cache s) o'.
Proof.
  destruct (has s o) eqn:Hhas; [|by rewrite get_miss].
  assert (Hhit := Hhas). apply has_leafAt in Hhit as [[theme old] Hleaf].
  apply has_find in Hhas as (sub & theme' & stamp & Hfind).
  unfold get, internalGet. rewrite Hfind. simpl.
  destruct (decide (o' = o)) as [->|Hne].
  - by rewrite (leafAt_restamp_same _ _ _ _ _ Hleaf), Hleaf.
  - by rewrite leafAt_restamp_other.
Qed.

Lemma get_stamp_other s o o' :
  o' <> o -> stampAt (snd (get s o)) o' = stampAt s o'.
Proof.
  intros Hne. rewrite !stampAt_leafAt.
  destruct (has s o) eqn:Hhas; [|by rewrite get_miss].
  apply has_find in Hhas as (sub & theme & stamp & Hfind).
  unfold get, internalGet. rewrite Hfind. simpl. by rewrite leafAt_restamp_other.
Qed.

Lemma delete_leaf_other s o r s' o' :
  delete s o = Some (r, s') -> o' <> o ->
  leafAt (cache s') o' = leafAt (cache s) o'.
Proof.
  intros Hdel Hne. revert Hdel. unfold delete. destruct (has s o); [|by intros [= _ <-]].
  destruct (deleteByPath (cache s) o) as [[res c']|] eqn:Hpath; [|done].
  intros [= _ <-]. simpl. by apply (leafAt_deleteByPath_eq _ _ _ _ Hpath).
Qed.

Lemma has_same_leaf s s' o :
  leafAt (cache s') o = leafAt (cache s) o -> has s' o = has s o.
Proof.
  intros Hleaf. apply Bool.eq_true_iff_eq. by rewrite !has_leafAt, Hleaf.
Qed.

Lemma set_nil_keys maxSize maxOffset s v s' :
  set maxSize maxOffset s [] v = Some s' -> In [] (keys s').
Proof.
  unfold set, register. change (has s []) with false. cbv iota.
  destruct (makeRoom maxSize maxOffset s) as [s1|]; [|done].
  intros [= <-]. simpl. apply in_app_iff. right. by left.
Qed.

(** Every leaf found after [set] is the one it wrote or was there before. *)
Lemma set_leaf_origin maxSize maxOffset s p v s' o x :
  set maxSize maxOffset s p v = Some s' ->
  leafAt (cache s') o = Some x ->
  (o = p /\ fst x = v) \/ leafAt (cache s) o = Some x.
Proof.
  unfold set. destruct (register maxSize maxOffset s p) as [s2|] eqn:Hreg; [|done].
  intros [= <-]. simpl. intros Hleaf.
  assert (H2 : forall y, leafAt (cache s2) o = Some y -> leafAt (cache s) o = Some y).
  { intros y. revert Hreg. unfold register. destruct (has s p); [by intros [= <-]|].
    destruct (makeRoom maxSize maxOffset s) as [s1|] eqn:Hroom; [|done].
    intros [= <-]. simpl. revert Hroom. unfold makeRoom.
    destruct (_ >? _); [|by intros [= <-]].
    destruct (evictionTarget s) as [[[k|] t]|]; try done.
    destruct (delete s k) as [[r s1']|] eqn:Hdel; [|done]. simpl. intros [= <-].
    revert Hdel. unfold delete. destruct (has s k); [|by intros [= _ <-]].
    destruct (deleteByPath (cache s) k) as [[res c']|] eqn:Hpath; [|done].
    intros [= _ <-]. simpl. by apply leafAt_deleteByPath with (path := k) (r := res). }
  destruct p as [|d p]; [right; by apply H2|].
  destruct (decide (o = d :: p)) as [->|Hne].
  - left. rewrite leafAt_store_same in Hleaf by done. by injection Hleaf as <-.
  - right. apply H2. by eapply leafAt_store_other.
Qed.

Lemma scan_throws s k ks : forall acc,
  In k ks -> stampAt s k = None -> fold_left (reduceStep s) ks acc = None.
Proof.
  induction ks as [|k0 ks IH]; intros acc Hin Hk; [done|]. cbn [fold_left].
  destruct Hin as [->|Hin]; [|by apply IH].
  destruct acc as [[target c]|]; [|apply reduce_none].
  rewrite reduceStep_stamp, Hk. apply reduce_none.
Qed.

(** *** Storing and reading back *)

(** What [set] has stored, [has] finds and [get] returns, in any instance
    and whatever was evicted or overwritten on the way. *)
Theorem set_then_get maxSize maxOffset s o v s' :
  o <> [] ->
  set maxSize maxOffset s o v = Some s' ->
  has s' o = true /\ fst (get s' o) = Some v.
Proof.
  intros Ho Hset. destruct (set_find _ _ _ _ _ _ Ho Hset) as [stamp Hfind]. split.
  - apply has_find. eauto.
  - by eapply get_found.
Qed.

Lemma set_then_get_witness :
  [0; 1]%nat <> [] /\
  (exists s', set 20 5 new [0; 1]%nat 7%nat = Some s' /\ fst (get s' [0; 1]%nat) = Some 7%nat).
Proof.
  split; [discriminate|].
  eexists. split; [vm_compute; reflexivity|].
  eapply (set_then_get 20 5 new [0; 1]%nat 7%nat); [discriminate | vm_compute; reflexivity].
Defined.

(** A second [set] of the same sequence does not throw, leaves the
    registry and the size as they are, and replaces the value. *)
Theorem set_again maxSize maxOffset s o v1 v2 s1 :
  o <> [] ->
  set maxSize maxOffset s o v1 = Some s1 ->
  exists s2,
    set maxSize maxOffset s1 o v2 = Some s2 /\
    keys s2 = keys s1 /\ size s2 = size s1 /\
    fst (get s2 o) = Some v2.
Proof.
  intros Ho Hset1.
  destruct (set_find _ _ _ _ _ _ Ho Hset1) as [stamp Hfind].
  assert (Hhas : has s1 o = true) by (apply has_find; eauto).
  pose proof (set_stored maxSize maxOffset s1 o v2 Hhas) as Hset2.
  eexists. split; [exact Hset2|]. split; [done|]. split; [done|].
  destruct (set_find _ _ _ _ _ _ Ho Hset2) as [stamp2 Hfind2]. by eapply get_found.
Qed.

Lemma set_again_witness :
  [0]%nat <> [] /\
  set 2 1 new [0]%nat 7%nat
    = Some {| cache := [(0%nat, Node None (Some (7%nat, 0)))]; keys := [[0%nat]];
              cacheCallTimes := 1 |} /\
  exists s2,
    set 2 1 {| cache := [(0%nat, Node None (Some (7%nat, 0)))]; keys := [[0%nat]];
               cacheCallTimes := 1 |} [0]%nat 8%nat = Some s2 /\
    keys s2 = [[0%nat]].
Proof.
  split; [discriminate|]. split; [reflexivity|].
  destruct (set_again 2 1 new [0]%nat 7%nat 8%nat
              {| cache := [(0%nat, Node None (Some (7%nat, 0)))]; keys := [[0%nat]];
                 cacheCallTimes := 1 |}) as (s2 & H1 & H2 & _); [discriminate | reflexivity |].
  exists s2. split; [exact H1 | exact H2].
Defined.

(** After [set] of a sequence that is not empty, no longer sequence that
    begins with it is stored any more, whatever was stored before; one that
    was registered stays registered. *)
Theorem set_hides_extensions maxSize maxOffset s o below v s' :
  o <> [] -> below <> [] ->
  set maxSize maxOffset s o v = Some s' ->
  has s' (o ++ below) = false /\
  fst (get s' (o ++ below)) = None /\
  (has s o = true -> In (o ++ below) (keys s) -> In (o ++ below) (keys s')).
Proof.
  intros Ho Hbelow Hset.
  assert (Hhas : has s' (o ++ below) = false) by by eapply set_drops_extensions.
  split; [done|]. split; [by rewrite get_none|].
  intros Hstored Hin. rewrite (set_stored maxSize maxOffset s o v Hstored) in Hset.
  by injection Hset as <-.
Qed.

Lemma set_hides_extensions_witness :
  let s := {| cache := [(0%nat, Node (Some [(1%nat, Node None (Some (8%nat, 0)))]) None)];
              keys := [[0; 1]]%nat; cacheCallTimes := 1 |} in
  [0]%nat <> [] /\ [1]%nat <> [] /\
  exists s', set 20 5 s [0]%nat 7%nat = Some s' /\ has s' ([0] ++ [1])%nat = false.
Proof.
  intros s. split; [discriminate|]. split; [discriminate|].
  eexists. split; [vm_compute; reflexivity|].
  eapply (set_hides_extensions 20 5 s [0]%nat [1]%nat 7%nat);
    [discriminate | discriminate | vm_compute; reflexivity].
Defined.

(** *** Deleting *)

(** [delete] of a stored sequence returns its theme, takes the sequence
    out of the registry and its leaf out of the trie, and leaves the counter;
    [delete] of a sequence that is not stored returns [undefined] and
    changes nothing. It never throws. *)
Theorem delete_removes s o :
  (has s o = true ->
   exists theme stamp s',
     leafAt (cache s) o = Some (theme, stamp) /\
     delete s o = Some (Some theme, s') /\
     has s' o = false /\ ~ In o (keys s') /\
     keys s' = List.filter (fun item => negb (sameDerivativeOption item o)) (keys s) /\
     cacheCallTimes s' = cacheCallTimes s) /\
  (has s o = false -> delete s o = Some (None, s)).
Proof.
  split; intros Hhas; [|unfold delete; by rewrite Hhas].
  assert (Hfind := Hhas). apply has_find in Hfind as (sub & theme & stamp & Hfind).
  destruct (deleteByPath_total _ _ _ _ _ Hfind) as [m' Hdel].
  destruct (leafAt_deleteByPath_eq _ _ _ _ Hdel) as [Hgone _].
  exists theme, stamp. eexists. split; [unfold leafAt; by rewrite Hfind|].
  split; [unfold delete; by rewrite Hhas, Hdel|]. simpl.
  split; [|split; [|done]].
  - apply not_true_is_false. intros E. apply has_leafAt in E as [? E].
    cbn [cache] in E. rewrite Hgone in E. done.
  - intros [_ E]%filter_In.
    assert (sameDerivativeOption o o = true) by by apply sameDerivativeOption_eq.
    rewrite H in E. done.
Qed.

(** [delete] changes no other leaf: what [has] answers for any other
    sequence is as before, sequences below the deleted one included. *)
Theorem delete_keeps_others s o r s' o' :
  delete s o = Some (r, s') ->
  o' <> o ->
  leafAt (cache s') o' = leafAt (cache s) o' /\ has s' o' = has s o'.
Proof.
  intros Hdel Hne.
  assert (Hleaf : leafAt (cache s') o' = leafAt (cache s) o')
    by by eapply delete_leaf_other.
  split; [done | by apply has_same_leaf].
Qed.

Lemma delete_keeps_others_witness :
  let s := {| cache := [(0%nat, Node (Some [(1%nat, Node None (Some (8%nat, 1)))])
                                   (Some (7%nat, 0)))];
              keys := [[0]; [0; 1]]%nat; cacheCallTimes := 2 |} in
  (exists r s', delete s [0]%nat = Some (r, s') /\ has s' [0; 1]%nat = has s [0; 1]%nat) /\
  [0; 1]%nat <> [0]%nat.
Proof.
  intros s. split; [|discriminate].
  destruct (delete_total s [0]%nat) as (r & s' & Hdel).
  exists r, s'. split; [exact Hdel|].
  eapply (delete_keeps_others s [0]%nat r s' [0; 1]%nat); [exact Hdel | discriminate].
Defined.

(** *** Reading *)

(** [get] changes neither the registry nor any stored theme, only the
    stamp of the leaf it reads; a miss returns [undefined] and leaves the
    instance as it is. *)
Theorem get_keeps_themes s o :
  keys (snd (get s o)) = keys s /\
  (forall o', fst <$> leafAt (cache (snd (get s o))) o' = fst <$> leafAt (cache s) o') /\
  (forall o', has (snd (get s o)) o' = has s o') /\
  (forall o', o' <> o -> stampAt (snd (get s o)) o' = stampAt s o') /\
  (has s o = false -> get s o = (None, s)).
Proof.
  split; [apply get_keys|]. split; [apply get_themes|].
  split; [|split; [apply get_stamp_other | apply get_none]].
  intros o'. pose proof (get_themes s o o') as Hleaf. apply Bool.eq_true_iff_eq.
  rewrite !has_leafAt.
  destruct (leafAt (cache (snd (get s o))) o'), (leafAt (cache s) o');
    simpl in Hleaf; try done; split; eauto.
Qed.

(** *** The empty sequence *)

(** No instance has a leaf for the empty sequence: [has] answers [false]
    and [get] [undefined]. A [set] of it that returns has registered it all
    the same -- once more at every call --, written no leaf and left the
    counter. *)
Theorem empty_sequence maxSize maxOffset s :
  has s [] = false /\ get s [] = (None, s) /\
  (forall v s', set maxSize maxOffset s [] v = Some s' ->
     has s' [] = false /\ In [] (keys s') /\ cacheCallTimes s' = cacheCallTimes s /\
     (size s + 1 <= maxSize + maxOffset -> keys s' = keys s ++ [[]])).
Proof.
  split; [done|]. split; [done|]. intros v s' Hset. split; [done|].
  split; [by eapply set_nil_keys|].
  split; [by eapply set_nil_counter|].
  intros Hroom. rewrite set_below_ceiling in Hset by done. by injection Hset as <-.
Qed.

(** *** When [set] throws *)

(** As soon as one registered sequence has no leaf, every [set] of a
    sequence that is not stored throws once the ceiling is reached. *)
Theorem set_throws_on_lost_leaf maxSize maxOffset s k o v :
  In k (keys s) -> has s k = false ->
  has s o = false ->
  size s + 1 > maxSize + maxOffset ->
  set maxSize maxOffset s o v = None.
Proof.
  intros Hk Hlost Ho Hfull. unfold set, register, makeRoom. rewrite Ho.
  replace (size s + 1 >? maxSize + maxOffset) with true
    by (symmetry; rewrite Z.gtb_ltb; apply Z.ltb_lt; lia).
  assert (Hstamp : stampAt s k = None).
  { destruct (stampAt s k) eqn:E; [|done].
    assert (has s k = true) by (apply has_stampAt; eauto). congruence. }
  unfold evictionTarget. by rewrite (scan_throws s k (keys s) _ Hk Hstamp).
Qed.

Lemma set_throws_on_lost_leaf_witness :
  let s := {| cache := [(0%nat, Node None (Some (8%nat, 1)))];
              keys := [[0; 1]; [0]]%nat; cacheCallTimes := 2 |} in
  In [0; 1]%nat (keys s) /\ has s [0; 1]%nat = false /\ has s [2]%nat = false /\
  size s + 1 > 1 + 0 /\ set 1 0 s [2]%nat 9%nat = None.
Proof.
  intros s. split; [by left|]. split; [reflexivity|]. split; [reflexivity|].
  split; [reflexivity|].
  apply (set_throws_on_lost_leaf 1 0 s [0; 1]%nat [2]%nat 9%nat);
    [by left | reflexivity | reflexivity | reflexivity].
Defined.

(** With a ceiling below 1 nothing can be stored: on a new instance
    [set] throws for every sequence, [this.keys[0]] being [undefined]. *)
Theorem set_throws_below_one maxSize maxOffset o v :
  maxSize + maxOffset < 1 ->
  set maxSize maxOffset new o v = None.
Proof.
  intros Hlim. unfold set, register, makeRoom.
  assert (Hnew : has new o = false).
  { destruct (has new o) eqn:E; [|done].
    apply has_leafAt in E as [x E]. simpl in E. by rewrite leafAt_empty in E. }
  rewrite Hnew.
  replace (size new + 1 >? maxSize + maxOffset) with true
    by (symmetry; rewrite Z.gtb_ltb; apply Z.ltb_lt; change (size new) with 0; lia).
  done.
Qed.

Lemma set_throws_below_one_witness :
  0 + 0 < 1 /\ set 0 0 new [0]%nat 7%nat = None.
Proof.
  split; [reflexivity|]. apply (set_throws_below_one 0 0 [0]%nat 7%nat). reflexivity.
Defined.

(** *** What [set] leaves alone *)

(** [set] changes no leaf but the one it writes, those below it, and the
    leaf of the sequence it evicts. *)
Theorem set_keeps_others maxSize maxOffset s p v s' o :
  set maxSize maxOffset s p v = Some s' ->
  o <> p -> ~ p `prefix_of` o ->
  leafAt (cache s') o = leafAt (cache s) o \/
  (has s p = false /\ size s + 1 > maxSize + maxOffset /\
   exists t, evictionTarget s = Some (Some o, t)).
Proof.
  intros Hset Hne Hpre. revert Hset. unfold set.
  destruct (register maxSize maxOffset s p) as [s2|] eqn:Hreg; [|done].
  intros [= <-]. simpl. rewrite leafAt_store_apart by done.
  revert Hreg. unfold register. destruct (has s p); [intros [= <-]; by left|].
  destruct (makeRoom maxSize maxOffset s) as [s1|] eqn:Hroom; [|done].
  intros [= <-]. simpl. revert Hroom. unfold makeRoom.
  destruct (Z.gtb_spec (size s + 1) (maxSize + maxOffset)) as [Hfull|Hfree];
    [|intros [= <-]; by left].
  destruct (evictionTarget s) as [[[k|] t]|]; try done.
  destruct (delete s k) as [[r s1']|] eqn:Hdel; [|done]. simpl. intros [= <-].
  destruct (decide (o = k)) as [->|Hk].
  - right. split; [done|]. split; [lia|]. eauto.
  - left. by apply (delete_leaf_other s k r s1' o).
Qed.

Lemma set_keeps_others_witness :
  set 20 5 new [0]%nat 7%nat
    = Some {| cache := [(0%nat, Node None (Some (7%nat, 0)))]; keys := [[0%nat]];
              cacheCallTimes := 1 |} /\
  [1]%nat <> [0]%nat /\ ~ [0]%nat `prefix_of` [1]%nat /\
  leafAt [(0%nat, Node None (Some (7%nat, 0)))] [1]%nat = None.
Proof.
  split; [reflexivity|]. split; [discriminate|].
  assert (Hpre : ~ [0]%nat `prefix_of` [1]%nat) by (intros [k Hk]; discriminate).
  split; [exact Hpre|].
  assert (Hne : [1]%nat <> [0]%nat) by discriminate.
  destruct (set_keeps_others 20 5 new [0]%nat 7%nat
              {| cache := [(0%nat, Node None (Some (7%nat, 0)))]; keys := [[0%nat]];
                 cacheCallTimes := 1 |} [1]%nat eq_refl Hne Hpre) as [H|(_ & H & _)];
    [exact H | exfalso; vm_compute in H; discriminate H].
Defined.

(** *** Recency *)

(** In an instance whose registered sequences all have a leaf stamped
    below the counter, [get] of a registered sequence takes it out of the
    line of fire: if any other sequence is registered, the next eviction
    picks one of the others. *)
Theorem get_protects_from_eviction s o k :
  Forall (fun k => exists t, stampAt s k = Some t /\ t < cacheCallTimes s) (keys s) ->
  In o (keys s) -> In k (keys s) -> k <> o ->
  exists k' t',
    evictionTarget (snd (get s o)) = Some (Some k', t') /\
    k' <> o /\ In k' (keys s) /\ stampAt s k' = Some t'.
Proof.
  intros Hall Ho Hk Hne.
  rewrite List.Forall_forall in Hall.
  assert (Hhas : has s o = true).
  { destruct (Hall o Ho) as (t & Ht & _). apply has_stampAt. rewrite Ht. eauto. }
  destruct (get_touch s o Hhas) as [Hstamp Hcounter].
  pose proof (get_keys s o) as Hkeys.
  pose proof (get_stamp_other s o) as Hother.
  set (s' := snd (get s o)) in *.
  destruct (evictionTarget_oldest s') as (pre & k' & post & t' & Hks & Htarget & Hk' & Hpre & Hpost).
  - rewrite Hkeys. by destruct (keys s).
  - rewrite Hkeys. apply List.Forall_forall. intros k0 Hk0.
    destruct (decide (k0 = o)) as [->|Hk0o].
    + exists (cacheCallTimes s). split; [done | lia].
    + destruct (Hall k0 Hk0) as (t & Ht & Hlt). exists t. rewrite Hother by done.
      split; [done | lia].
  - assert (Hk'o : k' <> o).
    { intros ->. rewrite Hstamp in Hk'. injection Hk' as <-.
      rewrite Hkeys in Hks.
      destruct (Hall k Hk) as (t & Ht & Hlt). rewrite Hks in Hk.
      rewrite List.Forall_forall in Hpre, Hpost.
      apply in_app_iff in Hk as [Hk|[Hk|Hk]]; [|done|].
      - destruct (Hpre k Hk) as (t1 & Ht1 & Hlt1). rewrite Hother, Ht in Ht1 by done.
        injection Ht1 as <-. lia.
      - destruct (Hpost k Hk) as (t1 & Ht1 & Hlt1). rewrite Hother, Ht in Ht1 by done.
        injection Ht1 as <-. lia. }
    exists k', t'. split; [done|]. split; [done|].
    split; [rewrite <- Hkeys, Hks; apply in_app_iff; right; by left|].
    by rewrite <- Hother.
Qed.

Lemma get_protects_from_eviction_witness :
  let s := {| cache := [(0%nat, Node None (Some (7%nat, 0)));
                        (1%nat, Node None (Some (8%nat, 1)))];
              keys := [[0]; [1]]%nat; cacheCallTimes := 2 |} in
  Forall (fun k => exists t, stampAt s k = Some t /\ t < cacheCallTimes s) (keys s) /\
  In [0]%nat (keys s) /\ In [1]%nat (keys s) /\ [1]%nat <> [0]%nat /\
  exists k' t', evictionTarget (snd (get s [0]%nat)) = Some (Some k', t') /\ k' <> [0]%nat.
Proof.
  intros s.
  assert (Hall : Forall (fun k => exists t, stampAt s k = Some t /\ t < cacheCallTimes s)
                   (keys s)).
  { repeat constructor; [exists 0 | exists 1]; split; reflexivity. }
  split; [exact Hall|]. split; [by left|]. split; [right; by left|].
  split; [discriminate|].
  destruct (get_protects_from_eviction s [0]%nat [1]%nat Hall)
    as (k' & t' & H1 & H2 & _); [by left | right; by left | discriminate |].
  exists k', t'. split; [exact H1 | exact H2].
Defined.

(** *** Size *)

(** Whatever is called on a new instance, and in whatever order, the
    registry never grows beyond [MAX_CACHE_SIZE + MAX_CACHE_OFFSET] as long
    as nothing throws; [has], [get] and a [set] of a stored sequence leave
    its size alone and [delete] never makes it larger. *)
Theorem size_within_ceiling maxSize maxOffset cs s :
  0 <= maxSize + maxOffset ->
  run maxSize maxOffset new cs = Some s ->
  size s <= maxSize + maxOffset /\
  (forall o, size (snd (get s o)) = size s) /\
  (forall o v s', has s o = true -> set maxSize maxOffset s o v = Some s' -> size s' = size s) /\
  (forall o r s', delete s o = Some (r, s') -> size s' <= size s).
Proof.
  intros Hlimit Hrun. split; [|split; [|split]].
  - eapply run_size_bound; [|exact Hrun]. change (size new) with 0. lia.
  - intros o. unfold size. by rewrite get_keys.
  - intros o v s' Hhas. rewrite set_stored by done. by intros [= <-].
  - intros o r s'. unfold delete. destruct (has s o); [|by intros [= _ <-]].
    destruct (deleteByPath (cache s) o) as [[res c']|]; [|done].
    intros [= _ <-]. unfold size. simpl.
    pose proof (List.filter_length_le
                  (fun item => negb (sameDerivativeOption item o)) (keys s)). lia.
Qed.

Lemma size_within_ceiling_witness :
  0 <= 2 + 1 /\
  exists s, run 2 1 new (inserts 0 [[0]; [1]; [2]; [3]]%nat) = Some s /\ size s <= 2 + 1.
Proof.
  split; [lia|]. eexists. split; [vm_compute; reflexivity|].
  eapply (size_within_ceiling 2 1 (inserts 0 [[0]; [1]; [2]; [3]]%nat));
    [lia | vm_compute; reflexivity].
Defined.

(** *** Sequences none of which begins another *)

(** On sequences none of which is empty or the beginning of another, and
    with a ceiling of at least 1, no series of calls on a new instance
    throws, and after it the registry lists exactly the stored sequences,
    each of them once. *)
Theorem prefix_free_registry P maxSize maxOffset cs :
  prefixFree P -> 1 <= maxSize + maxOffset ->
  Forall (fun c => P (callArg c)) cs ->
  exists s,
    run maxSize maxOffset new cs = Some s /\
    List.NoDup (keys s) /\
    (forall o, In o (keys s) <-> has s o = true) /\
    (forall o, In o (keys s) -> P o).
Proof.
  intros HP Hlimit Hcs.
  destruct (run_consistent P maxSize maxOffset HP Hlimit cs new Hcs (new_consistent P))
    as (s & Hrun & (_ & Hnd & Hkeys & HPk)).
  exists s. split; [done|]. split; [done|]. split; [|done].
  intros o. by rewrite has_leafAt.
Qed.

Lemma prefix_free_registry_witness :
  prefixFree (fun o => length o = 1%nat) /\ 1 <= 2 + 1 /\
  exists s, run 2 1 new (inserts 0 [[0]; [1]; [2]; [3]]%nat) = Some s /\ List.NoDup (keys s).
Proof.
  split; [apply (same_length_prefixFree 0)|]. split; [lia|].
  destruct (prefix_free_registry (fun o => length o = 1%nat) 2 1
              (inserts 0 [[0]; [1]; [2]; [3]]%nat) (same_length_prefixFree 0))
    as (s & Hrun & Hnd & _); [lia | repeat constructor |].
  exists s. split; [exact Hrun | exact Hnd].
Defined.

Lemma prefix_free_eviction_witness :
  let s := {| cache := [(0%nat, Node None (Some (0%nat, 0)));
                        (1%nat, Node None (Some (1%nat, 1)));
                        (2%nat, Node None (Some (2%nat, 2)))];
              keys := [[0]; [1]; [2]]%nat; cacheCallTimes := 3 |} in
  run 2 1 new (inserts 0 [[0]; [1]; [2]]%nat) = Some s /\
  exists s', set 2 1 s [3]%nat 3%nat = Some s' /\ has s' [3]%nat = true.
Proof.
  intros s. split; [reflexivity|].
  destruct (prefix_free_eviction (fun o => length o = 1%nat) 2 1 (same_length_prefixFree 0)
              ltac:(lia) (inserts 0 [[0]; [1]; [2]]%nat) s [3]%nat 3%nat)
    as (pre & k & post & t & s' & _ & _ & _ & _ & Hset & _ & _ & Hhas);
    [repeat constructor | reflexivity | reflexivity | reflexivity | reflexivity |].
  exists s'. split; [exact Hset | exact Hhas].
Defined.

End ThemeCacheLaws.

(** ** createTheme *)
Module CreateThemeFacts.
Import ThemeCache ThemeCacheFacts ThemeCacheLaws CreateTheme.

Section Limits.
Variables maxSize maxOffset : Z.

Lemma createTheme_stored d w :
  has (cacheThemes w) (derivativeArr d) = true ->
  createTheme maxSize maxOffset d w =
    Some (fst (get (cacheThemes w) (derivativeArr d)),
          {| cacheThemes := snd (get (cacheThemes w) (derivativeArr d)); made := made w |}).
Proof.
  intros Hhas. unfold createTheme.
  pose proof (hasM_state (cacheThemes w) (derivativeArr d)) as Hst.
  unfold has in Hhas. destruct (hasM (cacheThemes w) (derivativeArr d)) as [b c0].
  simpl in *. subst. by destruct (get (cacheThemes w) (derivativeArr d)).
Qed.

Lemma createTheme_missing d w :
  has (cacheThemes w) (derivativeArr d) = false ->
  createTheme maxSize maxOffset d w =
    match set maxSize maxOffset (cacheThemes w) (derivativeArr d) (length (made w)) with
    | None => None
    | Some c1 =>
        Some (fst (get c1 (derivativeArr d)),
              {| cacheThemes := snd (get c1 (derivativeArr d));
                 made := made w ++ [derivativeArr d] |})
    end.
Proof.
  intros Hhas. unfold createTheme.
  pose proof (hasM_state (cacheThemes w) (derivativeArr d)) as Hst.
  unfold has in Hhas. destruct (hasM (cacheThemes w) (derivativeArr d)) as [b c0].
  simpl in *. subst.
  destruct (set maxSize maxOffset (cacheThemes w) (derivativeArr d) (length (made w)))
    as [c1|]; [|done].
  by destruct (get c1 (derivativeArr d)).
Qed.

(** A call that returns a theme leaves it stored. *)
Lemma createTheme_leaves_stored d w theme w' :
  createTheme maxSize maxOffset d w = Some (Some theme, w') ->
  exists stamp, leafAt (cache (cacheThemes w')) (derivativeArr d) = Some (theme, stamp).
Proof.
  assert (Hget : forall c, fst (get c (derivativeArr d)) = Some theme ->
            exists stamp, leafAt (cache (snd (get c (derivativeArr d)))) (derivativeArr d)
                          = Some (theme, stamp)).
  { intros c Hr.
    destruct (has c (derivativeArr d)) eqn:Hhas.
    - assert (Hhit := Hhas). apply has_leafAt in Hhit as [[th old] Hleaf].
      apply has_find in Hhas as (sub & th' & stamp & Hfind).
      revert Hr. unfold get, internalGet. rewrite Hfind. simpl. intros [= <-].
      exists (cacheCallTimes c). unfold leafAt in Hleaf. rewrite Hfind in Hleaf.
      injection Hleaf as -> _. eapply leafAt_restamp_same. unfold leafAt. by rewrite Hfind.
    - rewrite (get_none _ _ Hhas) in Hr. done. }
  destruct (has (cacheThemes w) (derivativeArr d)) eqn:Hhas.
  - rewrite createTheme_stored by done. intros [= Hr <-]. simpl. by apply Hget.
  - rewrite createTheme_missing by done.
    destruct (set _ _ _ _ _) as [c1|]; [|done]. intros [= Hr <-]. simpl. by apply Hget.
Qed.

(** Asked again for the sequence it has just returned a theme for,
    [createTheme] returns the same theme, makes no new one and leaves the
    registry as it is -- whichever of the two forms of the argument is used. *)
Theorem createTheme_again d d' w theme w' :
  derivativeArr d' = derivativeArr d ->
  createTheme maxSize maxOffset d w = Some (Some theme, w') ->
  exists w'',
    createTheme maxSize maxOffset d' w' = Some (Some theme, w'') /\
    made w'' = made w' /\
    keys (cacheThemes w'') = keys (cacheThemes w').
Proof.
  intros Harr Hcall.
  destruct (createTheme_leaves_stored d w theme w' Hcall) as [stamp Hleaf].
  assert (Hhas : has (cacheThemes w') (derivativeArr d') = true).
  { rewrite Harr. apply has_leafAt. rewrite Hleaf. eauto. }
  rewrite createTheme_stored by done. rewrite Harr. eexists. split; [|split].
  - f_equal. f_equal.
    assert (Hfind : exists sub, find (cache (cacheThemes w')) (derivativeArr d)
                                = Some (Node sub (Some (theme, stamp)))).
    { unfold leafAt in Hleaf.
      destruct (find (cache (cacheThemes w')) (derivativeArr d)) as [[sub v]|]; [|done].
      subst v. eauto. }
    destruct Hfind as [sub Hfind]. unfold get, internalGet. by rewrite Hfind.
  - done.
  - simpl. apply get_keys.
Qed.

Lemma set_none_lost_leaf s k o v :
  In k (keys s) -> has s k = false ->
  has s o = false ->
  size s + 1 > maxSize + maxOffset ->
  set maxSize maxOffset s o v = None.
Proof.
  intros Hk Hlost Ho Hfull. unfold set, register, makeRoom. rewrite Ho.
  replace (size s + 1 >? maxSize + maxOffset) with true
    by (symmetry; rewrite Z.gtb_ltb; apply Z.ltb_lt; lia).
  assert (Hstamp : stampAt s k = None).
  { destruct (stampAt s k) eqn:E; [|done].
    assert (has s k = true) by (apply has_stampAt; eauto). congruence. }
  unfold evictionTarget. by rewrite (scan_throws s k (keys s) _ Hk Hstamp).
Qed.

(** [createTheme] of the empty sequence never returns a theme. A call
    that returns answers [undefined] behind the non-null assertion, although
    it has made a theme and registered the sequence once more, without a
    leaf. It does return while the registry has room. And once the empty
    sequence is registered and the ceiling is reached, [createTheme] throws
    for every sequence that is not stored, the empty one included. *)
Theorem createTheme_empty w :
  (forall r w', createTheme maxSize maxOffset (Several []) w = Some (r, w') ->
     r = None /\
     made w' = made w ++ [[]] /\
     In [] (keys (cacheThemes w')) /\
     has (cacheThemes w') [] = false) /\
  (size (cacheThemes w) + 1 <= maxSize + maxOffset ->
     exists w', createTheme maxSize maxOffset (Several []) w = Some (None, w') /\
                keys (cacheThemes w') = keys (cacheThemes w) ++ [[]]) /\
  (In [] (keys (cacheThemes w)) ->
   size (cacheThemes w) + 1 > maxSize + maxOffset ->
   forall d, has (cacheThemes w) (derivativeArr d) = false ->
             createTheme maxSize maxOffset d w = None).
Proof.
  split; [|split].
  - intros r w'. rewrite createTheme_missing by done.
    change (derivativeArr (Several [])) with (@nil DerivativeFunc).
    destruct (set maxSize maxOffset (cacheThemes w) [] (length (made w))) as [c1|] eqn:Hc1;
      [|done].
    pose proof (set_nil_keys _ _ _ _ _ Hc1) as Hin.
    change (get c1 []) with (@None Theme, c1).
    intros [= <- <-]. by cbn [fst snd made cacheThemes].
  - intros Hroom. rewrite createTheme_missing by done.
    change (derivativeArr (Several [])) with (@nil DerivativeFunc).
    rewrite set_below_ceiling by done. eexists. split; [reflexivity|]. done.
  - intros Hin Hfull d Hd. rewrite createTheme_missing by done.
    by rewrite (set_none_lost_leaf (cacheThemes w) [] (derivativeArr d) _ Hin).
Qed.

Lemma made_grows d w r w' :
  createTheme maxSize maxOffset d w = Some (r, w') -> made w `prefix_of` made w'.
Proof.
  destruct (has (cacheThemes w) (derivativeArr d)) eqn:Hhas.
  - rewrite createTheme_stored by done. by intros [= _ <-].
  - rewrite createTheme_missing by done.
    destruct (set _ _ _ _ _); [|done]. intros [= _ <-]. simpl. by eexists.
Qed.

Lemma get_traced c o l :
  themesTraced {| cacheThemes := c; made := l |} ->
  themesTraced {| cacheThemes := snd (get c o); made := l |}.
Proof.
  intros Htr o' theme stamp Hleaf. simpl in *.
  pose proof (get_themes c o o') as Hthemes. rewrite Hleaf in Hthemes. simpl in Hthemes.
  destruct (leafAt (cache c) o') as [[th old]|] eqn:Hold; [|done].
  injection Hthemes as <-. by apply (Htr o' theme old).
Qed.

Lemma createTheme_traced d w r w' :
  themesTraced w ->
  createTheme maxSize maxOffset d w = Some (r, w') ->
  themesTraced w'.
Proof.
  intros Htr. destruct (has (cacheThemes w) (derivativeArr d)) eqn:Hhas.
  - rewrite createTheme_stored by done. intros [= _ <-]. apply get_traced.
    by destruct w.
  - rewrite createTheme_missing by done.
    destruct (set _ _ _ _ _) as [c1|] eqn:Hset; [|done]. intros [= _ <-].
    apply get_traced. intros o theme stamp Hleaf. simpl in *.
    destruct (set_leaf_origin _ _ _ _ _ _ _ _ Hset Hleaf) as [[-> Hth]|Hold].
    + simpl in Hth. subst theme. by rewrite list_lookup_middle.
    + apply Htr in Hold. rewrite lookup_app_l; [done|]. by eapply lookup_lt_Some.
Qed.

Lemma initial_traced : themesTraced initial.
Proof. intros o theme stamp. simpl. by rewrite leafAt_empty. Qed.

Lemma createThemes_traced ds : forall w rs w',
  themesTraced w ->
  createThemes maxSize maxOffset ds w = Some (rs, w') ->
  themesTraced w' /\ made w `prefix_of` made w' /\
  Forall2 (fun d r => forall theme, r = Some theme ->
                                    made w' !! theme = Some (derivativeArr d)) ds rs.
Proof.
  induction ds as [|d ds IH]; intros w rs w' Htr; simpl.
  - intros [= <- <-]. split; [done|]. split; [done|]. constructor.
  - destruct (createTheme maxSize maxOffset d w) as [[r w1]|] eqn:Hcall; [|done].
    destruct (createThemes maxSize maxOffset ds w1) as [[rs1 w2]|] eqn:Hrest; [|done].
    intros [= <- <-].
    pose proof (createTheme_traced _ _ _ _ Htr Hcall) as Htr1.
    destruct (IH _ _ _ Htr1 Hrest) as (Htr2 & Hpre & Hall).
    split; [done|]. split.
    { etrans; [by eapply made_grows|done]. }
    constructor; [|done]. intros theme ->.
    destruct (createTheme_leaves_stored _ _ _ _ Hcall) as [stamp Hleaf].
    apply Htr1 in Hleaf. by eapply prefix_lookup_Some.
Qed.

(** Over any series of calls, every theme returned was made for the
    very sequence it was asked with; so two calls that return the same
    theme were given the same sequence. *)
Theorem createTheme_distinguishes ds rs w i j di dj theme :
  createThemes maxSize maxOffset ds initial = Some (rs, w) ->
  ds !! i = Some di -> rs !! i = Some (Some theme) ->
  ds !! j = Some dj -> rs !! j = Some (Some theme) ->
  made w !! theme = Some (derivativeArr di) /\ derivativeArr di = derivativeArr dj.
Proof.
  intros Hrun Hdi Hri Hdj Hrj.
  destruct (createThemes_traced ds initial rs w initial_traced Hrun) as (_ & _ & Hall).
  pose proof (Forall2_lookup_lr _ _ _ _ _ _ Hall Hdi Hri theme eq_refl) as Hi.
  pose proof (Forall2_lookup_lr _ _ _ _ _ _ Hall Hdj Hrj theme eq_refl) as Hj.
  split; [done|]. congruence.
Qed.

Lemma createTheme_consistent P d w :
  prefixFree P -> 1 <= maxSize + maxOffset ->
  P (derivativeArr d) -> consistent P (cacheThemes w) ->
  exists theme w',
    createTheme maxSize maxOffset d w = Some (Some theme, w') /\
    consistent P (cacheThemes w').
Proof.
  intros HP Hlimit HPd Hw.
  assert (Hne : derivativeArr d <> []) by (intros E; rewrite E in HPd; by destruct HP).
  assert (Hget : forall c, has c (derivativeArr d) = true ->
            exists theme, fst (get c (derivativeArr d)) = Some theme).
  { intros c (sub & theme & stamp & Hfind)%has_find. exists theme. by eapply get_found. }
  destruct (has (cacheThemes w) (derivativeArr d)) eqn:Hhas.
  - rewrite createTheme_stored by done. destruct (Hget _ Hhas) as [theme ->].
    eexists _, _. split; [done|]. by apply get_consistent.
  - rewrite createTheme_missing by done.
    destruct (set_consistent P maxSize maxOffset HP Hlimit (cacheThemes w) (derivativeArr d)
                (length (made w)) HPd Hw) as (c1 & Hset & Hc1).
    rewrite Hset. destruct (set_find _ _ _ _ _ _ Hne Hset) as [stamp Hfind].
    rewrite (get_found _ _ _ _ _ Hfind).
    eexists _, _. split; [done|]. by apply get_consistent.
Qed.

(** On sequences none of which is empty or the beginning of another, and
    with a ceiling of at least 1, no series of calls of [createTheme]
    throws, and every call returns a theme: the non-null assertion on the
    result holds. *)
Theorem createTheme_never_undefined P ds :
  prefixFree P -> 1 <= maxSize + maxOffset ->
  Forall (fun d => P (derivativeArr d)) ds ->
  exists rs w,
    createThemes maxSize maxOffset ds initial = Some (rs, w) /\
    Forall (fun r => exists theme : Theme, r = Some theme) rs.
Proof.
  intros HP Hlimit Hds.
  assert (Hgen : forall w, consistent P (cacheThemes w) ->
            exists rs w',
              createThemes maxSize maxOffset ds w = Some (rs, w') /\
              Forall (fun r => exists theme : Theme, r = Some theme) rs).
  { induction Hds as [|d ds Hd Hds IH]; intros w Hw; simpl.
    - eexists _, _. split; [done | constructor].
    - destruct (createTheme_consistent P d w HP Hlimit Hd Hw) as (theme & w1 & -> & Hw1).
      destruct (IH w1 Hw1) as (rs & w2 & -> & Hrs).
      eexists _, _. split; [done|]. constructor; eauto. }
  apply Hgen. apply new_consistent.
Qed.

End Limits.

Lemma createTheme_again_witness :
  derivativeArr (Several [3%nat]) = derivativeArr (Single 3%nat) /\
  exists w' w'',
    createTheme 20 5 (Single 3%nat) initial = Some (Some 0%nat, w') /\
    createTheme 20 5 (Several [3%nat]) w' = Some (Some 0%nat, w'') /\
    made w'' = made w'.
Proof.
  split; [reflexivity|]. eexists.
  destruct (createTheme_again 20 5 (Single 3%nat) (Several [3%nat]) initial 0%nat _
              eq_refl eq_refl) as (w'' & H1 & H2 & _).
  exists w''. split; [reflexivity|]. split; [exact H1 | exact H2].
Defined.

Lemma createTheme_empty_witness :
  exists rs w,
    createThemes 20 5 (replicate 25 (Several [])) initial = Some (rs, w) /\
    rs = replicate 25 None /\
    In [] (keys (cacheThemes w)) /\
    size (cacheThemes w) + 1 > 20 + 5 /\
    createTheme 20 5 (Several []) w = None.
Proof.
  eexists _, _. split; [vm_compute; reflexivity|]. split; [reflexivity|].
  split; [by left|]. split; [reflexivity|].
  apply (createTheme_empty 20 5); [by left | reflexivity | reflexivity].
Defined.

Lemma createTheme_distinguishes_witness :
  exists w,
    createThemes 20 5 [Single 3%nat; Several [4; 5]%nat; Several [3%nat]] initial
      = Some ([Some 0; Some 1; Some 0]%nat, w) /\
    derivativeArr (Single 3%nat) = derivativeArr (Several [3%nat]).
Proof.
  eexists. split; [reflexivity|].
  eapply (createTheme_distinguishes 20 5
            [Single 3%nat; Several [4; 5]%nat; Several [3%nat]]
            [Some 0; Some 1; Some 0]%nat _ 0 2 (Single 3%nat) (Several [3%nat]) 0%nat);
    reflexivity.
Defined.

Lemma createTheme_never_undefined_witness :
  prefixFree (fun o => length o = 1%nat) /\ 1 <= 20 + 5 /\
  exists rs w,
    createThemes 20 5 [Single 3%nat; Several [4%nat]] initial = Some (rs, w) /\
    Forall (fun r => exists theme : Theme, r = Some theme) rs.
Proof.
  split; [apply (same_length_prefixFree 0)|]. split; [lia|].
  apply (createTheme_never_undefined 20 5 (fun o => length o = 1%nat)
           [Single 3%nat; Several [4%nat]] (same_length_prefixFree 0));
    [lia | repeat constructor].
Defined.

End CreateThemeFacts.

(** ** StyleContext *)
Module StyleContextFacts.
Import StyleContext.

Section Host.
Variable Host : Type.
Variable createCache : Host -> CacheEntity * Host.
Variable defaultEntity : CacheEntity.

Let getAppContextStyleCache := getAppContextStyleCache Host createCache.
Let useStyleInject := useStyleInject Host createCache defaultEntity.
Let mergeContext := mergeContext Host createCache.
Let useStyleProvider := useStyleProvider Host createCache defaultEntity.

Lemma app_cache_stored e c e' :
  getAppContextStyleCache InApp e = Some (c, e') ->
  app e' = Globals (Some c) \/ (app e = NoGlobalProperties /\ app e' = NoGlobalProperties).
Proof.
  unfold getAppContextStyleCache, StyleContext.getAppContextStyleCache.
  destruct (app e) as [| |[c0|]] eqn:Happ; try done.
  - destruct (createCache (host e)) as [c1 h]. intros [= <- <-]. by right.
  - intros [= <- <-]. by left.
  - destruct (createCache (host e)) as [c1 h]. intros [= <- <-]. by left.
Qed.

(** Inside an application whose context has [globalProperties], the
    entity is made once: what one component without a provider gets as its
    context, every later one gets too -- the same entity, marked as the
    default one, with low priority --, and [createCache] is not run again. *)
Theorem app_cache_made_once e ctx e' :
  app e <> NoGlobalProperties ->
  useStyleInject None InApp e = Some (ctx, e') ->
  useStyleInject None InApp e' = Some (ctx, e') /\
  app e' = Globals (cache ctx) /\
  defaultCache ctx = Some true /\ hashPriority ctx = Some Low /\
  (forall c, app e = Globals (Some c) -> cache ctx = Some c /\ e' = e).
Proof.
  intros Happ. unfold useStyleInject, StyleContext.useStyleInject.
  fold getAppContextStyleCache.
  destruct (getAppContextStyleCache InApp e) as [[c e1]|] eqn:Hcall; [|done].
  intros [= <- <-]. cbn [cache defaultCache hashPriority defaultStyleContext].
  destruct (app_cache_stored e c e1 Hcall) as [Hstored|[Hno _]]; [|done].
  assert (Hagain : getAppContextStyleCache InApp e1 = Some (c, e1)).
  { unfold getAppContextStyleCache, StyleContext.getAppContextStyleCache. by rewrite Hstored. }
  rewrite Hagain. split; [done|]. split; [done|]. split; [done|]. split; [done|].
  intros c0 Hc0. revert Hcall.
  unfold getAppContextStyleCache, StyleContext.getAppContextStyleCache. rewrite Hc0.
  by intros [= <- <-].
Qed.

(** What the watcher makes of the props and the parent's context. *)
Lemma mergeContext_cache propsValue parent h :
  let merged := fst (mergeContext propsValue parent h) in
  let h' := snd (mergeContext propsValue parent h) in
  (forall c, cache propsValue = Some c ->
     cache merged = Some c /\ defaultCache merged = Some false /\ h' = h) /\
  (cache propsValue = None ->
     defaultCache merged = defaultCache parent /\
     (forall c, cache parent = Some c -> cache merged = Some c /\ h' = h) /\
     (cache parent = None ->
        cache merged = Some (fst (createCache h)) /\ h' = snd (createCache h))) /\
  is_Some (cache merged) /\
  autoClear merged = override (autoClear propsValue) (autoClear parent) /\
  mock merged = override (mock propsValue) (mock parent) /\
  hashPriority merged = override (hashPriority propsValue) (hashPriority parent) /\
  container merged = override (container propsValue) (container parent) /\
  ssrInline merged = override (ssrInline propsValue) (ssrInline parent) /\
  transformers merged = override (transformers propsValue) (transformers parent) /\
  linters merged = override (linters propsValue) (linters parent).
Proof.
  cbv zeta. unfold mergeContext, StyleContext.mergeContext.
  destruct (cache propsValue) as [c|] eqn:Hown; cbn [override].
  - cbn [fst snd cache defaultCache autoClear mock hashPriority container ssrInline
         transformers linters].
    split; [by intros c0 [= <-]|]. split; [done|]. split; [eauto|]. by repeat split.
  - destruct (cache parent) as [c|] eqn:Hparent.
    + cbn [fst snd cache defaultCache autoClear mock hashPriority container ssrInline
           transformers linters].
      split; [done|]. split.
      { intros _. split; [done|]. split; [by intros c0 [= <-] | done]. }
      split; [eauto|]. by repeat split.
    + destruct (createCache h) as [c h1].
      cbn [fst snd cache defaultCache autoClear mock hashPriority container ssrInline
           transformers linters].
      split; [done|]. split; [by intros _|]. split; [eauto|]. by repeat split.
Qed.

(** What a provider hands down, and what it creates. Wherever it injects
    its parent's context, [useStyleProvider] returns; after the injection it
    runs [createCache] once, for the first value of its reference, whatever
    its props are. Given a cache, it hands that cache down and never marks
    the context as the default one, whatever its [defaultCache] prop says,
    and runs [createCache] no further. Given none, it hands down the parent's
    cache with the parent's mark, and runs [createCache] a second time only
    if the parent has none. The context handed down always has a cache, and
    every other field is the provider's own where it is defined and the
    parent's otherwise. *)
Theorem provider_context propsValue provided e parent e1 :
  useStyleInject provided InApp e = Some (parent, e1) ->
  let h1 := snd (createCache (host e1)) in
  exists merged e',
    useStyleProvider propsValue provided InApp e = Some (merged, e') /\
    app e' = app e1 /\
    (forall c, cache propsValue = Some c ->
       cache merged = Some c /\ defaultCache merged = Some false /\ host e' = h1) /\
    (cache propsValue = None ->
       defaultCache merged = defaultCache parent /\
       (forall c, cache parent = Some c -> cache merged = Some c /\ host e' = h1) /\
       (cache parent = None ->
          cache merged = Some (fst (createCache h1)) /\ host e' = snd (createCache h1))) /\
    is_Some (cache merged) /\
    autoClear merged = override (autoClear propsValue) (autoClear parent) /\
    mock merged = override (mock propsValue) (mock parent) /\
    hashPriority merged = override (hashPriority propsValue) (hashPriority parent) /\
    container merged = override (container propsValue) (container parent) /\
    ssrInline merged = override (ssrInline propsValue) (ssrInline parent) /\
    transformers merged = override (transformers propsValue) (transformers parent) /\
    linters merged = override (linters propsValue) (linters parent).
Proof.
  intros Hinject. cbv zeta.
  unfold useStyleProvider, StyleContext.useStyleProvider. fold useStyleInject.
  rewrite Hinject. destruct (createCache (host e1)) as [c0 h1] eqn:Hmade. cbn [snd].
  fold mergeContext.
  pose proof (mergeContext_cache propsValue parent h1) as Hmerge. cbv zeta in Hmerge.
  destruct (mergeContext propsValue parent h1) as [merged h2]. cbn [fst snd] in Hmerge.
  exists merged, {| host := h2; app := app e1 |}. split; [done|]. split; [done|].
  exact Hmerge.
Qed.

End Host.

Lemma app_cache_made_once_witness :
  exists ctx e',
    useStyleInject nat countingCreateCache 0%nat None InApp
      {| host := 1%nat; app := Globals None |} = Some (ctx, e') /\
    useStyleInject nat countingCreateCache 0%nat None InApp e' = Some (ctx, e').
Proof.
  eexists _, _. split; [reflexivity|].
  eapply (app_cache_made_once nat countingCreateCache 0%nat
            {| host := 1%nat; app := Globals None |}); [discriminate | reflexivity].
Defined.

Lemma provider_context_witness :
  let propsValue :=
    {| autoClear := None; mock := None; cache := Some 9%nat; defaultCache := Some true;
       hashPriority := Some High; container := None; ssrInline := None;
       transformers := None; linters := None |} in
  exists parent e1 merged e',
    useStyleInject nat countingCreateCache 0%nat None InApp
      {| host := 1%nat; app := Globals None |} = Some (parent, e1) /\
    useStyleProvider nat countingCreateCache 0%nat propsValue None InApp
      {| host := 1%nat; app := Globals None |} = Some (merged, e') /\
    cache merged = Some 9%nat /\ defaultCache merged = Some false /\ host e' = 3%nat.
Proof.
  intros propsValue. eexists _, _.
  destruct (provider_context nat countingCreateCache 0%nat propsValue None
              {| host := 1%nat; app := Globals None |} _ _ eq_refl)
    as (merged & e' & Hrun & _ & Hgiven & _).
  exists merged, e'. split; [reflexivity|]. split; [exact Hrun|].
  exact (Hgiven 9%nat eq_refl).
Defined.

End StyleContextFacts.
